(** * aws-key-rotator: the key rotation of [KeyRotator], embedded and verified

    The development follows [src/keyRotation/keyRotator.ts]:

    - the data of [aws-sdk/clients/iam] the rotator touches (access keys and
      their metadata), and the IAM service as a state machine that answers
      [listAccessKeys], [createAccessKey] and [deleteAccessKey];
    - promises as a state-and-error monad over that service ([then_] is
      [.then], [catch_] is [.catch], [Promise_all] is [Promise.all]);
    - module [KeyRotator]: the class as in [src/keyRotation/keyRotator.ts];
    - module [KeyRotator_1_1_1]: the later revision of the same file
      (package version 1.1.1, second file of [unnamed/part_000]), whose
      self-healing retries the key creation;
    - module [KeyRotator_1_1_0]: the revision between the two (package
      version 1.1.0, first file of [unnamed/part_000]), whose self-healing
      runs the whole core of the rotation again;
    - the properties of a rotation run, revision by revision. *)

From Stdlib Require Import List String Bool Arith Lia.
Import ListNotations.

(* ================================================================= *)
(** ** Data model *)

(** Modelled from the spec: [keyStatus.ts], which names the two values of
    a key's status, is not among the sources.  Section 3 of the
    specification gives a key a status in ACTIVE, INACTIVE; the test double
    creates its keys with the status ['Active']. *)
Inductive statusType : Type := Active | Inactive.

Definition ACTIVE : statusType := Active.
Definition INACTIVE : statusType := Inactive.

(** [key.Status === INACTIVE] compares two status values. *)
Definition status_eqb (a b : statusType) : bool :=
  match a, b with
  | Active, Active | Inactive, Inactive => true
  | _, _ => false
  end.

(** Access key identifiers are opaque (uuids in the tests); the service
    issues them from a counter, so they are numbers here. *)
Definition accessKeyIdType : Type := nat.

Record AccessKeyMetadata : Type := mkMeta {
  UserName : string;
  AccessKeyId : accessKeyIdType;
  Status : statusType
}.

Record AccessKey : Type := mkKey {
  keyUserName : string;
  keyAccessKeyId : accessKeyIdType;
  keyStatus : statusType;
  SecretAccessKey : string
}.

(** [deleteKey] takes an [AccessKeyMetadata]; [handleNewKey] passes it an
    [AccessKey], which has the same three fields. *)
Definition asMetadata (k : AccessKey) : AccessKeyMetadata :=
  mkMeta (keyUserName k) (keyAccessKeyId k) (keyStatus k).

(** Errors a promise rejects with.  The errors of the service carry the
    number of the request that raised them, so that two errors of one run
    are told apart.  The handler rejects with, or throws, any value:
    [HandlerFailure] is a value that [JSON.stringify] serialises (the
    string of the tests), [Unserialisable] one on which [JSON.stringify]
    throws (a circular structure, a BigInt).  [TypeError] is what
    [JSON.stringify] throws then, and what the call of [.catch] on
    something that is no promise throws. *)
Inductive Error : Type :=
| ServiceFailure (request : nat)
| LimitExceeded (request : nat)
| NoSuchEntity (request : nat)
| HandlerFailure (reason : string)
| Unserialisable (reason : string)
| TypeError.

(** Whether [JSON.stringify(err)] returns.  The errors of the service are
    plain data (a string in the test double). *)
Definition serialisable (err : Error) : bool :=
  match err with
  | Unserialisable _ => false
  | _ => true
  end.

(** What the outside world saw of a run, in order. *)
Inductive Event : Type :=
| EvList (user : string) (ok : bool)
| EvCreate (user : string) (created : option accessKeyIdType)
| EvDelete (user : string) (id : accessKeyIdType) (ok : bool)
| EvHandle (id : accessKeyIdType) (ok : bool).

(* ================================================================= *)
(** ** The IAM service *)

(** The remote state: the keys of every user, the number of identifiers
    issued so far, the number of requests received so far, and the journal
    of everything that happened. *)
Record World : Type := mkWorld {
  keys : string -> list AccessKeyMetadata;
  issued : nat;
  clock : nat;
  journal : list Event
}.

(** Modelled from the spec: the IAM service is outside the repository
    (the [IAM] client of aws-sdk).  Its model follows the test double of
    [keyRotator.test.ts] ([mockListAccessKeys], [mockCreateAccessKey],
    [mockDeleteAccessKey], [mockErrorCallback]) and section 6 of the
    specification.  [faults n] says that the [n]-th request fails without
    effect, as [mockErrorCallback] does; [strictDelete] says whether
    deleting a key that does not exist is an error (section 6) or not (the
    test double). *)
Record IAM : Type := mkIAM {
  faults : nat -> bool;
  strictDelete : bool
}.

(** AWS allows at most two access keys per user
    ([keys.length >= 2] in [mockCreateAccessKey]). *)
Definition maxKeys : nat := 2.

Definition upd (f : string -> list AccessKeyMetadata) (user : string)
    (ks : list AccessKeyMetadata) : string -> list AccessKeyMetadata :=
  fun u => if String.eqb user u then ks else f u.

Definition hasId (id : accessKeyIdType) (k : AccessKeyMetadata) : bool :=
  AccessKeyId k =? id.

(* ================================================================= *)
(** ** Promises *)

Inductive Settled (A : Type) : Type :=
| Resolved (a : A)
| Rejected (e : Error).
Arguments Resolved {A} a.
Arguments Rejected {A} e.

(** A promise is run against the world and settles. *)
Definition Promise (A : Type) : Type := World -> Settled A * World.

Definition resolve {A} (a : A) : Promise A := fun w => (Resolved a, w).
Definition reject {A} (e : Error) : Promise A := fun w => (Rejected e, w).

Definition then_ {A B} (p : Promise A) (f : A -> Promise B) : Promise B :=
  fun w => match p w with
           | (Resolved a, w') => f a w'
           | (Rejected e, w') => (Rejected e, w')
           end.

Definition catch_ {A} (p : Promise A) (h : Error -> Promise A) : Promise A :=
  fun w => match p w with
           | (Resolved a, w') => (Resolved a, w')
           | (Rejected e, w') => h e w'
           end.

Declare Scope promise_scope.
Delimit Scope promise_scope with promise.
Notation "p '.then' f" := (then_ p f)
  (at level 51, left associativity) : promise_scope.
Notation "p '.catch' h" := (catch_ p h)
  (at level 51, left associativity) : promise_scope.
Local Open Scope promise_scope.

(** A callback that starts with a log line holding [JSON.stringify(err)]:
    when [JSON.stringify] throws, the callback ends there, and the promise
    of the [.catch] it was given to rejects with the [TypeError]. *)
Definition logging {A} (err : Error) (rest : Promise A) : Promise A :=
  if serialisable err then rest else reject TypeError.

(** [forEach] with [promises.push]: every promise is started, in the order
    of the list, before any of them is awaited.  The requests of a batch
    concern different keys, so the order in which the service answers them
    does not change the keys that are left; the model answers them in the
    order in which they were sent, as the test double does, whose callbacks
    answer at once. *)
Fixpoint forEach {A B} (l : list A) (f : A -> Promise B) (w : World)
    : list (Settled B) * World :=
  match l with
  | [] => ([], w)
  | a :: l' =>
      let (s, w1) := f a w in
      let (ss, w2) := forEach l' f w1 in
      (s :: ss, w2)
  end.

(** [Promise.all] of promises that have settled: the values when all of
    them resolved, the first rejection (in the order of the answers)
    otherwise.  No promise of the batch is cancelled by the rejection of
    another.  As the model answers the requests in the order in which they
    were sent, the rejection it reports is that of the first request of the
    list that failed; a service that answers in another order makes
    [Promise.all] report the rejection of another failed request of the
    batch.  What is requested, what is deleted and whether the batch
    resolves do not depend on that order. *)
Fixpoint all_settled {A} (ss : list (Settled A)) : Settled (list A) :=
  match ss with
  | [] => Resolved []
  | Rejected e :: _ => Rejected e
  | Resolved a :: ss' =>
      match all_settled ss' with
      | Resolved l => Resolved (a :: l)
      | Rejected e => Rejected e
      end
  end.

Definition Promise_all {A B} (l : list A) (f : A -> Promise B)
    : Promise (list B) :=
  fun w => let (ss, w') := forEach l f w in (all_settled ss, w').

(* ----------------------------------------------------------------- *)
(** *** The three requests *)

Definition record (ev : Event) (w : World) : World :=
  mkWorld (keys w) (issued w) (clock w) (journal w ++ [ev]).

Definition request (ev : Event) (w : World) : World :=
  mkWorld (keys w) (issued w) (S (clock w)) (journal w ++ [ev]).

Definition listAccessKeys (iam : IAM) (user : string)
    : Promise (list AccessKeyMetadata) :=
  fun w =>
    if faults iam (clock w)
    then (Rejected (ServiceFailure (clock w)), request (EvList user false) w)
    else (Resolved (keys w user), request (EvList user true) w).

Definition createAccessKey (iam : IAM) (user : string) : Promise AccessKey :=
  fun w =>
    if faults iam (clock w)
    then (Rejected (ServiceFailure (clock w)), request (EvCreate user None) w)
    else if maxKeys <=? List.length (keys w user)
    then (Rejected (LimitExceeded (clock w)), request (EvCreate user None) w)
    else
      let id := issued w in
      (Resolved (mkKey user id Active EmptyString),
       mkWorld (upd (keys w) user (keys w user ++ [mkMeta user id Active]))
               (S (issued w)) (S (clock w))
               (journal w ++ [EvCreate user (Some id)])).

Definition deleteAccessKey (iam : IAM) (user : string) (id : accessKeyIdType)
    : Promise unit :=
  fun w =>
    if faults iam (clock w)
    then (Rejected (ServiceFailure (clock w)), request (EvDelete user id false) w)
    else if existsb (hasId id) (keys w user)
    then (Resolved tt,
          mkWorld (upd (keys w) user
                     (filter (fun k => negb (hasId id k)) (keys w user)))
                  (issued w) (S (clock w))
                  (journal w ++ [EvDelete user id true]))
    else if strictDelete iam
    then (Rejected (NoSuchEntity (clock w)), request (EvDelete user id false) w)
    else (Resolved tt, request (EvDelete user id true) w).

(* ----------------------------------------------------------------- *)
(** *** The handler *)

(** How a call of the handler fails: it returns a promise that rejects
    with a value, it throws a value, or it returns something that is no
    promise (the type of [newKeyHandler.ts] is not checked when the
    rotator is called from JavaScript). *)
Inductive Failure : Type :=
| Rejects (err : Error)
| Throws (err : Error)
| NoPromise.

(** [NewKeyHandler] of [newKeyHandler.ts]
    ([(key: AccessKey) => Promise<void>]): it takes the new key and
    returns a promise that resolves ([None]), or fails in one of the three
    ways.  What it does with the key is outside the rotator; it does not
    touch the keys of the service.  A promise that never settles is not
    modelled: the run that awaits it does not settle either. *)
Definition NewKeyHandler : Type := AccessKey -> option Failure.

(** The error that leaves the expression [this.newKeyHandler(key)] or the
    method called on its value: the reason of the rejected promise, the
    value thrown, or the [TypeError] of a method call on what is no
    promise. *)
Definition failureError (f : Failure) : Error :=
  match f with
  | Rejects err | Throws err => err
  | NoPromise => TypeError
  end.

(** Whether the failure leaves the body of [handleNewKey] at once, as an
    exception: no [.then] or [.catch] is attached to anything then. *)
Definition escapes (f : Failure) : bool :=
  match f with
  | Rejects _ => false
  | Throws _ | NoPromise => true
  end.

(** The call [this.newKeyHandler(key)].  The journal records it, and
    whether the handler accepted the key. *)
Definition callHandler (h : NewKeyHandler) (key : AccessKey) : Promise unit :=
  fun w =>
    match h key with
    | None => (Resolved tt, record (EvHandle (keyAccessKeyId key) true) w)
    | Some f =>
        (Rejected (failureError f),
         record (EvHandle (keyAccessKeyId key) false) w)
    end.

(** [this.newKeyHandler(key).m(...)]: the methods [chain] are called on
    the promise the handler returned.  When the handler throws, or returns
    no promise, the exception leaves the body of [handleNewKey]; as
    [handleNewKey] is called in a [.then] callback, the promise of that
    [.then] rejects with it. *)
Definition invoke (h : NewKeyHandler) (key : AccessKey)
    (chain : Promise unit -> Promise unit) : Promise unit :=
  match h key with
  | Some f => if escapes f then callHandler h key else chain (callHandler h key)
  | None => chain (callHandler h key)
  end.

(* ================================================================= *)
(** ** [src/keyRotation/keyRotator.ts] *)

(** The log lines of the class are left out, but for those that hold
    [JSON.stringify(err)] of an error the callback was given: they are
    [logging], as [JSON.stringify] can throw on a value that comes from the
    handler.  The other calls of [JSON.stringify] are on data of the
    service (the listed keys, the created key, the keys to delete). *)

Record KeyRotatorT : Type := mkKeyRotator {
  iam : IAM;
  newKeyHandler : NewKeyHandler
}.

Definition isInactive (key : AccessKeyMetadata) : bool :=
  status_eqb (Status key) INACTIVE.

Module KeyRotator.

Definition getExistingKeys (this : KeyRotatorT) (user : string)
    : Promise (list AccessKeyMetadata) :=
  listAccessKeys (iam this) user .then (fun data => resolve data).

Definition createNewKey (this : KeyRotatorT) (user : string)
    : Promise AccessKey :=
  createAccessKey (iam this) user .then (fun newKey => resolve newKey).

Definition deleteKey (this : KeyRotatorT) (user : string)
    (key : AccessKeyMetadata) : Promise unit :=
  deleteAccessKey (iam this) user (AccessKeyId key)
    .then (fun data => resolve data).

Definition deleteKeys (this : KeyRotatorT) (user : string)
    (keys : list AccessKeyMetadata)
    (filter : option (AccessKeyMetadata -> bool)) : Promise unit :=
  let keysToDelete :=
    match filter with
    | Some f => List.filter (fun key => f key) keys
    | None => keys
    end in
  Promise_all keysToDelete (fun key => deleteKey this user key)
    .then (fun data => resolve tt).

Definition handleNewKey (this : KeyRotatorT) (user : string)
    (key : AccessKey) : Promise unit :=
  invoke (newKeyHandler this) key (fun handled =>
    handled
      .catch (fun err =>
        logging err
          (deleteKey this user (asMetadata key) .then (fun _ => reject err)))).

Definition performKeyRotation (this : KeyRotatorT) (user : string)
    (keys : list AccessKeyMetadata) : Promise unit :=
  createNewKey this user
    .then (fun key => handleNewKey this user key)
    .then (fun _ => deleteKeys this user keys None)
    .catch (fun err =>
      deleteKeys this user keys (Some (fun key => isInactive key))
        .then (fun _ => reject err)).

Definition rotateKeys (this : KeyRotatorT) (user : string) : Promise unit :=
  getExistingKeys this user
    .then (fun keys => performKeyRotation this user keys)
    .catch (fun err => logging err (reject err)).

End KeyRotator.

(* ================================================================= *)
(** ** Revision 1.1.1 of the same file (second file of [unnamed/part_000]) *)

Module KeyRotator_1_1_1.

Definition getExistingKeys (this : KeyRotatorT) (user : string)
    : Promise (list AccessKeyMetadata) :=
  listAccessKeys (iam this) user .then (fun data => resolve data).

Definition createKey (this : KeyRotatorT) (user : string)
    : Promise AccessKey :=
  createAccessKey (iam this) user .then (fun newKey => resolve newKey).

Definition deleteKey (this : KeyRotatorT) (user : string)
    (key : AccessKeyMetadata) : Promise unit :=
  deleteAccessKey (iam this) user (AccessKeyId key)
    .then (fun _ => resolve tt).

Definition deleteKeys (this : KeyRotatorT) (user : string)
    (keys : list AccessKeyMetadata)
    (filter : option (AccessKeyMetadata -> bool)) : Promise (list unit) :=
  let keysToDelete :=
    match filter with
    | Some f => List.filter (fun key => f key) keys
    | None => keys
    end in
  Promise_all keysToDelete (fun key => deleteKey this user key).

Definition createNewKey (this : KeyRotatorT) (user : string)
    (keys : list AccessKeyMetadata) : Promise AccessKey :=
  createKey this user
    .catch (fun err =>
      logging err
        (deleteKeys this user keys (Some (fun key => isInactive key))
           .then (fun _ => createKey this user))).

Definition handleNewKey (this : KeyRotatorT) (user : string)
    (key : AccessKey) : Promise unit :=
  invoke (newKeyHandler this) key (fun handled =>
    handled
      .then (fun _ => resolve tt)
      .catch (fun err =>
        logging err
          (deleteKey this user (asMetadata key) .then (fun _ => reject err)))).

Definition performKeyRotation (this : KeyRotatorT) (user : string)
    (keys : list AccessKeyMetadata) : Promise unit :=
  createNewKey this user keys
    .then (fun key => handleNewKey this user key)
    .then (fun _ => deleteKeys this user keys None)
    .then (fun _ => resolve tt).

Definition rotateKeys (this : KeyRotatorT) (user : string) : Promise unit :=
  getExistingKeys this user
    .then (fun keys => performKeyRotation this user keys)
    .catch (fun err => logging err (reject err)).

End KeyRotator_1_1_1.

(* ================================================================= *)
(** ** Revision 1.1.0 of the same file (first file of [unnamed/part_000]) *)

Module KeyRotator_1_1_0.

Definition getExistingKeys (this : KeyRotatorT) (user : string)
    : Promise (list AccessKeyMetadata) :=
  listAccessKeys (iam this) user .then (fun data => resolve data).

Definition createNewKey (this : KeyRotatorT) (user : string)
    : Promise AccessKey :=
  createAccessKey (iam this) user .then (fun newKey => resolve newKey).

Definition deleteKey (this : KeyRotatorT) (user : string)
    (key : AccessKeyMetadata) : Promise unit :=
  deleteAccessKey (iam this) user (AccessKeyId key)
    .then (fun data => resolve data).

Definition deleteKeys (this : KeyRotatorT) (user : string)
    (keys : list AccessKeyMetadata)
    (filter : option (AccessKeyMetadata -> bool)) : Promise unit :=
  let keysToDelete :=
    match filter with
    | Some f => List.filter (fun key => f key) keys
    | None => keys
    end in
  Promise_all keysToDelete (fun key => deleteKey this user key)
    .then (fun _ => resolve tt).

Definition handleNewKey (this : KeyRotatorT) (user : string)
    (key : AccessKey) : Promise unit :=
  invoke (newKeyHandler this) key (fun handled =>
    handled
      .catch (fun err =>
        logging err
          (deleteKey this user (asMetadata key) .then (fun _ => reject err)))).

Definition performCoreKeyRotation (this : KeyRotatorT) (user : string)
    (keys : list AccessKeyMetadata) : Promise unit :=
  createNewKey this user
    .then (fun key => handleNewKey this user key)
    .then (fun _ => deleteKeys this user keys None).

Definition selfHeal (this : KeyRotatorT) (user : string)
    (keys : list AccessKeyMetadata) : Promise unit :=
  deleteKeys this user keys (Some (fun key => isInactive key))
    .then (fun _ => performCoreKeyRotation this user keys).

Definition performKeyRotation (this : KeyRotatorT) (user : string)
    (keys : list AccessKeyMetadata) : Promise unit :=
  performCoreKeyRotation this user keys
    .catch (fun err => logging err (selfHeal this user keys)).

Definition rotateKeys (this : KeyRotatorT) (user : string) : Promise unit :=
  getExistingKeys this user
    .then (fun keys => performKeyRotation this user keys)
    .catch (fun err => logging err (reject err)).

End KeyRotator_1_1_0.

(* ================================================================= *)
(** ** Reading a run *)

(** The events a run added to the journal. *)
Definition trace (w w' : World) : list Event :=
  skipn (List.length (journal w)) (journal w').

Definition isCreate (ev : Event) : bool :=
  match ev with EvCreate _ _ => true | _ => false end.

Definition ids (ks : list AccessKeyMetadata) : list accessKeyIdType :=
  map AccessKeyId ks.

(** The identifiers of the keys of [user] are distinct and were all issued
    by the service. *)
Definition wellFormed (user : string) (w : World) : Prop :=
  NoDup (ids (keys w user)) /\
  Forall (fun k => AccessKeyId k < issued w) (keys w user).

Definition noFaults (i : IAM) : Prop := forall n, faults i n = false.

(* ----------------------------------------------------------------- *)
(** *** The setting of [keyRotator.test.ts] *)

Definition mockIAM : IAM := mkIAM (fun _ => false) false.

Definition keyHandler : NewKeyHandler := fun _ => None.

Definition rejectingHandler : NewKeyHandler :=
  fun _ => Some (Rejects (HandlerFailure "Could not handle new key"%string)).

Definition testUser : string := "TestUser"%string.

Definition worldWith (ks : list AccessKeyMetadata) : World :=
  mkWorld (upd (fun _ => []) testUser ks) (List.length ks) 0 [].

Definition createKey (id : accessKeyIdType) (status : statusType)
    : AccessKeyMetadata :=
  mkMeta testUser id status.

Definition oneInactive : list AccessKeyMetadata := [createKey 0 Inactive].

Definition twoInactive : list AccessKeyMetadata :=
  [createKey 0 Inactive; createKey 1 Inactive].

(** A service whose requests fail from the [n]-th on (as after
    [AWS.mock] with [mockErrorCallback]). *)
Definition failingFrom (n : nat) : IAM := mkIAM (fun m => n <=? m) false.

(** The outcome of a settled promise, as the journal records it. *)
Definition okOf {A} (s : Settled A) : bool :=
  match s with Resolved _ => true | Rejected _ => false end.

(** The journal of a batch of deletions: one request per key of [l], in
    order, with the outcomes [oks]. *)
Definition deletions (user : string) (l : list AccessKeyMetadata)
    (oks : list bool) : list Event :=
  map (fun p => EvDelete user (AccessKeyId (fst p)) (snd p)) (combine l oks).

(** The identifiers of the keys of [l] whose deletion succeeded. *)
Definition deletedIds (l : list AccessKeyMetadata) (oks : list bool)
    : list accessKeyIdType :=
  ids (map fst (filter snd (combine l oks))).

(** The keys of [ks] whose identifier is not in [D]. *)
Definition without (D : list accessKeyIdType) (ks : list AccessKeyMetadata)
    : list AccessKeyMetadata :=
  filter (fun k => negb (existsb (Nat.eqb (AccessKeyId k)) D)) ks.

Definition allOk (oks : list bool) : bool := forallb (fun b => b) oks.

Definition hasActive (ks : list AccessKeyMetadata) : bool :=
  existsb (fun k => status_eqb (Status k) ACTIVE) ks.

(** [n] runs of [rotateKeys] for [user], one after the other. *)
Fixpoint runs (rotate : KeyRotatorT -> string -> Promise unit)
    (this : KeyRotatorT) (user : string) (n : nat) (w : World) : World :=
  match n with
  | 0 => w
  | S n' => runs rotate this user n' (snd (rotate this user w))
  end.

(** The keys [deleteKeys] is to delete ([keysToDelete]). *)
Definition subset (filter : option (AccessKeyMetadata -> bool))
    (l : list AccessKeyMetadata) : list AccessKeyMetadata :=
  match filter with
  | Some f => List.filter f l
  | None => l
  end.

(** The error a clean-up batch ends with: its own first rejection, or
    else the error [e] that started it ([.then(() => Promise.reject(err))]). *)
Definition firstError {A} (ss : list (Settled A)) (e : Error) : Error :=
  match all_settled ss with
  | Rejected e' => e'
  | Resolved _ => e
  end.

(** Whether [handleNewKey] gets to request the deletion of the key after
    the failure [f] of the handler: the failure has to reach its [.catch],
    and the log line of the callback has to return. *)
Definition deletesKey (f : Failure) : bool :=
  match f with
  | Rejects err => serialisable err
  | Throws _ | NoPromise => false
  end.

(** The error [handleNewKey] rejects with after the failure [f] of the
    handler, when no request of its own failed. *)
Definition handleError (f : Failure) : Error :=
  match f with
  | Rejects err => if serialisable err then err else TypeError
  | Throws err => err
  | NoPromise => TypeError
  end.

(** The error [rotateKeys] rejects with when [err] reaches its [.catch],
    whose callback logs [JSON.stringify(err)] before it rejects. *)
Definition surface (err : Error) : Error :=
  if serialisable err then err else TypeError.

(** The paths of [KeyRotator.rotateKeys], one constructor per way through
    the promise chain of [src/keyRotation/keyRotator.ts]. *)
Inductive Run (this : KeyRotatorT) (user : string) (w : World)
    : Settled unit -> World -> Prop :=
| RunListFails e w1 :
    listAccessKeys (iam this) user w = (Rejected e, w1) ->
    Run this user w (Rejected e) w1
| RunCreateFails listed w1 e w2 ss w3 :
    listAccessKeys (iam this) user w = (Resolved listed, w1) ->
    createAccessKey (iam this) user w1 = (Rejected e, w2) ->
    forEach (filter isInactive listed)
      (fun k => deleteAccessKey (iam this) user (AccessKeyId k)) w2 = (ss, w3) ->
    Run this user w (Rejected (firstError ss e)) w3
| RunHandlerFails listed w1 key w2 f s w3 ss w4 :
    listAccessKeys (iam this) user w = (Resolved listed, w1) ->
    createAccessKey (iam this) user w1 = (Resolved key, w2) ->
    newKeyHandler this key = Some f ->
    deletesKey f = true ->
    deleteAccessKey (iam this) user (keyAccessKeyId key)
      (record (EvHandle (keyAccessKeyId key) false) w2) = (s, w3) ->
    forEach (filter isInactive listed)
      (fun k => deleteAccessKey (iam this) user (AccessKeyId k)) w3 = (ss, w4) ->
    Run this user w
      (Rejected (firstError ss (firstError [s] (handleError f)))) w4
| RunHandlerEscapes listed w1 key w2 f ss w3 :
    listAccessKeys (iam this) user w = (Resolved listed, w1) ->
    createAccessKey (iam this) user w1 = (Resolved key, w2) ->
    newKeyHandler this key = Some f ->
    deletesKey f = false ->
    forEach (filter isInactive listed)
      (fun k => deleteAccessKey (iam this) user (AccessKeyId k))
      (record (EvHandle (keyAccessKeyId key) false) w2) = (ss, w3) ->
    Run this user w (Rejected (surface (firstError ss (handleError f)))) w3
| RunCleanupFails listed w1 key w2 ss e w3 ss' w4 :
    listAccessKeys (iam this) user w = (Resolved listed, w1) ->
    createAccessKey (iam this) user w1 = (Resolved key, w2) ->
    newKeyHandler this key = None ->
    forEach listed
      (fun k => deleteAccessKey (iam this) user (AccessKeyId k))
      (record (EvHandle (keyAccessKeyId key) true) w2) = (ss, w3) ->
    all_settled ss = Rejected e ->
    forEach (filter isInactive listed)
      (fun k => deleteAccessKey (iam this) user (AccessKeyId k)) w3 = (ss', w4) ->
    Run this user w (Rejected (firstError ss' e)) w4
| RunSucceeds listed w1 key w2 ss vs w3 :
    listAccessKeys (iam this) user w = (Resolved listed, w1) ->
    createAccessKey (iam this) user w1 = (Resolved key, w2) ->
    newKeyHandler this key = None ->
    forEach listed
      (fun k => deleteAccessKey (iam this) user (AccessKeyId k))
      (record (EvHandle (keyAccessKeyId key) true) w2) = (ss, w3) ->
    all_settled ss = Resolved vs ->
    Run this user w (Resolved tt) w3.

(* ----------------------------------------------------------------- *)
(** *** The ways through a run *)

(** The position of the first failed request of a batch. *)
Fixpoint firstFalse (oks : list bool) : option nat :=
  match oks with
  | [] => None
  | false :: _ => Some 0
  | true :: oks' => option_map S (firstFalse oks')
  end.

(** The error of the [n]-th request when it is a rejected deletion, and
    when it is a rejected creation. *)
Definition deleteError (i : IAM) (n : nat) : Error :=
  if faults i n then ServiceFailure n else NoSuchEntity n.

Definition createError (i : IAM) (n : nat) : Error :=
  if faults i n then ServiceFailure n else LimitExceeded n.

(** A run is told by the step it stopped at and the outcomes of the
    deletions it requested. *)
Inductive Path : Type :=
| ListFailed
| CreateFailed (oks : list bool)
| HandlerFailed (ok : bool) (oks : list bool)
| CleanupFailed (oks oks' : list bool)
| Succeeded (oks : list bool)
| HandlerEscaped (oks : list bool).

Section PathOf.
Variable this : KeyRotatorT.
Variable user : string.
Variable w : World.

Let listed : list AccessKeyMetadata := keys w user.
Let inactive : list AccessKeyMetadata := filter isInactive (keys w user).
Let id : accessKeyIdType := issued w.
Let new : AccessKeyMetadata := mkMeta user (issued w) Active.

Definition pathTrace (p : Path) : list Event :=
  match p with
  | ListFailed => [EvList user false]
  | CreateFailed oks =>
      EvList user true :: EvCreate user None :: deletions user inactive oks
  | HandlerFailed ok oks =>
      EvList user true :: EvCreate user (Some id) :: EvHandle id false
        :: EvDelete user id ok :: deletions user inactive oks
  | CleanupFailed oks oks' =>
      EvList user true :: EvCreate user (Some id) :: EvHandle id true
        :: deletions user listed oks ++ deletions user inactive oks'
  | Succeeded oks =>
      EvList user true :: EvCreate user (Some id) :: EvHandle id true
        :: deletions user listed oks
  | HandlerEscaped oks =>
      EvList user true :: EvCreate user (Some id) :: EvHandle id false
        :: deletions user inactive oks
  end.

Definition pathKeys (p : Path) : list AccessKeyMetadata :=
  match p with
  | ListFailed => listed
  | CreateFailed oks => without (deletedIds inactive oks) listed
  | HandlerFailed ok oks =>
      without (deletedIds inactive oks)
        (without (if ok then [id] else []) (listed ++ [new]))
  | CleanupFailed oks oks' =>
      without (deletedIds inactive oks')
        (without (deletedIds listed oks) (listed ++ [new]))
  | Succeeded oks => without (deletedIds listed oks) (listed ++ [new])
  | HandlerEscaped oks => without (deletedIds inactive oks) (listed ++ [new])
  end.

(** The error of the run after a failure of the handler, when no request
    failed after it. *)
Definition handlerError : Error :=
  match newKeyHandler this (mkKey user id Active EmptyString) with
  | Some f => surface (handleError f)
  | None => HandlerFailure EmptyString
  end.

Definition pathResult (p : Path) : Settled unit :=
  match p with
  | ListFailed => Rejected (ServiceFailure (clock w))
  | CreateFailed oks =>
      Rejected match firstFalse oks with
               | Some j => deleteError (iam this) (clock w + 2 + j)
               | None => createError (iam this) (clock w + 1)
               end
  | HandlerFailed ok oks =>
      Rejected match firstFalse oks with
               | Some j => deleteError (iam this) (clock w + 3 + j)
               | None => if ok then handlerError
                         else deleteError (iam this) (clock w + 2)
               end
  | CleanupFailed oks oks' =>
      Rejected match firstFalse oks', firstFalse oks with
               | Some j, _ =>
                   deleteError (iam this) (clock w + 2 + List.length listed + j)
               | None, Some j => deleteError (iam this) (clock w + 2 + j)
               | None, None => handlerError
               end
  | Succeeded _ => Resolved tt
  | HandlerEscaped oks =>
      Rejected match firstFalse oks with
               | Some j => deleteError (iam this) (clock w + 2 + j)
               | None => handlerError
               end
  end.

Definition pathValid (p : Path) : Prop :=
  match p with
  | ListFailed => faults (iam this) (clock w) = true
  | CreateFailed oks =>
      List.length oks = List.length inactive /\
      (faults (iam this) (clock w + 1) = true \/ maxKeys <= List.length listed)
  | HandlerFailed ok oks =>
      List.length oks = List.length inactive /\
      List.length listed < maxKeys /\
      exists f,
        newKeyHandler this (mkKey user id Active EmptyString) = Some f /\
        deletesKey f = true
  | CleanupFailed oks oks' =>
      List.length oks = List.length listed /\
      List.length oks' = List.length inactive /\
      allOk oks = false /\
      List.length listed < maxKeys /\
      newKeyHandler this (mkKey user id Active EmptyString) = None
  | Succeeded oks =>
      List.length oks = List.length listed /\
      allOk oks = true /\
      List.length listed < maxKeys /\
      newKeyHandler this (mkKey user id Active EmptyString) = None
  | HandlerEscaped oks =>
      List.length oks = List.length inactive /\
      List.length listed < maxKeys /\
      exists f,
        newKeyHandler this (mkKey user id Active EmptyString) = Some f /\
        deletesKey f = false
  end.
End PathOf.

(** Whether a run that took path [p] created a key. *)
Definition created (p : Path) : nat :=
  match p with
  | ListFailed | CreateFailed _ => 0
  | _ => 1
  end.

(* ----------------------------------------------------------------- *)
(** *** The statements of the specification that are compared with the code *)

(** Section 4.1, step 2, in the specification's words: when the first
    creation is refused, the listed inactive keys are deleted and then, the
    deletion having completed, the creation is requested exactly once
    more. *)
Definition retriesCreationOnce (rotate : KeyRotatorT -> string -> Promise unit)
    (this : KeyRotatorT) (user : string) (w : World) : Prop :=
  forall r w' rest,
    rotate this user w = (r, w') ->
    trace w w' = EvList user true :: EvCreate user None :: rest ->
    exists oks rest',
      List.length oks = List.length (filter isInactive (keys w user)) /\
      rest = deletions user (filter isInactive (keys w user)) oks ++ rest' /\
      (allOk oks = true ->
       exists c rest'', rest' = EvCreate user c :: rest'' /\
                        filter isCreate rest'' = []).


(** Section 8, idempotence under retry, in the specification's words: no
    run of a sequence leaves more than two keys, nor no key at all when
    there was one before it. *)
Definition neverEmptied (rotate : KeyRotatorT -> string -> Promise unit)
    (this : KeyRotatorT) (user : string) (w : World) : Prop :=
  forall n,
    let before := runs rotate this user n w in
    let after := snd (rotate this user before) in
    List.length (keys after user) <= maxKeys /\
    (keys before user <> [] -> keys after user <> []).

(* ----------------------------------------------------------------- *)
(** *** The answers of the service to a batch of deletions *)

(** Whether the [n]-th request, a deletion of the key [id], succeeds when
    the user's keys have the identifiers [present]. *)
Definition deleteOutcome (i : IAM) (n : nat) (present : list accessKeyIdType)
    (id : accessKeyIdType) : bool :=
  negb (faults i n) &&
  (existsb (fun x => x =? id) present || negb (strictDelete i)).

(** The outcomes of the deletions of the keys of [l], requested one after
    the other from the [n]-th request on. *)
Fixpoint batchOutcomes (i : IAM) (n : nat) (present : list accessKeyIdType)
    (l : list AccessKeyMetadata) : list bool :=
  match l with
  | [] => []
  | k :: l' =>
      let ok := deleteOutcome i n present (AccessKeyId k) in
      ok :: batchOutcomes i (S n)
              (if ok then filter (fun x => negb (x =? AccessKeyId k)) present
               else present) l'
  end.

(* ----------------------------------------------------------------- *)
(** *** The ways through a run of revision 1.1.1 *)

(** How the key of a run of revision 1.1.1 came to be created: at the
    first request, or at the second one, after the deletion of the listed
    inactive keys with the outcomes [oks]. *)
Inductive Start111 : Type :=
| FirstTry
| SecondTry (oks : list bool).

Inductive Path111 : Type :=
| ListFailed111
| HealFailed111 (oks : list bool)
| RetryRefused111 (oks : list bool)
| HandlerFailed111 (s : Start111) (ok : bool)
| OldKeysFailed111 (s : Start111) (oks : list bool)
| Succeeded111 (s : Start111) (oks : list bool)
| HandlerEscaped111 (s : Start111).

Section Path111Of.
Variable this : KeyRotatorT.
Variable user : string.
Variable w : World.

Let listed : list AccessKeyMetadata := keys w user.
Let inactive : list AccessKeyMetadata := filter isInactive (keys w user).
Let id : accessKeyIdType := issued w.
Let new : AccessKeyMetadata := mkMeta user (issued w) Active.

Definition startTrace (s : Start111) : list Event :=
  match s with
  | FirstTry => [EvCreate user (Some id)]
  | SecondTry oks =>
      EvCreate user None
        :: deletions user inactive oks ++ [EvCreate user (Some id)]
  end.

Definition startKeys (s : Start111) : list AccessKeyMetadata :=
  match s with
  | FirstTry => listed ++ [new]
  | SecondTry oks => without (deletedIds inactive oks) listed ++ [new]
  end.

(** The number of the first request after the creation. *)
Definition startClock (s : Start111) : nat :=
  match s with
  | FirstTry => clock w + 2
  | SecondTry _ => clock w + 3 + List.length inactive
  end.

Definition startValid (s : Start111) : Prop :=
  match s with
  | FirstTry => List.length listed < maxKeys
  | SecondTry oks =>
      oks = batchOutcomes (iam this) (clock w + 2) (ids listed) inactive /\
      List.length oks = List.length inactive /\
      allOk oks = true /\
      (faults (iam this) (clock w + 1) = true \/
       maxKeys <= List.length listed) /\
      List.length (without (deletedIds inactive oks) listed) < maxKeys
  end.

Definition path111Trace (p : Path111) : list Event :=
  match p with
  | ListFailed111 => [EvList user false]
  | HealFailed111 oks =>
      EvList user true :: EvCreate user None :: deletions user inactive oks
  | RetryRefused111 oks =>
      EvList user true :: EvCreate user None
        :: deletions user inactive oks ++ [EvCreate user None]
  | HandlerFailed111 s ok =>
      EvList user true
        :: startTrace s ++ [EvHandle id false; EvDelete user id ok]
  | OldKeysFailed111 s oks | Succeeded111 s oks =>
      EvList user true
        :: startTrace s ++ EvHandle id true :: deletions user listed oks
  | HandlerEscaped111 s => EvList user true :: startTrace s ++ [EvHandle id false]
  end.

Definition path111Keys (p : Path111) : list AccessKeyMetadata :=
  match p with
  | ListFailed111 => listed
  | HealFailed111 oks | RetryRefused111 oks =>
      without (deletedIds inactive oks) listed
  | HandlerFailed111 s ok => without (if ok then [id] else []) (startKeys s)
  | OldKeysFailed111 s oks | Succeeded111 s oks =>
      without (deletedIds listed oks) (startKeys s)
  | HandlerEscaped111 s => startKeys s
  end.

Definition path111Result (p : Path111) : Settled unit :=
  match p with
  | ListFailed111 => Rejected (ServiceFailure (clock w))
  | HealFailed111 oks =>
      Rejected match firstFalse oks with
               | Some j => deleteError (iam this) (clock w + 2 + j)
               | None => createError (iam this) (clock w + 1)
               end
  | RetryRefused111 oks =>
      Rejected (createError (iam this) (clock w + 2 + List.length inactive))
  | HandlerFailed111 s ok =>
      Rejected (if ok then handlerError this user w
                else deleteError (iam this) (startClock s))
  | OldKeysFailed111 s oks =>
      Rejected match firstFalse oks with
               | Some j => deleteError (iam this) (startClock s + j)
               | None => handlerError this user w
               end
  | Succeeded111 _ _ => Resolved tt
  | HandlerEscaped111 _ => Rejected (handlerError this user w)
  end.

Definition path111Valid (p : Path111) : Prop :=
  match p with
  | ListFailed111 => faults (iam this) (clock w) = true
  | HealFailed111 oks =>
      oks = batchOutcomes (iam this) (clock w + 2) (ids listed) inactive /\
      List.length oks = List.length inactive /\ allOk oks = false
  | RetryRefused111 oks =>
      oks = batchOutcomes (iam this) (clock w + 2) (ids listed) inactive /\
      List.length oks = List.length inactive /\ allOk oks = true /\
      (faults (iam this) (clock w + 2 + List.length inactive) = true \/
       maxKeys <= List.length (without (deletedIds inactive oks) listed))
  | HandlerFailed111 s ok =>
      startValid s /\
      ok = deleteOutcome (iam this) (startClock s) (ids (startKeys s)) id /\
      exists f,
        newKeyHandler this (mkKey user id Active EmptyString) = Some f /\
        deletesKey f = true
  | OldKeysFailed111 s oks =>
      startValid s /\
      oks = batchOutcomes (iam this) (startClock s) (ids (startKeys s)) listed /\
      List.length oks = List.length listed /\ allOk oks = false /\
      newKeyHandler this (mkKey user id Active EmptyString) = None
  | Succeeded111 s oks =>
      startValid s /\
      oks = batchOutcomes (iam this) (startClock s) (ids (startKeys s)) listed /\
      List.length oks = List.length listed /\ allOk oks = true /\
      newKeyHandler this (mkKey user id Active EmptyString) = None
  | HandlerEscaped111 s =>
      startValid s /\
      exists f,
        newKeyHandler this (mkKey user id Active EmptyString) = Some f /\
        deletesKey f = false
  end.
End Path111Of.

Definition created111 (p : Path111) : nat :=
  match p with
  | ListFailed111 | HealFailed111 _ | RetryRefused111 _ => 0
  | _ => 1
  end.

(* ----------------------------------------------------------------- *)
(** *** The ways through a run of revision 1.1.0 *)

(** The ways through [performCoreKeyRotation]: the step it stopped at and
    the outcomes of the deletions it requested. *)
Inductive Core : Type :=
| CoreCreateFailed
| CoreHandlerFailed (ok : bool)
| CoreOldKeysFailed (oks : list bool)
| CoreSucceeded (oks : list bool)
| CoreHandlerEscaped.

Definition coreResolved (c : Core) : bool :=
  match c with CoreSucceeded _ => true | _ => false end.

Definition coreCreated (c : Core) : nat :=
  match c with CoreCreateFailed => 0 | _ => 1 end.

(** The number of requests of the core, for the old keys [listed]. *)
Definition coreRequests (listed : list AccessKeyMetadata) (c : Core) : nat :=
  match c with
  | CoreCreateFailed | CoreHandlerEscaped => 1
  | CoreHandlerFailed _ => 2
  | CoreOldKeysFailed _ | CoreSucceeded _ => 1 + List.length listed
  end.

(** The journal of the core, when the service issues [id] next. *)
Definition coreTrace (user : string) (listed : list AccessKeyMetadata)
    (id : accessKeyIdType) (c : Core) : list Event :=
  match c with
  | CoreCreateFailed => [EvCreate user None]
  | CoreHandlerFailed ok =>
      [EvCreate user (Some id); EvHandle id false; EvDelete user id ok]
  | CoreOldKeysFailed oks | CoreSucceeded oks =>
      EvCreate user (Some id) :: EvHandle id true :: deletions user listed oks
  | CoreHandlerEscaped => [EvCreate user (Some id); EvHandle id false]
  end.

(** The keys the core leaves, when the user has the keys [present] at its
    start. *)
Definition coreKeys (user : string) (listed present : list AccessKeyMetadata)
    (id : accessKeyIdType) (c : Core) : list AccessKeyMetadata :=
  match c with
  | CoreCreateFailed => present
  | CoreHandlerFailed ok =>
      without (if ok then [id] else []) (present ++ [mkMeta user id Active])
  | CoreOldKeysFailed oks | CoreSucceeded oks =>
      without (deletedIds listed oks) (present ++ [mkMeta user id Active])
  | CoreHandlerEscaped => present ++ [mkMeta user id Active]
  end.

(** The error [handleNewKey] rejects with after the failure of the handler
    on the key [id], when no request of its own failed. *)
Definition handlerErrorFor (this : KeyRotatorT) (user : string)
    (id : accessKeyIdType) : Error :=
  match newKeyHandler this (mkKey user id Active EmptyString) with
  | Some f => handleError f
  | None => HandlerFailure EmptyString
  end.

(** The result of the core, when its first request is the [n]-th. *)
Definition coreResult (this : KeyRotatorT) (user : string)
    (id : accessKeyIdType) (n : nat) (c : Core) : Settled unit :=
  match c with
  | CoreCreateFailed => Rejected (createError (iam this) n)
  | CoreHandlerFailed ok =>
      Rejected (if ok then handlerErrorFor this user id
                else deleteError (iam this) (n + 1))
  | CoreOldKeysFailed oks =>
      Rejected match firstFalse oks with
               | Some j => deleteError (iam this) (n + 1 + j)
               | None => handlerErrorFor this user id
               end
  | CoreSucceeded _ => Resolved tt
  | CoreHandlerEscaped => Rejected (handlerErrorFor this user id)
  end.

(** Whether the core rejected with an error that the log line of the
    [.catch] of [performKeyRotation] can serialise: the self-healing
    follows in that case only. *)
Definition coreHeals (this : KeyRotatorT) (user : string)
    (id : accessKeyIdType) (n : nat) (c : Core) : bool :=
  match coreResult this user id n c with
  | Rejected err => serialisable err
  | Resolved _ => false
  end.

(** The result of [rotateKeys], whose [.catch] logs the error it rejects
    with. *)
Definition surfaced (r : Settled unit) : Settled unit :=
  match r with
  | Rejected err => Rejected (surface err)
  | Resolved a => Resolved a
  end.

Definition coreValid (this : KeyRotatorT) (user : string)
    (listed present : list AccessKeyMetadata) (id : accessKeyIdType) (n : nat)
    (c : Core) : Prop :=
  match c with
  | CoreCreateFailed =>
      faults (iam this) n = true \/ maxKeys <= List.length present
  | CoreHandlerFailed ok =>
      List.length present < maxKeys /\
      ok = deleteOutcome (iam this) (n + 1)
             (ids (present ++ [mkMeta user id Active])) id /\
      exists f,
        newKeyHandler this (mkKey user id Active EmptyString) = Some f /\
        deletesKey f = true
  | CoreOldKeysFailed oks =>
      List.length present < maxKeys /\
      oks = batchOutcomes (iam this) (n + 1)
              (ids (present ++ [mkMeta user id Active])) listed /\
      List.length oks = List.length listed /\ allOk oks = false /\
      newKeyHandler this (mkKey user id Active EmptyString) = None
  | CoreSucceeded oks =>
      List.length present < maxKeys /\
      oks = batchOutcomes (iam this) (n + 1)
              (ids (present ++ [mkMeta user id Active])) listed /\
      List.length oks = List.length listed /\ allOk oks = true /\
      newKeyHandler this (mkKey user id Active EmptyString) = None
  | CoreHandlerEscaped =>
      List.length present < maxKeys /\
      exists f,
        newKeyHandler this (mkKey user id Active EmptyString) = Some f /\
        deletesKey f = false
  end.

(** A run of revision 1.1.0: the core once, and when it failed with an
    error that can be logged, the deletion of the listed inactive keys,
    with the outcomes [oks], and when none of them failed the core once
    more. *)
Inductive Path110 : Type :=
| ListFailed110
| Once110 (c : Core)
| HealFailed110 (c : Core) (oks : list bool)
| Twice110 (c : Core) (oks : list bool) (c2 : Core).

Section Path110Of.
Variable this : KeyRotatorT.
Variable user : string.
Variable w : World.

Let listed : list AccessKeyMetadata := keys w user.
Let inactive : list AccessKeyMetadata := filter isInactive (keys w user).

(** The keys of the user after the first core, and after the deletion of
    the inactive keys that follows it. *)
Definition afterCore (c : Core) : list AccessKeyMetadata :=
  coreKeys user listed listed (issued w) c.

Definition afterHeal (c : Core) (oks : list bool) : list AccessKeyMetadata :=
  without (deletedIds inactive oks) (afterCore c).

(** The number of the first request of the self-healing. *)
Definition healClock (c : Core) : nat :=
  clock w + 1 + coreRequests listed c.

Definition path110Trace (p : Path110) : list Event :=
  match p with
  | ListFailed110 => [EvList user false]
  | Once110 c => EvList user true :: coreTrace user listed (issued w) c
  | HealFailed110 c oks =>
      EvList user true
        :: coreTrace user listed (issued w) c ++ deletions user inactive oks
  | Twice110 c oks c2 =>
      EvList user true
        :: coreTrace user listed (issued w) c
           ++ deletions user inactive oks
           ++ coreTrace user listed (issued w + coreCreated c) c2
  end.

Definition path110Keys (p : Path110) : list AccessKeyMetadata :=
  match p with
  | ListFailed110 => listed
  | Once110 c => afterCore c
  | HealFailed110 c oks => afterHeal c oks
  | Twice110 c oks c2 =>
      coreKeys user listed (afterHeal c oks) (issued w + coreCreated c) c2
  end.

Definition path110Result (p : Path110) : Settled unit :=
  match p with
  | ListFailed110 => Rejected (ServiceFailure (clock w))
  | Once110 c => surfaced (coreResult this user (issued w) (clock w + 1) c)
  | HealFailed110 c oks =>
      match firstFalse oks with
      | Some j => Rejected (deleteError (iam this) (healClock c + j))
      | None => coreResult this user (issued w) (clock w + 1) c
      end
  | Twice110 c oks c2 =>
      surfaced (coreResult this user (issued w + coreCreated c)
                  (healClock c + List.length inactive) c2)
  end.

Definition healValid (c : Core) (oks : list bool) : Prop :=
  coreValid this user listed listed (issued w) (clock w + 1) c /\
  coreHeals this user (issued w) (clock w + 1) c = true /\
  oks = batchOutcomes (iam this) (healClock c) (ids (afterCore c)) inactive /\
  List.length oks = List.length inactive.

Definition path110Valid (p : Path110) : Prop :=
  match p with
  | ListFailed110 => faults (iam this) (clock w) = true
  | Once110 c =>
      coreValid this user listed listed (issued w) (clock w + 1) c /\
      coreHeals this user (issued w) (clock w + 1) c = false
  | HealFailed110 c oks => healValid c oks /\ allOk oks = false
  | Twice110 c oks c2 =>
      healValid c oks /\ allOk oks = true /\
      coreValid this user listed (afterHeal c oks)
        (issued w + coreCreated c) (healClock c + List.length inactive) c2
  end.
End Path110Of.

Definition created110 (p : Path110) : nat :=
  match p with
  | ListFailed110 => 0
  | Once110 c | HealFailed110 c _ => coreCreated c
  | Twice110 c _ c2 => coreCreated c + coreCreated c2
  end.

(* ----------------------------------------------------------------- *)
(** *** Reading the journal *)

(** The user a request was made for ([UserName] of its parameters); the
    call of the handler is no request. *)
Definition eventUser (ev : Event) : option string :=
  match ev with
  | EvList u _ | EvCreate u _ | EvDelete u _ _ => Some u
  | EvHandle _ _ => None
  end.

Definition isHandle (ev : Event) : bool :=
  match ev with EvHandle _ _ => true | _ => false end.

Definition isDelete (ev : Event) : bool :=
  match ev with EvDelete _ _ _ => true | _ => false end.

(** In the journal [tr], every request to delete the key [id] of [user]
    comes after a call of the handler that accepted a key. *)
Definition deletedAfterAccept (user : string) (id : accessKeyIdType)
    (tr : list Event) : Prop :=
  forall pre ok post,
    tr = pre ++ EvDelete user id ok :: post ->
    exists id', In (EvHandle id' true) pre.

(* ================================================================= *)
(** ** Basic facts *)

Lemma upd_same f u ks : upd f u ks u = ks.
Proof. unfold upd. now rewrite String.eqb_refl. Qed.

Lemma upd_other f u u' ks : u <> u' -> upd f u ks u' = f u'.
Proof.
  intros H. unfold upd. destruct (String.eqb_spec u u'); [contradiction|reflexivity].
Qed.

Lemma trace_app w w' tr : journal w' = journal w ++ tr -> trace w w' = tr.
Proof.
  intros H. unfold trace. rewrite H.
  rewrite skipn_app, skipn_all, Nat.sub_diag. reflexivity.
Qed.

Lemma status_eqb_eq a b : status_eqb a b = true <-> a = b.
Proof. destruct a, b; simpl; split; congruence. Qed.

Lemma isInactive_true k : isInactive k = true <-> Status k = INACTIVE.
Proof. apply status_eqb_eq. Qed.

Lemma same_id_same_key (l : list AccessKeyMetadata) k k' :
  NoDup (ids l) -> In k l -> In k' l -> AccessKeyId k = AccessKeyId k' -> k = k'.
Proof.
  unfold ids. induction l as [|a l IH]; simpl; [tauto|].
  intros Hnd [->|Hk] [->|Hk'] Heq; inversion Hnd as [|? ? Hnot Hnd']; subst.
  - reflexivity.
  - exfalso. apply Hnot. rewrite Heq. now apply in_map.
  - exfalso. apply Hnot. rewrite <- Heq. now apply in_map.
  - now apply IH.
Qed.

(* ----------------------------------------------------------------- *)
(** *** [without] *)

Lemma without_nil ks : without [] ks = ks.
Proof.
  unfold without. induction ks as [|k ks IH]; simpl; [reflexivity|].
  f_equal. exact IH.
Qed.

Lemma filter_filter {A} (f g : A -> bool) (l : list A) :
  filter g (filter f l) = filter (fun x => f x && g x) l.
Proof.
  induction l as [|a l IH]; simpl; [reflexivity|].
  destruct (f a) eqn:Ef; simpl; [|exact IH].
  destruct (g a); simpl; congruence.
Qed.

Lemma without_without D1 D2 ks :
  without D2 (without D1 ks) = without (D1 ++ D2) ks.
Proof.
  unfold without. rewrite filter_filter. apply filter_ext. intros k.
  now rewrite existsb_app, negb_orb.
Qed.

Lemma in_without D ks k :
  In k (without D ks) <-> In k ks /\ ~ In (AccessKeyId k) D.
Proof.
  unfold without. rewrite filter_In, negb_true_iff.
  split; intros [Hin H]; split; trivial.
  - intros HD. assert (existsb (Nat.eqb (AccessKeyId k)) D = true); [|congruence].
    apply existsb_exists. exists (AccessKeyId k). split; [exact HD|apply Nat.eqb_refl].
  - destruct (existsb (Nat.eqb (AccessKeyId k)) D) eqn:E; [|reflexivity].
    apply existsb_exists in E. destruct E as [x [Hx Hxe]].
    apply Nat.eqb_eq in Hxe. subst x. contradiction.
Qed.

Lemma without_app D ks ks' :
  without D (ks ++ ks') = without D ks ++ without D ks'.
Proof. unfold without. apply filter_app. Qed.

Lemma without_all D ks :
  (forall k, In k ks -> In (AccessKeyId k) D) -> without D ks = [].
Proof.
  intros H. destruct (without D ks) as [|k l] eqn:E; [reflexivity|].
  assert (Hk : In k (without D ks)) by (rewrite E; now left).
  apply in_without in Hk. destruct Hk as [Hin Hn]. elim Hn. now apply H.
Qed.

Lemma without_none D ks :
  (forall k, In k ks -> ~ In (AccessKeyId k) D) -> without D ks = ks.
Proof.
  intros H. unfold without. induction ks as [|k ks IH]; simpl; [reflexivity|].
  destruct (existsb (Nat.eqb (AccessKeyId k)) D) eqn:E.
  - apply existsb_exists in E. destruct E as [x [Hx Hxe]].
    apply Nat.eqb_eq in Hxe. subst x. elim (H k); [now left|exact Hx].
  - simpl. rewrite IH; [reflexivity|]. intros k' Hk'. apply H. now right.
Qed.

Lemma without_single id ks :
  filter (fun k => negb (hasId id k)) ks = without [id] ks.
Proof.
  unfold without, hasId. apply filter_ext. intros k. simpl.
  now rewrite orb_false_r.
Qed.

Lemma without_absent id ks :
  existsb (hasId id) ks = false -> without [id] ks = ks.
Proof.
  intros H. apply without_none. intros k Hk [Hid|[]].
  assert (existsb (hasId id) ks = true); [|congruence].
  apply existsb_exists. exists k. split; [exact Hk|].
  unfold hasId. rewrite Hid. apply Nat.eqb_refl.
Qed.

Lemma length_without D ks : List.length (without D ks) <= List.length ks.
Proof. unfold without. apply filter_length_le. Qed.

Lemma NoDup_ids_without D ks : NoDup (ids ks) -> NoDup (ids (without D ks)).
Proof.
  unfold ids, without. induction ks as [|k ks IH]; simpl; intros Hnd; [constructor|].
  inversion Hnd as [|? ? Hnot Hnd']; subst.
  destruct (negb _); simpl; [|now apply IH].
  constructor; [|now apply IH].
  intros Hin. apply Hnot. apply in_map_iff in Hin.
  destruct Hin as [k' [Hid Hk']]. apply filter_In in Hk'.
  rewrite <- Hid. apply in_map. tauto.
Qed.

(* ----------------------------------------------------------------- *)
(** *** Promises *)

Lemma forEach_ext {A B} (f g : A -> Promise B) l :
  (forall a w, f a w = g a w) -> forall w, forEach l f w = forEach l g w.
Proof.
  intros H. induction l as [|a l IH]; intros w; simpl; [reflexivity|].
  rewrite H. destruct (g a w) as [s w1]. now rewrite IH.
Qed.

Lemma forEach_length {A B} (f : A -> Promise B) l :
  forall w ss w', forEach l f w = (ss, w') -> List.length ss = List.length l.
Proof.
  induction l as [|a l IH]; simpl; intros w ss w' H.
  - now inversion H.
  - destruct (f a w) as [s w1]. destruct (forEach l f w1) as [ss' w2] eqn:E.
    inversion H; subst. simpl. f_equal. eapply IH. eassumption.
Qed.

Lemma all_settled_allOk {A} (ss : list (Settled A)) :
  allOk (map okOf ss) = true <-> exists vs, all_settled ss = Resolved vs.
Proof.
  induction ss as [|[a|e] ss IH]; simpl.
  - split; [eauto|reflexivity].
  - rewrite IH. split; intros [vs H].
    + rewrite H. eauto.
    + destruct (all_settled ss); [eauto|discriminate].
  - split; [discriminate|intros [vs H]; discriminate].
Qed.

Lemma allOk_false_in oks : allOk oks = false <-> In false oks.
Proof.
  unfold allOk. induction oks as [|[|] oks IH]; simpl.
  - split; [discriminate|tauto].
  - rewrite IH. split; [tauto|]. intros [H|H]; [discriminate|exact H].
  - split; [auto|reflexivity].
Qed.

(* ----------------------------------------------------------------- *)
(** *** The requests *)

Lemma listAccessKeys_spec i user w r w' :
  listAccessKeys i user w = (r, w') ->
  w' = request (EvList user (okOf r)) w /\
  match r with
  | Resolved listed => listed = keys w user /\ faults i (clock w) = false
  | Rejected e => e = ServiceFailure (clock w) /\ faults i (clock w) = true
  end.
Proof.
  unfold listAccessKeys. destruct (faults i (clock w)); intros H;
    inversion H; subst; simpl; auto.
Qed.

Lemma createAccessKey_spec i user w r w' :
  createAccessKey i user w = (r, w') ->
  match r with
  | Resolved key =>
      key = mkKey user (issued w) Active EmptyString /\
      faults i (clock w) = false /\
      List.length (keys w user) < maxKeys /\
      w' = mkWorld (upd (keys w) user (keys w user ++ [asMetadata key]))
                   (S (issued w)) (S (clock w))
                   (journal w ++ [EvCreate user (Some (issued w))])
  | Rejected e =>
      w' = request (EvCreate user None) w /\
      e = createError i (clock w) /\
      (faults i (clock w) = true \/ maxKeys <= List.length (keys w user))
  end.
Proof.
  unfold createAccessKey, createError. destruct (faults i (clock w)); intros H.
  - inversion H; subst; simpl; auto.
  - destruct (Nat.leb_spec maxKeys (List.length (keys w user)));
      inversion H; subst; simpl; auto.
Qed.

Lemma deleteAccessKey_spec i user id w r w' :
  deleteAccessKey i user id w = (r, w') ->
  journal w' = journal w ++ [EvDelete user id (okOf r)] /\
  issued w' = issued w /\
  clock w' = S (clock w) /\
  (forall u, u <> user -> keys w' u = keys w u) /\
  keys w' user = without (if okOf r then [id] else []) (keys w user) /\
  (forall e, r = Rejected e -> e = deleteError i (clock w)) /\
  (faults i (clock w) = false -> strictDelete i = false -> okOf r = true) /\
  (faults i (clock w) = false -> existsb (hasId id) (keys w user) = true ->
   okOf r = true).
Proof.
  unfold deleteAccessKey, deleteError.
  destruct (faults i (clock w)) eqn:Ef; intros H.
  { inversion H; subst; simpl. rewrite without_nil.
    repeat split; auto; try discriminate. intros e He. now inversion He. }
  destruct (existsb (hasId id) (keys w user)) eqn:Ex.
  { inversion H; subst; simpl. rewrite upd_same, without_single.
    repeat split; auto; try discriminate.
    intros u Hu. apply upd_other. congruence. }
  destruct (strictDelete i); inversion H; subst; simpl.
  - rewrite without_nil. repeat split; auto; try discriminate.
    intros e He. now inversion He.
  - rewrite (without_absent _ _ Ex). repeat split; auto; discriminate.
Qed.

(* ----------------------------------------------------------------- *)
(** *** A batch of deletions *)

Lemma deletedIds_cons k l ok oks :
  deletedIds (k :: l) (ok :: oks) =
  (if ok then [AccessKeyId k] else []) ++ deletedIds l oks.
Proof. unfold deletedIds, ids. simpl. now destruct ok. Qed.

Lemma deletedIds_incl l : forall oks x,
  In x (deletedIds l oks) -> In x (ids l).
Proof.
  induction l as [|k l IH]; intros [|ok oks] x; try (simpl; tauto).
  rewrite deletedIds_cons, in_app_iff. simpl. intros [H|H].
  - destruct ok; simpl in H; tauto.
  - right. eapply IH. exact H.
Qed.

Lemma deletedIds_allOk l : forall oks,
  List.length oks = List.length l -> allOk oks = true ->
  deletedIds l oks = ids l.
Proof.
  induction l as [|k l IH]; intros [|ok oks] Hlen Hok; try discriminate.
  - reflexivity.
  - rewrite deletedIds_cons. simpl in *. apply andb_true_iff in Hok.
    destruct Hok as [-> Hok]. simpl. f_equal. apply IH; [lia|exact Hok].
Qed.

Lemma deletedIds_in l : forall (oks : list bool) k,
  In (k, true) (combine l oks) -> In (AccessKeyId k) (deletedIds l oks).
Proof.
  induction l as [|a l IH]; intros [|ok oks] k; try (simpl; tauto).
  rewrite deletedIds_cons, in_app_iff. simpl. intros [H|H].
  - inversion H; subst. left. now left.
  - right. now apply IH.
Qed.

Lemma batch_spec i user l : forall w ss w',
  forEach l (fun k => deleteAccessKey i user (AccessKeyId k)) w = (ss, w') ->
  List.length (map okOf ss) = List.length l /\
  journal w' = journal w ++ deletions user l (map okOf ss) /\
  issued w' = issued w /\
  clock w' = clock w + List.length l /\
  (forall u, u <> user -> keys w' u = keys w u) /\
  keys w' user = without (deletedIds l (map okOf ss)) (keys w user) /\
  (forall e0, firstError ss e0 =
               match firstFalse (map okOf ss) with
               | Some j => deleteError i (clock w + j)
               | None => e0
               end).
Proof.
  intros w ss w' H. split.
  { rewrite length_map. eapply forEach_length. exact H. }
  revert w ss w' H.
  induction l as [|k l IH]; intros w ss w' H; simpl in H.
  - inversion H; subst. unfold deletions, deletedIds. simpl.
    rewrite app_nil_r, without_nil, Nat.add_0_r.
    repeat split; auto.
  - destruct (deleteAccessKey i user (AccessKeyId k) w) as [s w1] eqn:E1.
    destruct (forEach l _ w1) as [ss' w2] eqn:E2.
    inversion H; subst. clear H.
    apply deleteAccessKey_spec in E1.
    destruct E1 as (Hj1 & Hi1 & Hc1 & Ho1 & Hk1 & He1 & _).
    apply IH in E2. destruct E2 as (Hj2 & Hi2 & Hc2 & Ho2 & Hk2 & He2).
    repeat split.
    + rewrite Hj2, Hj1, <- app_assoc. reflexivity.
    + congruence.
    + rewrite Hc2, Hc1. simpl. lia.
    + intros u Hu. rewrite Ho2, Ho1; auto.
    + rewrite Hk2, Hk1, without_without. simpl map.
      now rewrite deletedIds_cons.
    + intros e0. destruct s as [a|e]; simpl.
      * specialize (He2 e0). unfold firstError in *. simpl.
        destruct (all_settled ss') as [vs|e'];
          destruct (firstFalse (map okOf ss')) as [j|]; simpl; subst;
          try reflexivity; rewrite Hc1; f_equal; lia.
      * unfold firstError. simpl. rewrite Nat.add_0_r. now apply He1.
Qed.

Lemma in_deletions user l oks ev :
  In ev (deletions user l oks) ->
  exists k ok, In (k, ok) (combine l oks) /\ ev = EvDelete user (AccessKeyId k) ok.
Proof.
  unfold deletions. rewrite in_map_iff. intros [[k ok] [He Hin]].
  exists k, ok. split; [exact Hin|now rewrite <- He].
Qed.


(* ================================================================= *)
(** ** The runs of [KeyRotator.rotateKeys] *)

Lemma deleteKey_eq this user k w :
  KeyRotator.deleteKey this user k w =
  deleteAccessKey (iam this) user (AccessKeyId k) w.
Proof.
  unfold KeyRotator.deleteKey, then_, resolve.
  now destruct (deleteAccessKey _ _ _ w) as [[[]|e] w1].
Qed.

Lemma deleteKeys_eq this user l filter w :
  KeyRotator.deleteKeys this user l filter w =
  let (ss, w') :=
    forEach (subset filter l)
      (fun k => deleteAccessKey (iam this) user (AccessKeyId k)) w in
  (match all_settled ss with
   | Resolved _ => Resolved tt
   | Rejected e => Rejected e
   end, w').
Proof.
  unfold KeyRotator.deleteKeys, Promise_all, then_, resolve, subset.
  destruct filter as [f|];
    rewrite (forEach_ext _ _ _ (deleteKey_eq this user));
    destruct (forEach _ _ w) as [ss w1]; now destruct (all_settled ss).
Qed.

(** Inversion of the promise combinators. *)
Lemma then_inv {A B} (p : Promise A) (f : A -> Promise B) w r w' :
  (p .then f) w = (r, w') ->
  (exists a w1, p w = (Resolved a, w1) /\ f a w1 = (r, w')) \/
  (exists e, p w = (Rejected e, w') /\ r = Rejected e).
Proof.
  unfold then_. destruct (p w) as [[a|e] w1]; intros H.
  - left. eauto.
  - right. inversion H; subst. eauto.
Qed.

Lemma catch_inv {A} (p : Promise A) (h : Error -> Promise A) w r w' :
  (p .catch h) w = (r, w') ->
  (exists a, p w = (Resolved a, w') /\ r = Resolved a) \/
  (exists e w1, p w = (Rejected e, w1) /\ h e w1 = (r, w')).
Proof.
  unfold catch_. destruct (p w) as [[a|e] w1]; intros H.
  - left. inversion H; subst. eauto.
  - right. eauto.
Qed.

Lemma resolve_inv {A} (a : A) w r w' :
  resolve a w = (r, w') -> r = Resolved a /\ w' = w.
Proof. unfold resolve. intros H; inversion H; auto. Qed.

Lemma reject_inv {A} e w (r : Settled A) w' :
  reject e w = (r, w') -> r = Rejected e /\ w' = w.
Proof. unfold reject. intros H; inversion H; auto. Qed.

Lemma callHandler_inv h key w r w' :
  callHandler h key w = (r, w') ->
  (h key = None /\ r = Resolved tt /\
   w' = record (EvHandle (keyAccessKeyId key) true) w) \/
  (exists f, h key = Some f /\ r = Rejected (failureError f) /\
   w' = record (EvHandle (keyAccessKeyId key) false) w).
Proof.
  unfold callHandler. destruct (h key) as [f|]; intros H;
    inversion H; subst; eauto.
Qed.

Lemma logging_inv {A} err (rest : Promise A) w r w' :
  logging err rest w = (r, w') ->
  (serialisable err = true /\ rest w = (r, w')) \/
  (serialisable err = false /\ r = Rejected TypeError /\ w' = w).
Proof.
  unfold logging. destruct (serialisable err); intros H; [now left|].
  right. apply reject_inv in H. tauto.
Qed.

(** The [.catch] of [rotateKeys]: it rejects with the error it caught, or
    with the [TypeError] of its log line. *)
Lemma surface_inv err w (r : Settled unit) w' :
  logging err (reject err) w = (r, w') ->
  r = Rejected (surface err) /\ w' = w.
Proof.
  unfold logging, surface. destruct (serialisable err); apply reject_inv.
Qed.

Lemma surface_serialisable err :
  serialisable err = true -> surface err = err.
Proof. unfold surface. now intros ->. Qed.

Lemma serialisable_surface err : serialisable (surface err) = true.
Proof. unfold surface. destruct (serialisable err) eqn:E; simpl; auto. Qed.

Lemma serialisable_createError i n : serialisable (createError i n) = true.
Proof. unfold createError. now destruct (faults i n). Qed.

Lemma serialisable_deleteError i n : serialisable (deleteError i n) = true.
Proof. unfold deleteError. now destruct (faults i n). Qed.

Lemma serialisable_handleError f :
  deletesKey f = true -> serialisable (handleError f) = true.
Proof.
  destruct f as [err|err|]; simpl; try discriminate.
  intros H. now rewrite H.
Qed.

Lemma serialisable_firstError i user l w ss w' e0 :
  forEach l (fun k => deleteAccessKey i user (AccessKeyId k)) w = (ss, w') ->
  serialisable e0 = true -> serialisable (firstError ss e0) = true.
Proof.
  intros H He. apply batch_spec in H.
  destruct H as (_ & _ & _ & _ & _ & _ & Hfe). rewrite Hfe.
  destruct (firstFalse (map okOf ss)); [apply serialisable_deleteError|exact He].
Qed.

Lemma serialisable_delete i user id w s w' e0 :
  deleteAccessKey i user id w = (s, w') ->
  serialisable e0 = true -> serialisable (firstError [s] e0) = true.
Proof.
  intros H He. apply deleteAccessKey_spec in H.
  destruct H as (_ & _ & _ & _ & _ & Herr & _). unfold firstError.
  destruct s as [a|e]; simpl; [exact He|].
  rewrite (Herr e eq_refl). apply serialisable_deleteError.
Qed.

Lemma serialisable_all_settled i user l w ss w' e :
  forEach l (fun k => deleteAccessKey i user (AccessKeyId k)) w = (ss, w') ->
  all_settled ss = Rejected e -> serialisable e = true.
Proof.
  intros H HA.
  pose proof (serialisable_firstError _ _ _ _ _ _ TypeError H eq_refl) as Hs.
  unfold firstError in Hs. now rewrite HA in Hs.
Qed.

Lemma deleteKeys_inv this user l filter w r w' :
  KeyRotator.deleteKeys this user l filter w = (r, w') ->
  exists ss,
    forEach (subset filter l)
      (fun k => deleteAccessKey (iam this) user (AccessKeyId k)) w = (ss, w') /\
    r = match all_settled ss with
        | Resolved _ => Resolved tt
        | Rejected e => Rejected e
        end.
Proof.
  rewrite deleteKeys_eq. destruct (forEach _ _ w) as [ss w1].
  intros H; inversion H; subst. eauto.
Qed.

Lemma selfHeal_inv this user l err w (r : Settled unit) w' :
  (KeyRotator.deleteKeys this user l (Some (fun key => isInactive key))
     .then (fun _ => reject err)) w = (r, w') ->
  exists ss,
    forEach (filter isInactive l)
      (fun k => deleteAccessKey (iam this) user (AccessKeyId k)) w = (ss, w') /\
    r = Rejected (firstError ss err).
Proof.
  intros H. unfold firstError.
  apply then_inv in H. destruct H as [(a & w1 & H1 & H)|(e & H1 & H)];
    apply deleteKeys_inv in H1; destruct H1 as (ss & HF & Hr); exists ss.
  - apply reject_inv in H. destruct H; subst. split; [exact HF|].
    destruct (all_settled ss); [reflexivity|discriminate].
  - split; [exact HF|]. subst r. destruct (all_settled ss); congruence.
Qed.

Lemma getExistingKeys_eq this user w :
  KeyRotator.getExistingKeys this user w = listAccessKeys (iam this) user w.
Proof.
  unfold KeyRotator.getExistingKeys, then_, resolve.
  now destruct (listAccessKeys _ _ w) as [[l|e] w1].
Qed.

Lemma createNewKey_eq this user w :
  KeyRotator.createNewKey this user w = createAccessKey (iam this) user w.
Proof.
  unfold KeyRotator.createNewKey, then_, resolve.
  now destruct (createAccessKey _ _ w) as [[k|e] w1].
Qed.

(** The three ways through [handleNewKey]: the handler accepts the key;
    its failure reaches the [.catch], whose callback deletes the key; or
    its failure escapes, or stops the callback at its log line, and no
    deletion is requested. *)
Lemma handleNewKey_inv this user key w r w' :
  KeyRotator.handleNewKey this user key w = (r, w') ->
  (newKeyHandler this key = None /\ r = Resolved tt /\
   w' = record (EvHandle (keyAccessKeyId key) true) w) \/
  (exists f s,
     newKeyHandler this key = Some f /\ deletesKey f = true /\
     deleteAccessKey (iam this) user (keyAccessKeyId key)
       (record (EvHandle (keyAccessKeyId key) false) w) = (s, w') /\
     r = Rejected (firstError [s] (handleError f))) \/
  (exists f,
     newKeyHandler this key = Some f /\ deletesKey f = false /\
     w' = record (EvHandle (keyAccessKeyId key) false) w /\
     r = Rejected (handleError f)).
Proof.
  unfold KeyRotator.handleNewKey, invoke. intros H.
  destruct (newKeyHandler this key) as [f|] eqn:Eh.
  - destruct (escapes f) eqn:Ef.
    + (* the failure escapes *)
      right. right. exists f. unfold callHandler in H. rewrite Eh in H.
      inversion H; subst.
      destruct f as [err|err|]; simpl in *; try discriminate; auto.
    + destruct f as [err|err|]; try discriminate.
      apply catch_inv in H. unfold callHandler in H. rewrite Eh in H.
      destruct H as [(a & H & _)|(e & w1 & H & HD)]; [discriminate|].
      inversion H; subst e w1. clear H. simpl failureError in HD.
      apply logging_inv in HD.
      destruct HD as [(Hs & HD)|(Hs & -> & ->)].
      * right. left. exists (Rejects err). simpl. rewrite Hs.
        apply then_inv in HD. rewrite deleteKey_eq in HD.
        simpl AccessKeyId in HD.
        destruct HD as [(a & w2 & HK & HR)|(e & HK & ->)].
        -- apply reject_inv in HR. destruct HR as [-> ->].
           exists (Resolved a). auto.
        -- exists (Rejected e). auto.
      * right. right. exists (Rejects err). simpl. rewrite Hs. auto.
  - left. apply catch_inv in H. unfold callHandler in H. rewrite Eh in H.
    destruct H as [(a & H & ->)|(e & w1 & H & _)]; [|discriminate].
    inversion H; subst. auto.
Qed.

Theorem rotateKeys_Run this user w r w' :
  KeyRotator.rotateKeys this user w = (r, w') -> Run this user w r w'.
Proof.
  unfold KeyRotator.rotateKeys. intros H.
  apply catch_inv in H.
  assert (H' : exists r0,
    (KeyRotator.getExistingKeys this user
       .then (fun keys => KeyRotator.performKeyRotation this user keys)) w
      = (r0, w') /\
    r = surfaced r0).
  { destruct H as [(a & H & ->)|(e & w1 & H & H1)]; [eauto|].
    apply surface_inv in H1. destruct H1; subst. eauto. }
  clear H. destruct H' as (r0 & H' & ->).
  apply then_inv in H'. rewrite getExistingKeys_eq in H'.
  destruct H' as [(listed & w1 & HL & H)|(e & HL & ->)].
  2:{ simpl. rewrite surface_serialisable; [now apply RunListFails|].
      apply listAccessKeys_spec in HL. destruct HL as (_ & -> & _).
      reflexivity. }
  unfold KeyRotator.performKeyRotation in H.
  apply catch_inv in H. destruct H as [(a & H & ->)|(e & w3 & H & HS)].
  - (* the chain resolved *)
    apply then_inv in H. destruct H as [(a2 & w4 & H & HD)|(e & _ & He)];
      [|discriminate].
    apply then_inv in H. rewrite createNewKey_eq in H.
    destruct H as [(key & w2 & HC & HH)|(e & _ & He)]; [|discriminate].
    apply handleNewKey_inv in HH.
    destruct HH as [(Hh & _ & ->)|[(f & s & _ & _ & _ & Hr)|(f & _ & _ & _ & Hr)]];
      try discriminate.
    apply deleteKeys_inv in HD. destruct HD as (ss & HF & Hr). simpl subset in HF.
    destruct (all_settled ss) as [vs|e] eqn:EA; [|discriminate].
    destruct a. eapply RunSucceeds; eassumption.
  - (* the chain rejected: clean-up *)
    apply selfHeal_inv in HS. destruct HS as (ss' & HF' & ->).
    simpl surfaced.
    apply then_inv in H. destruct H as [(a2 & w4 & H & HD)|(e2 & H & He)].
    + (* the deletion of the old keys rejected *)
      apply then_inv in H. rewrite createNewKey_eq in H.
      destruct H as [(key & w2 & HC & HH)|(e2 & _ & He)]; [|discriminate].
      apply handleNewKey_inv in HH.
      destruct HH as [(Hh & _ & ->)|[(f & s & _ & _ & _ & Hr)|(f & _ & _ & _ & Hr)]];
        try discriminate.
      apply deleteKeys_inv in HD. destruct HD as (ss & HF & Hr).
      simpl subset in HF.
      destruct (all_settled ss) as [vs|e0] eqn:EA; [discriminate|].
      inversion Hr; subst.
      rewrite surface_serialisable; [eapply RunCleanupFails; eassumption|].
      eapply serialisable_firstError; [eassumption|].
      exact (serialisable_all_settled _ _ _ _ _ _ _ HF EA).
    + inversion He; subst e2. clear He.
      apply then_inv in H. rewrite createNewKey_eq in H.
      destruct H as [(key & w2 & HC & HH)|(e2 & HC & He)].
      * apply handleNewKey_inv in HH.
        destruct HH as [(_ & Hr & _)
                       |[(f & s & Hh & Hd & HK & Hr)|(f & Hh & Hd & -> & Hr)]];
          [discriminate| |].
        -- (* the handler failed and the key was to be deleted *)
           inversion Hr; subst.
           rewrite surface_serialisable; [eapply RunHandlerFails; eassumption|].
           eapply serialisable_firstError; [eassumption|].
           eapply serialisable_delete; [eassumption|].
           now apply serialisable_handleError.
        -- (* the failure of the handler left the key *)
           inversion Hr; subst. eapply RunHandlerEscapes; eassumption.
      * (* the creation rejected *)
        inversion He; subst.
        rewrite surface_serialisable; [eapply RunCreateFails; eassumption|].
        eapply serialisable_firstError; [eassumption|].
        apply createAccessKey_spec in HC. destruct HC as (_ & -> & _).
        apply serialisable_createError.
Qed.

(* ----------------------------------------------------------------- *)
(** *** What the steps of a run leave behind *)

Lemma list_resolved i user w listed w1 :
  listAccessKeys i user w = (Resolved listed, w1) ->
  listed = keys w user /\ w1 = request (EvList user true) w /\
  faults i (clock w) = false.
Proof.
  intros H. apply listAccessKeys_spec in H. simpl in H. tauto.
Qed.

Lemma create_resolved i user w key w2 :
  createAccessKey i user w = (Resolved key, w2) ->
  key = mkKey user (issued w) Active EmptyString /\
  List.length (keys w user) < maxKeys /\
  journal w2 = journal w ++ [EvCreate user (Some (issued w))] /\
  issued w2 = S (issued w) /\ clock w2 = S (clock w) /\
  keys w2 user = keys w user ++ [mkMeta user (issued w) Active] /\
  (forall u, u <> user -> keys w2 u = keys w u).
Proof.
  intros H. apply createAccessKey_spec in H.
  destruct H as (-> & _ & Hlen & ->). simpl. rewrite upd_same.
  repeat split; auto. intros u Hu. apply upd_other. congruence.
Qed.

Lemma create_rejected i user w e w2 :
  createAccessKey i user w = (Rejected e, w2) ->
  w2 = request (EvCreate user None) w /\ e = createError i (clock w) /\
  (faults i (clock w) = true \/ maxKeys <= List.length (keys w user)).
Proof. intros H. now apply createAccessKey_spec in H. Qed.

Lemma fresh_id user w k :
  wellFormed user w -> In k (keys w user) -> AccessKeyId k <> issued w.
Proof.
  intros [_ Hlt] Hin. rewrite Forall_forall in Hlt.
  specialize (Hlt k Hin). lia.
Qed.

Lemma fresh_not_listed user w :
  wellFormed user w -> ~ In (issued w) (ids (keys w user)).
Proof.
  intros Hwf Hin. unfold ids in Hin. apply in_map_iff in Hin.
  destruct Hin as [k [Hid Hk]]. now apply (fresh_id user w k).
Qed.

Lemma firstFalse_allOk oks : firstFalse oks = None <-> allOk oks = true.
Proof.
  unfold allOk. induction oks as [|[|] oks IH]; simpl.
  - tauto.
  - rewrite <- IH. destruct (firstFalse oks); simpl; split; congruence.
  - split; discriminate.
Qed.

Lemma firstFalse_nth oks j :
  firstFalse oks = Some j ->
  nth_error oks j = Some false /\
  forall j', j' < j -> nth_error oks j' = Some true.
Proof.
  revert j. induction oks as [|[|] oks IH]; simpl; intros j H.
  - discriminate.
  - destruct (firstFalse oks) as [j0|]; [|discriminate].
    inversion H; subst. destruct (IH j0 eq_refl) as [Hn Hlt].
    split; [exact Hn|]. intros [|j'] Hj'; simpl; [reflexivity|].
    apply Hlt. lia.
  - inversion H; subst. split; [reflexivity|]. intros j' Hj'. lia.
Qed.

Lemma allOk_settled {A} (ss : list (Settled A)) e :
  all_settled ss = Rejected e -> allOk (map okOf ss) = false.
Proof.
  intros H. destruct (allOk (map okOf ss)) eqn:E; [|reflexivity].
  apply all_settled_allOk in E. destruct E as [vs E]. congruence.
Qed.

Lemma allOk_resolved {A} (ss : list (Settled A)) vs :
  all_settled ss = Resolved vs -> allOk (map okOf ss) = true.
Proof. intros H. apply all_settled_allOk. eauto. Qed.

(** Every run of [rotateKeys] takes one of the six paths, and the path
    tells its journal, the keys it leaves and its result. *)
Theorem rotateKeys_path this user w r w' :
  KeyRotator.rotateKeys this user w = (r, w') ->
  exists p,
    pathValid this user w p /\
    journal w' = journal w ++ pathTrace user w p /\
    keys w' user = pathKeys user w p /\
    (forall u, u <> user -> keys w' u = keys w u) /\
    r = pathResult this user w p /\
    issued w' = issued w + created p.
Proof.
  intros H. apply rotateKeys_Run in H.
  destruct H as
    [ e w1 HL
    | listed w1 e w2 ss w3 HL HC HD
    | listed w1 key w2 f s w3 ss w4 HL HC HH Hdel HK HD
    | listed w1 key w2 f ss w3 HL HC HH Hdel HD
    | listed w1 key w2 ss e w3 ss' w4 HL HC HH HD HA HD'
    | listed w1 key w2 ss vs w3 HL HC HH HD HA ].
  - (* list *)
    exists ListFailed. apply listAccessKeys_spec in HL.
    destruct HL as (-> & -> & Hf). simpl. rewrite Nat.add_0_r.
    repeat split; auto.
  - (* create *)
    apply list_resolved in HL. destruct HL as (-> & -> & Hf).
    apply create_rejected in HC. destruct HC as (-> & He & Hwhy).
    apply batch_spec in HD. destruct HD as (Hl & Hj & Hi & Hc & Ho & Hk & Hfe).
    exists (CreateFailed (map okOf ss)). simpl in *.
    repeat split; auto.
    + rewrite Nat.add_1_r. exact Hwhy.
    + rewrite Hj, <- !app_assoc. reflexivity.
    + rewrite Hfe. f_equal. destruct (firstFalse (map okOf ss)).
      * f_equal. lia.
      * subst e. f_equal. lia.
    + lia.
  - (* handler *)
    apply list_resolved in HL. destruct HL as (-> & -> & Hf).
    apply create_resolved in HC.
    destruct HC as (-> & Hlen & HjC & HiC & HcC & HkC & HoC).
    apply deleteAccessKey_spec in HK.
    destruct HK as (HjK & HiK & HcK & HoK & HkK & HeK & _).
    apply batch_spec in HD. destruct HD as (Hl & Hj & Hi & Hc & Ho & Hk & Hfe).
    exists (HandlerFailed (okOf s) (map okOf ss)). simpl in *.
    repeat split; auto.
    + eauto.
    + rewrite Hj, HjK, HjC, <- !app_assoc. reflexivity.
    + rewrite Hk, HkK, HkC. reflexivity.
    + intros u Hu. rewrite Ho, HoK, HoC; auto.
    + rewrite Hfe. f_equal. destruct (firstFalse (map okOf ss)).
      * f_equal. lia.
      * unfold handlerError. rewrite HH.
        rewrite (surface_serialisable _ (serialisable_handleError _ Hdel)).
        destruct s as [a|e]; simpl.
        -- reflexivity.
        -- unfold firstError. simpl. rewrite (HeK e eq_refl). f_equal. lia.
    + lia.
  - (* the failure of the handler left the key *)
    apply list_resolved in HL. destruct HL as (-> & -> & Hf).
    apply create_resolved in HC.
    destruct HC as (-> & Hlen & HjC & HiC & HcC & HkC & HoC).
    pose proof (serialisable_firstError _ _ _ _ _ _ TypeError HD eq_refl) as Hse.
    apply batch_spec in HD. destruct HD as (Hl & Hj & Hi & Hc & Ho & Hk & Hfe).
    exists (HandlerEscaped (map okOf ss)). simpl in *.
    repeat split; auto.
    + eauto.
    + rewrite Hj, HjC, <- !app_assoc. reflexivity.
    + rewrite Hk, HkC. reflexivity.
    + intros u Hu. rewrite Ho, HoC; auto.
    + rewrite Hfe in *. f_equal. destruct (firstFalse (map okOf ss)).
      * rewrite surface_serialisable by exact Hse. f_equal. lia.
      * unfold handlerError. now rewrite HH.
    + lia.
  - (* clean-up *)
    apply list_resolved in HL. destruct HL as (-> & -> & Hf).
    apply create_resolved in HC.
    destruct HC as (-> & Hlen & HjC & HiC & HcC & HkC & HoC).
    pose proof (allOk_settled _ _ HA) as Hno.
    apply batch_spec in HD. destruct HD as (Hl & Hj & Hi & Hc & Ho & Hk & Hfe).
    apply batch_spec in HD'.
    destruct HD' as (Hl' & Hj' & Hi' & Hc' & Ho' & Hk' & Hfe').
    exists (CleanupFailed (map okOf ss) (map okOf ss')). simpl in *.
    repeat split; auto.
    + rewrite Hj', Hj, HjC, <- !app_assoc. reflexivity.
    + rewrite Hk', Hk, HkC. reflexivity.
    + intros u Hu. rewrite Ho', Ho, HoC; auto.
    + rewrite Hfe'. f_equal. destruct (firstFalse (map okOf ss')).
      * f_equal. lia.
      * specialize (Hfe e). unfold firstError in Hfe. rewrite HA in Hfe.
        rewrite Hfe. destruct (firstFalse (map okOf ss)) eqn:EF.
        -- f_equal. lia.
        -- apply firstFalse_allOk in EF. congruence.
    + lia.
  - (* success *)
    apply list_resolved in HL. destruct HL as (-> & -> & Hf).
    apply create_resolved in HC.
    destruct HC as (-> & Hlen & HjC & HiC & HcC & HkC & HoC).
    pose proof (allOk_resolved _ _ HA) as Hyes.
    apply batch_spec in HD. destruct HD as (Hl & Hj & Hi & Hc & Ho & Hk & Hfe).
    exists (Succeeded (map okOf ss)). simpl in *.
    repeat split; auto.
    + rewrite Hj, HjC, <- !app_assoc. reflexivity.
    + rewrite Hk, HkC. reflexivity.
    + intros u Hu. rewrite Ho, HoC; auto.
    + lia.
Qed.

(* ================================================================= *)
(** ** The tests of [keyRotator.test.ts], run on the model *)

Section Tests.
Let rotator := mkKeyRotator mockIAM keyHandler.
Let outcome (r : KeyRotatorT) (ks : list AccessKeyMetadata) :=
  let (s, w') := KeyRotator.rotateKeys r testUser (worldWith ks) in
  (okOf s, keys w' testUser).

Example test_no_existing_keys :
  outcome rotator [] = (true, [createKey 0 Active]).
Proof. reflexivity. Qed.

Example test_1_active_key :
  outcome rotator [createKey 0 Active] = (true, [createKey 1 Active]).
Proof. reflexivity. Qed.

Example test_1_inactive_key :
  outcome rotator [createKey 0 Inactive] = (true, [createKey 1 Active]).
Proof. reflexivity. Qed.

Example test_1_active_and_1_inactive_key :
  outcome rotator [createKey 0 Inactive; createKey 1 Active]
  = (false, [createKey 1 Active]).
Proof. reflexivity. Qed.

Example test_2_inactive_keys :
  outcome rotator twoInactive = (false, []).
Proof. reflexivity. Qed.

Example test_2_active_keys :
  outcome rotator [createKey 0 Active; createKey 1 Active]
  = (false, [createKey 0 Active; createKey 1 Active]).
Proof. reflexivity. Qed.

Example test_error_getting_existing_keys :
  outcome (mkKeyRotator (failingFrom 0) keyHandler) [] = (false, []).
Proof. reflexivity. Qed.

Example test_error_deleting_a_key :
  outcome (mkKeyRotator (failingFrom 2) keyHandler) oneInactive
  = (false, [createKey 0 Inactive; createKey 1 Active]).
Proof. reflexivity. Qed.

Example test_error_creating_new_key :
  outcome (mkKeyRotator (mkIAM (fun n => n =? 1) false) keyHandler)
    [createKey 0 Active]
  = (false, [createKey 0 Active]).
Proof. reflexivity. Qed.

Example test_error_handling_new_key :
  outcome (mkKeyRotator mockIAM rejectingHandler) [createKey 0 Active]
  = (false, [createKey 0 Active]).
Proof. reflexivity. Qed.
End Tests.

(* ================================================================= *)
(** ** The delete-keys sub-operation *)

Lemma deleteKeys_spec this user K filter w r w' :
  KeyRotator.deleteKeys this user K filter w = (r, w') ->
  exists oks,
    List.length oks = List.length (subset filter K) /\
    journal w' = journal w ++ deletions user (subset filter K) oks /\
    keys w' user = without (deletedIds (subset filter K) oks) (keys w user) /\
    (forall u, u <> user -> keys w' u = keys w u) /\
    (allOk oks = true -> r = Resolved tt) /\
    (allOk oks = false -> exists e, r = Rejected e).
Proof.
  intros H. apply deleteKeys_inv in H. destruct H as (ss & HF & ->).
  apply batch_spec in HF. destruct HF as (Hl & Hj & _ & _ & Ho & Hk & _).
  exists (map okOf ss). repeat split; auto.
  - intros Hok. apply all_settled_allOk in Hok. destruct Hok as [vs ->].
    reflexivity.
  - intros Hno. destruct (all_settled ss) as [vs|e] eqn:E; [|eauto].
    apply allOk_resolved in E. congruence.
Qed.

(** C5.  For every key list [K] and optional predicate, [deleteKeys]
    requests the deletion of exactly the keys of [K] that match the
    predicate (all of [K] without a predicate), one request per key and
    nothing else; a key whose identifier is not among them, or that belongs
    to another user, is still there afterwards; and when no single deletion
    fails the operation resolves, and none of the matching keys is left. *)
Theorem deleteKeys_exact this user K filter w r w' :
  KeyRotator.deleteKeys this user K filter w = (r, w') ->
  let S := match filter with Some P => List.filter P K | None => K end in
  exists oks,
    List.length oks = List.length S /\
    trace w w' = deletions user S oks /\
    (forall u k, In k (keys w u) ->
       u <> user \/ ~ In (AccessKeyId k) (ids S) -> In k (keys w' u)) /\
    (allOk oks = true ->
       r = Resolved tt /\
       forall k, In k (keys w' user) -> ~ In (AccessKeyId k) (ids S)).
Proof.
  intros H S. apply deleteKeys_spec in H.
  destruct H as (oks & Hl & Hj & Hk & Ho & Hok & _).
  fold (subset filter K) in S. exists oks. repeat split.
  - exact Hl.
  - now apply trace_app.
  - intros u k Hin Hout. destruct (string_dec u user) as [->|Hu].
    + destruct Hout as [Hu|Hid]; [congruence|].
      rewrite Hk. apply in_without. split; [exact Hin|].
      intros Hd. apply Hid. eapply deletedIds_incl. exact Hd.
    + now rewrite Ho.
  - now apply Hok.
  - intros k Hin. rewrite Hk in Hin. apply in_without in Hin.
    rewrite (deletedIds_allOk _ _ Hl H) in Hin. tauto.
Qed.

Lemma deleteKeys_exact_witness :
  exists oks,
    List.length oks = 1 /\
    trace (worldWith [createKey 0 Inactive; createKey 1 Active])
          (snd (KeyRotator.deleteKeys (mkKeyRotator mockIAM keyHandler) testUser
                  [createKey 0 Inactive; createKey 1 Active]
                  (Some isInactive)
                  (worldWith [createKey 0 Inactive; createKey 1 Active])))
      = deletions testUser [createKey 0 Inactive] oks.
Proof.
  destruct (deleteKeys_exact (mkKeyRotator mockIAM keyHandler) testUser
              [createKey 0 Inactive; createKey 1 Active] (Some isInactive)
              (worldWith [createKey 0 Inactive; createKey 1 Active])
              _ _ eq_refl) as (oks & Hl & Ht & _).
  exists oks. split; [exact Hl|exact Ht].
Defined.

(** C6.  [deleteKeys] rejects whenever at least one of its deletions
    fails; the failure does not keep the other deletions of the batch from
    being requested, and the keys whose deletion succeeded are gone all the
    same.  With the first of two deletions failing, the second key is
    deleted and the operation rejects. *)
Theorem deleteKeys_partial this user K filter w r w' :
  KeyRotator.deleteKeys this user K filter w = (r, w') ->
  let S := match filter with Some P => List.filter P K | None => K end in
  (exists oks,
     List.length oks = List.length S /\
     trace w w' = deletions user S oks /\
     (In false oks -> exists e, r = Rejected e) /\
     (forall k, In (k, true) (combine S oks) ->
        ~ In (AccessKeyId k) (ids (keys w' user)))) /\
  (let failFirst := mkKeyRotator (mkIAM (fun n => n =? 0) false) keyHandler in
   let (r0, w0) :=
     KeyRotator.deleteKeys failFirst testUser twoInactive None
       (worldWith twoInactive) in
   r0 = Rejected (ServiceFailure 0) /\
   trace (worldWith twoInactive) w0 =
     [EvDelete testUser 0 false; EvDelete testUser 1 true] /\
   keys w0 testUser = [createKey 0 Inactive]).
Proof.
  intros H S. split; [|vm_compute; auto].
  apply deleteKeys_spec in H.
  destruct H as (oks & Hl & Hj & Hk & Ho & _ & Hno).
  fold (subset filter K) in S. exists oks. repeat split.
  - exact Hl.
  - now apply trace_app.
  - intros Hin. apply Hno. now apply allOk_false_in.
  - intros k Hin Hleft. unfold ids in Hleft. apply in_map_iff in Hleft.
    destruct Hleft as (k' & Hid & Hk'). rewrite Hk in Hk'.
    apply in_without in Hk'. destruct Hk' as [_ Hn]. apply Hn.
    rewrite Hid. now apply deletedIds_in.
Qed.

Lemma deleteKeys_partial_witness :
  exists oks,
    trace (worldWith twoInactive)
          (snd (KeyRotator.deleteKeys
                  (mkKeyRotator (mkIAM (fun n => n =? 0) false) keyHandler)
                  testUser twoInactive None (worldWith twoInactive)))
      = deletions testUser twoInactive oks /\
    In false oks.
Proof.
  destruct (deleteKeys_partial
              (mkKeyRotator (mkIAM (fun n => n =? 0) false) keyHandler)
              testUser twoInactive None (worldWith twoInactive) _ _ eq_refl)
    as [(oks & Hl & Ht & _) _].
  exists oks. split; [exact Ht|].
  destruct oks as [|[|] [|b [|c oks]]]; try discriminate; simpl; auto.
Defined.

(* ================================================================= *)
(** ** A successful run *)

Lemma succeeded_only this user w p :
  pathResult this user w p = Resolved tt -> exists oks, p = Succeeded oks.
Proof. destruct p; simpl; intros H; try discriminate. eauto. Qed.

Lemma success_keys user w oks :
  wellFormed user w ->
  List.length oks = List.length (keys w user) -> allOk oks = true ->
  pathKeys user w (Succeeded oks) = [mkMeta user (issued w) Active].
Proof.
  intros Hwf Hl Hok. unfold pathKeys. rewrite (deletedIds_allOk _ _ Hl Hok).
  rewrite without_app, without_all.
  - rewrite app_nil_l. apply without_none. intros k [<-|[]].
    cbn [AccessKeyId]. now apply fresh_not_listed.
  - intros k Hk. unfold ids. now apply in_map.
Qed.

(** C1.  When [rotateKeys] resolves, the user has exactly one key: the
    key created in this run, which is active; none of the keys listed at
    the start is left.  And with no key at the start, a service that
    answers and a handler that accepts, the run resolves and leaves exactly
    that one active key. *)
Theorem rotateKeys_success this user w :
  wellFormed user w ->
  (forall w', KeyRotator.rotateKeys this user w = (Resolved tt, w') ->
     keys w' user = [mkMeta user (issued w) ACTIVE] /\
     In (EvCreate user (Some (issued w))) (trace w w') /\
     forall k, In k (keys w user) ->
       ~ In k (keys w' user) /\ ~ In (AccessKeyId k) (ids (keys w' user))) /\
  (keys w user = [] -> noFaults (iam this) ->
   (forall key, newKeyHandler this key = None) ->
   exists w', KeyRotator.rotateKeys this user w = (Resolved tt, w') /\
              keys w' user = [mkMeta user (issued w) ACTIVE]).
Proof.
  intros Hwf.
  assert (Hone : forall w',
    KeyRotator.rotateKeys this user w = (Resolved tt, w') ->
    keys w' user = [mkMeta user (issued w) ACTIVE] /\
    In (EvCreate user (Some (issued w))) (trace w w')).
  { intros w' H. apply rotateKeys_path in H.
    destruct H as (p & Hv & Hj & Hk & _ & Hr & _).
    symmetry in Hr. apply succeeded_only in Hr. destruct Hr as [oks ->].
    destruct Hv as (Hl & Hok & _). split.
    - rewrite Hk. now apply success_keys.
    - rewrite (trace_app _ _ _ Hj). simpl. auto. }
  split.
  - intros w' H. destruct (Hone w' H) as [Hk Ht]. repeat split; trivial.
    + rewrite Hk. intros [<-|[]]. now apply (fresh_id user w _ Hwf H0).
    + rewrite Hk. simpl. intros [Hid|[]].
      now apply (fresh_id user w k Hwf H0).
  - intros Hempty Hnf Hh.
    destruct (KeyRotator.rotateKeys this user w) as [r w'] eqn:E.
    pose proof (rotateKeys_path _ _ _ _ _ E) as (p & Hv & _ & _ & _ & Hr & _).
    assert (r = Resolved tt) as ->.
    { subst r. destruct p; simpl in *.
      - rewrite Hnf in Hv. discriminate.
      - destruct Hv as (_ & [Hf|Hlim]).
        + rewrite Hnf in Hf. discriminate.
        + rewrite Hempty in Hlim. unfold maxKeys in Hlim. simpl in Hlim. lia.
      - destruct Hv as (_ & _ & f & Hf & _). rewrite Hh in Hf. discriminate.
      - destruct Hv as (Hl & _ & Hok & _). rewrite Hempty in Hl.
        destruct oks; [discriminate|discriminate].
      - reflexivity.
      - destruct Hv as (_ & _ & f & Hf & _). rewrite Hh in Hf. discriminate. }
    exists w'. split; [reflexivity|]. now apply Hone.
Qed.

Lemma rotateKeys_success_witness :
  wellFormed testUser (worldWith [createKey 0 Active]) /\
  keys (snd (KeyRotator.rotateKeys (mkKeyRotator mockIAM keyHandler) testUser
               (worldWith [createKey 0 Active]))) testUser
  = [mkMeta testUser 1 ACTIVE].
Proof.
  assert (Hwf : wellFormed testUser (worldWith [createKey 0 Active])).
  { split; simpl.
    - constructor; [simpl; tauto|constructor].
    - repeat constructor. }
  split; [exact Hwf|].
  exact (proj1 (proj1 (rotateKeys_success (mkKeyRotator mockIAM keyHandler)
                         testUser _ Hwf) _ eq_refl)).
Defined.

(* ================================================================= *)
(** ** At the limit with one active and one inactive key *)

Lemma delete_present_ok i user k w s w' :
  noFaults i -> In k (keys w user) ->
  deleteAccessKey i user (AccessKeyId k) w = (s, w') -> okOf s = true.
Proof.
  intros Hnf Hin H. apply deleteAccessKey_spec in H.
  destruct H as (_ & _ & _ & _ & _ & _ & _ & Hok). apply Hok; [apply Hnf|].
  apply existsb_exists. exists k. split; [exact Hin|].
  unfold hasId. apply Nat.eqb_refl.
Qed.

Lemma without_pair_second ka ki :
  AccessKeyId ka <> AccessKeyId ki -> without [AccessKeyId ki] [ka; ki] = [ka].
Proof.
  intros Hne. unfold without. cbn [filter existsb].
  rewrite Nat.eqb_refl. apply Nat.eqb_neq in Hne. rewrite Hne. reflexivity.
Qed.

Lemma without_pair_first ka ki :
  AccessKeyId ka <> AccessKeyId ki -> without [AccessKeyId ki] [ki; ka] = [ka].
Proof.
  intros Hne. unfold without. cbn [filter existsb].
  rewrite Nat.eqb_refl. apply Nat.eqb_neq in Hne. rewrite Hne. reflexivity.
Qed.

(** C3.  With exactly two keys, one active and one inactive, and a
    service that answers (and so refuses a third key), [rotateKeys]
    rejects with the refusal of the creation; it has deleted the inactive
    key, the active key is there unchanged, and no key was created. *)
Theorem rotateKeys_at_limit this user w ka ki :
  noFaults (iam this) ->
  Status ka = ACTIVE -> Status ki = INACTIVE ->
  AccessKeyId ka <> AccessKeyId ki ->
  keys w user = [ka; ki] \/ keys w user = [ki; ka] ->
  exists w',
    KeyRotator.rotateKeys this user w
      = (Rejected (LimitExceeded (clock w + 1)), w') /\
    keys w' user = [ka] /\
    trace w w' = [EvList user true; EvCreate user None;
                  EvDelete user (AccessKeyId ki) true].
Proof.
  intros Hnf Ha Hi Hne Hkeys.
  assert (Hinact : filter isInactive (keys w user) = [ki]).
  { unfold isInactive. destruct Hkeys as [-> | ->]; cbn [filter];
      rewrite Ha, Hi; reflexivity. }
  assert (Hlen : List.length (keys w user) = 2).
  { destruct Hkeys as [-> | ->]; reflexivity. }
  destruct (KeyRotator.rotateKeys this user w) as [r w'] eqn:E.
  exists w'. apply rotateKeys_Run in E.
  destruct E as
    [ e w1 HL
    | listed w1 e w2 ss w3 HL HC HD
    | listed w1 key w2 f s w3 ss w4 HL HC HH Hdel HK HD
    | listed w1 key w2 f ss w3 HL HC HH Hdel HD
    | listed w1 key w2 ss e w3 ss' w4 HL HC HH HD HA HD'
    | listed w1 key w2 ss vs w3 HL HC HH HD HA ].
  - apply listAccessKeys_spec in HL. destruct HL as (_ & _ & Hf).
    rewrite Hnf in Hf. discriminate.
  - apply list_resolved in HL. destruct HL as (-> & -> & _).
    apply create_rejected in HC. destruct HC as (-> & -> & _).
    rewrite Hinact in HD. cbn [forEach] in HD.
    destruct (deleteAccessKey _ _ _ _) as [s w4] eqn:EK.
    inversion HD; subst ss w3. clear HD.
    assert (Hok : okOf s = true).
    { eapply delete_present_ok; [exact Hnf| |exact EK]. simpl.
      destruct Hkeys as [-> | ->]; simpl; auto. }
    apply deleteAccessKey_spec in EK.
    destruct EK as (Hj & _ & _ & _ & Hk & _).
    rewrite Hok in Hj, Hk. simpl in Hj, Hk.
    destruct s as [a|e]; [|discriminate]. repeat split.
    + unfold firstError, createError. simpl. rewrite Hnf.
      now rewrite Nat.add_1_r.
    + rewrite Hk. destruct Hkeys as [-> | ->];
        [now apply without_pair_second|now apply without_pair_first].
    + apply trace_app. rewrite Hj, <- !app_assoc. reflexivity.
  - apply list_resolved in HL. destruct HL as (-> & -> & _).
    apply create_resolved in HC. destruct HC as (_ & Hlt & _).
    simpl in Hlt. unfold maxKeys in Hlt. lia.
  - apply list_resolved in HL. destruct HL as (-> & -> & _).
    apply create_resolved in HC. destruct HC as (_ & Hlt & _).
    simpl in Hlt. unfold maxKeys in Hlt. lia.
  - apply list_resolved in HL. destruct HL as (-> & -> & _).
    apply create_resolved in HC. destruct HC as (_ & Hlt & _).
    simpl in Hlt. unfold maxKeys in Hlt. lia.
  - apply list_resolved in HL. destruct HL as (-> & -> & _).
    apply create_resolved in HC. destruct HC as (_ & Hlt & _).
    simpl in Hlt. unfold maxKeys in Hlt. lia.
Qed.

Lemma rotateKeys_at_limit_witness :
  exists w',
    KeyRotator.rotateKeys (mkKeyRotator mockIAM keyHandler) testUser
      (worldWith [createKey 0 Inactive; createKey 1 Active])
      = (Rejected (LimitExceeded 1), w') /\
    keys w' testUser = [createKey 1 Active].
Proof.
  destruct (rotateKeys_at_limit (mkKeyRotator mockIAM keyHandler) testUser
              (worldWith [createKey 0 Inactive; createKey 1 Active])
              (createKey 1 Active) (createKey 0 Inactive))
    as (w' & Hr & Hk & _).
  - intros n. reflexivity.
  - reflexivity.
  - reflexivity.
  - simpl. lia.
  - right. reflexivity.
  - exists w'. split; [exact Hr|exact Hk].
Defined.

(* ================================================================= *)
(** ** Self-healing *)

Lemma path_trace this user w r w' :
  KeyRotator.rotateKeys this user w = (r, w') ->
  exists p,
    pathValid this user w p /\
    trace w w' = pathTrace user w p /\
    keys w' user = pathKeys user w p /\
    r = pathResult this user w p /\
    issued w' = issued w + created p.
Proof.
  intros H. apply rotateKeys_path in H.
  destruct H as (p & Hv & Hj & Hk & _ & Hr & Hi).
  exists p. repeat split; auto. now apply trace_app.
Qed.

Lemma create_refused_path user w p rest :
  pathTrace user w p = EvList user true :: EvCreate user None :: rest ->
  exists oks,
    p = CreateFailed oks /\
    rest = deletions user (filter isInactive (keys w user)) oks.
Proof.
  destruct p; simpl; intros H; inversion H; subst; eauto.
Qed.

Lemma deletions_no_create user l oks :
  filter isCreate (deletions user l oks) = [].
Proof.
  unfold deletions. induction (combine l oks) as [|x c IH]; simpl; auto.
Qed.

Lemma in_deletions_id user l oks id ok :
  In (EvDelete user id ok) (deletions user l oks) ->
  exists k, In k l /\ AccessKeyId k = id.
Proof.
  intros H. apply in_deletions in H. destruct H as (k & ok' & Hin & He).
  inversion He; subst. exists k. split; [|reflexivity].
  eapply in_combine_l. exact Hin.
Qed.

Lemma active_not_inactive user w k :
  wellFormed user w -> In k (keys w user) -> Status k = ACTIVE ->
  ~ In (AccessKeyId k) (ids (filter isInactive (keys w user))).
Proof.
  intros [Hnd _] Hin Hact Hid. unfold ids in Hid. apply in_map_iff in Hid.
  destruct Hid as (k' & Hid & Hk'). apply filter_In in Hk'.
  destruct Hk' as [Hk' Hi]. apply isInactive_true in Hi.
  assert (k' = k) by (eapply same_id_same_key; eassumption).
  subst k'. rewrite Hact in Hi. discriminate.
Qed.

Lemma active_survives_cleanup user w k oks ks :
  wellFormed user w -> In k (keys w user) -> Status k = ACTIVE ->
  In k ks ->
  In k (without (deletedIds (filter isInactive (keys w user)) oks) ks).
Proof.
  intros Hwf Hin Hact Hks. apply in_without. split; [exact Hks|].
  intros Hd. apply deletedIds_incl in Hd.
  now apply (active_not_inactive user w k).
Qed.

(** The specification's step 2 fails on the run of the test
    ['2 inactive keys']: the creation is refused, both keys are deleted,
    and the run ends there. *)
Lemma rotateKeys_no_retry :
  ~ retriesCreationOnce KeyRotator.rotateKeys
      (mkKeyRotator mockIAM keyHandler) testUser (worldWith twoInactive).
Proof.
  intros H.
  destruct (H _ _ [EvDelete testUser 0 true; EvDelete testUser 1 true]
              eq_refl eq_refl) as (oks & rest' & Hl & Hrest & Hretry).
  destruct oks as [|a [|b [|c oks]]]; try discriminate Hl.
  unfold deletions in Hrest. simpl in Hrest.
  inversion Hrest as [[Ha Hb Hnil]]. subst a b.
  destruct (Hretry eq_refl) as (c & rest'' & Hc & _).
  rewrite Hc in Hnil. discriminate.
Qed.

(** C2, as the code has it.  When the first creation is refused,
    [rotateKeys] requests the deletion of exactly the listed inactive keys
    and nothing after that: the creation is requested once in the whole
    run, the run rejects (with the error of the creation when every
    deletion succeeded), and every listed active key is still there. *)
Theorem selfHeal_without_retry this user w r w' rest :
  wellFormed user w ->
  KeyRotator.rotateKeys this user w = (r, w') ->
  trace w w' = EvList user true :: EvCreate user None :: rest ->
  exists oks,
    List.length oks = List.length (filter isInactive (keys w user)) /\
    rest = deletions user (filter isInactive (keys w user)) oks /\
    List.length (filter isCreate (trace w w')) = 1 /\
    (exists e, r = Rejected e) /\
    (allOk oks = true ->
     r = Rejected (createError (iam this) (clock w + 1))) /\
    (forall k, In k (keys w user) -> Status k = ACTIVE ->
               In k (keys w' user)).
Proof.
  intros Hwf H Ht. apply path_trace in H.
  destruct H as (p & Hv & Htr & Hk & Hr & _).
  rewrite Htr in Ht. apply create_refused_path in Ht.
  destruct Ht as (oks & -> & ->). destruct Hv as (Hl & _).
  exists oks. repeat split; auto.
  - rewrite Htr. simpl. now rewrite deletions_no_create.
  - subst r. simpl. eauto.
  - intros Hok. subst r. simpl. apply firstFalse_allOk in Hok.
    now rewrite Hok.
  - intros k Hin Hact. rewrite Hk. simpl.
    now apply active_survives_cleanup.
Qed.

Lemma wellFormed_worldWith_two a b :
  wellFormed testUser (worldWith [createKey 0 a; createKey 1 b]).
Proof.
  split; simpl.
  - constructor; [simpl; intros [H|[]]; discriminate|].
    constructor; [simpl; tauto|constructor].
  - repeat constructor.
Qed.

Lemma selfHeal_without_retry_witness :
  exists oks,
    [EvDelete testUser 0 true; EvDelete testUser 1 true]
      = deletions testUser twoInactive oks /\
    List.length oks = 2.
Proof.
  destruct (selfHeal_without_retry (mkKeyRotator mockIAM keyHandler) testUser
              (worldWith twoInactive) _ _
              [EvDelete testUser 0 true; EvDelete testUser 1 true]
              (wellFormed_worldWith_two Inactive Inactive) eq_refl eq_refl)
    as (oks & Hl & Hrest & _).
  exists oks. split; [exact Hrest|exact Hl].
Defined.

Lemma nth_error_deletions user l : forall oks j b,
  List.length oks = List.length l ->
  nth_error oks j = Some b ->
  exists k, nth_error l j = Some k /\
            nth_error (deletions user l oks) j
              = Some (EvDelete user (AccessKeyId k) b).
Proof.
  unfold deletions.
  induction l as [|a l IH]; intros [|ok oks] j b Hl Hn;
    try discriminate; try (destruct j; discriminate).
  destruct j as [|j]; simpl in *.
  - inversion Hn; subst. eauto.
  - apply IH; [lia|exact Hn].
Qed.

Lemma in_deletions_false user l oks id :
  In (EvDelete user id false) (deletions user l oks) -> allOk oks = false.
Proof.
  intros H. apply in_deletions in H. destruct H as (k & ok & Hin & He).
  inversion He; subst. apply allOk_false_in. eapply in_combine_r. exact Hin.
Qed.

Lemma deleteError_not_createError i n m :
  n <> m -> deleteError i n <> createError i m.
Proof.
  unfold deleteError, createError. intros Hne.
  destruct (faults i n), (faults i m); intros H; inversion H; contradiction.
Qed.

(** C7.  When a deletion of the self-healing fails, [rotateKeys] rejects
    with the error of the first failed deletion, which is not the error of
    the refused creation, and the creation is not requested again. *)
Theorem selfHeal_deletion_error this user w r w' rest :
  KeyRotator.rotateKeys this user w = (r, w') ->
  trace w w' = EvList user true :: EvCreate user None :: rest ->
  (exists id, In (EvDelete user id false) rest) ->
  exists j id,
    nth_error rest j = Some (EvDelete user id false) /\
    r = Rejected (deleteError (iam this) (clock w + 2 + j)) /\
    r <> Rejected (createError (iam this) (clock w + 1)) /\
    List.length (filter isCreate (trace w w')) = 1.
Proof.
  intros H Ht [id Hfail]. apply path_trace in H.
  destruct H as (p & Hv & Htr & _ & Hr & _).
  rewrite Htr in Ht. apply create_refused_path in Ht.
  destruct Ht as (oks & -> & ->). destruct Hv as (Hl & _).
  apply in_deletions_false in Hfail.
  destruct (firstFalse oks) as [j|] eqn:EF.
  2:{ apply firstFalse_allOk in EF. congruence. }
  destruct (firstFalse_nth _ _ EF) as [Hn _].
  destruct (nth_error_deletions user _ _ _ _ Hl Hn) as (k & _ & Hev).
  exists j, (AccessKeyId k). repeat split.
  - exact Hev.
  - subst r. simpl. now rewrite EF.
  - subst r. simpl. rewrite EF. intros Heq. inversion Heq as [He].
    revert He. apply deleteError_not_createError. lia.
  - rewrite Htr. simpl. now rewrite deletions_no_create.
Qed.

Lemma selfHeal_deletion_error_witness :
  exists j id,
    nth_error [EvDelete testUser 0 false] j
      = Some (EvDelete testUser id false) /\
    fst (KeyRotator.rotateKeys (mkKeyRotator (failingFrom 1) keyHandler)
           testUser (worldWith oneInactive))
      = Rejected (deleteError (failingFrom 1) (2 + j)).
Proof.
  destruct (selfHeal_deletion_error (mkKeyRotator (failingFrom 1) keyHandler)
              testUser (worldWith oneInactive) _ _
              [EvDelete testUser 0 false] eq_refl eq_refl)
    as (j & id & Hn & Hr & _).
  - exists 0. simpl. auto.
  - exists j, id. split; [exact Hn|]. simpl fst. exact Hr.
Defined.

(* ================================================================= *)
(** ** When the handler fails on the new key *)

Lemma handler_rejected_path user w p id :
  In (EvHandle id false) (pathTrace user w p) ->
  id = issued w /\
  ((exists ok oks, p = HandlerFailed ok oks) \/
   (exists oks, p = HandlerEscaped oks)).
Proof.
  destruct p; simpl; intros H.
  - destruct H as [H|[]]; discriminate.
  - destruct H as [H|[H|H]]; try discriminate.
    apply in_deletions in H. destruct H as (k & ok & _ & H). discriminate.
  - destruct H as [H|[H|[H|[H|H]]]]; try discriminate.
    + inversion H; subst. eauto.
    + apply in_deletions in H. destruct H as (k & ok' & _ & H). discriminate.
  - destruct H as [H|[H|[H|H]]]; try discriminate.
    apply in_app_or in H.
    destruct H as [H|H]; apply in_deletions in H;
      destruct H as (k & ok & _ & H); discriminate.
  - destruct H as [H|[H|[H|H]]]; try discriminate.
    apply in_deletions in H. destruct H as (k & ok & _ & H). discriminate.
  - destruct H as [H|[H|[H|H]]]; try discriminate.
    + inversion H; subst. eauto.
    + apply in_deletions in H. destruct H as (k & ok & _ & H). discriminate.
Qed.



Lemma wellFormed_worldWith_one a :
  wellFormed testUser (worldWith [createKey 0 a]).
Proof.
  split; simpl.
  - constructor; [simpl; tauto|constructor].
  - repeat constructor.
Qed.


(* ================================================================= *)
(** ** Sequences of runs *)

Lemma hasActive_in ks :
  hasActive ks = true <-> exists k, In k ks /\ Status k = ACTIVE.
Proof.
  unfold hasActive. rewrite existsb_exists.
  split; intros (k & Hin & H); exists k; split; trivial;
    now apply status_eqb_eq.
Qed.

Lemma NoDup_ids_fresh user w :
  wellFormed user w ->
  NoDup (ids (keys w user ++ [mkMeta user (issued w) Active])).
Proof.
  intros Hwf. unfold ids. rewrite map_app. simpl.
  apply NoDup_app.
  - exact (proj1 Hwf).
  - constructor; [simpl; tauto|constructor].
  - intros x Hx [<-|[]]. now apply (fresh_not_listed user w).
Qed.

Lemma pathKeys_incl user w p k :
  In k (pathKeys user w p) ->
  In k (keys w user) \/ (created p = 1 /\ k = mkMeta user (issued w) Active).
Proof.
  destruct p; simpl; intros H;
    repeat (apply in_without in H; destruct H as [H _]); auto;
    apply in_app_or in H; destruct H as [H|[<-|[]]]; auto.
Qed.

Lemma pathKeys_NoDup user w p :
  wellFormed user w -> NoDup (ids (pathKeys user w p)).
Proof.
  intros Hwf. pose proof (NoDup_ids_fresh user w Hwf) as Hnew.
  destruct Hwf as [Hnd _].
  destruct p; simpl; auto; repeat apply NoDup_ids_without; auto.
Qed.

Lemma pathKeys_length this user w p :
  pathValid this user w p -> List.length (keys w user) <= maxKeys ->
  List.length (pathKeys user w p) <= maxKeys.
Proof.
  intros Hv Hcap.
  assert (Hnew : List.length (keys w user) < maxKeys ->
                 List.length (keys w user ++ [mkMeta user (issued w) Active])
                 <= maxKeys).
  { rewrite length_app. simpl. lia. }
  destruct p; simpl in *.
  - exact Hcap.
  - etransitivity; [apply length_without|exact Hcap].
  - destruct Hv as (_ & Hlt & _).
    etransitivity; [apply length_without|].
    etransitivity; [apply length_without|]. now apply Hnew.
  - destruct Hv as (_ & _ & _ & Hlt & _).
    etransitivity; [apply length_without|].
    etransitivity; [apply length_without|]. now apply Hnew.
  - destruct Hv as (_ & _ & Hlt & _).
    etransitivity; [apply length_without|]. now apply Hnew.
  - destruct Hv as (_ & Hlt & _).
    etransitivity; [apply length_without|]. now apply Hnew.
Qed.

Lemma new_key_survives user w oks ks (l : list AccessKeyMetadata) :
  wellFormed user w ->
  (forall k, In k l -> In k (keys w user)) ->
  In (mkMeta user (issued w) Active) ks ->
  In (mkMeta user (issued w) Active) (without (deletedIds l oks) ks).
Proof.
  intros Hwf Hl Hks. apply in_without. split; [exact Hks|].
  intros Hd. apply deletedIds_incl in Hd. simpl in Hd.
  unfold ids in Hd. apply in_map_iff in Hd. destruct Hd as (k & Hid & Hk).
  apply (fresh_id user w k Hwf); auto.
Qed.

Lemma pathKeys_active user w p :
  wellFormed user w -> hasActive (keys w user) = true ->
  hasActive (pathKeys user w p) = true.
Proof.
  intros Hwf Hact. apply hasActive_in.
  assert (Hnew : In (mkMeta user (issued w) Active)
                    (keys w user ++ [mkMeta user (issued w) Active])).
  { apply in_or_app. right. now left. }
  assert (Hsub : forall k, In k (filter isInactive (keys w user)) ->
                           In k (keys w user)).
  { intros k Hk. apply filter_In in Hk. tauto. }
  apply hasActive_in in Hact. destruct Hact as (k & Hin & Hk).
  destruct p; simpl.
  - eauto.
  - exists k. split; [|exact Hk]. now apply active_survives_cleanup.
  - exists k. split; [|exact Hk]. apply active_survives_cleanup; auto.
    apply in_without. split; [apply in_or_app; now left|].
    destruct ok; simpl; [|tauto]. intros [Hid|[]].
    now apply (fresh_id user w k Hwf Hin).
  - exists (mkMeta user (issued w) Active). split; [|reflexivity].
    apply new_key_survives; auto. apply new_key_survives; auto.
  - exists (mkMeta user (issued w) Active). split; [|reflexivity].
    apply new_key_survives; auto.
  - exists (mkMeta user (issued w) Active). split; [|reflexivity].
    apply new_key_survives; auto.
Qed.

(** One run keeps the identifiers distinct and issued, keeps the number of
    keys within the limit, and keeps an active key when there was one. *)
Lemma run_invariant this user w r w' :
  KeyRotator.rotateKeys this user w = (r, w') ->
  wellFormed user w -> List.length (keys w user) <= maxKeys ->
  wellFormed user w' /\
  List.length (keys w' user) <= maxKeys /\
  (hasActive (keys w user) = true -> hasActive (keys w' user) = true).
Proof.
  intros H Hwf Hcap. apply path_trace in H.
  destruct H as (p & Hv & _ & Hk & _ & Hi).
  unfold wellFormed. rewrite Hk. repeat split.
  - now apply pathKeys_NoDup.
  - apply Forall_forall. intros k Hin.
    apply pathKeys_incl in Hin. rewrite Hi.
    destruct Hin as [Hin|[Hc ->]].
    + destruct Hwf as [_ Hlt]. rewrite Forall_forall in Hlt.
      specialize (Hlt k Hin). lia.
    + simpl. lia.
  - eapply pathKeys_length; eassumption.
  - now apply pathKeys_active.
Qed.

(** The specification's idempotence fails on the run of the test
    ['2 inactive keys']: the run starts with two keys and leaves none. *)
Lemma rotateKeys_can_empty :
  ~ neverEmptied KeyRotator.rotateKeys
      (mkKeyRotator mockIAM keyHandler) testUser (worldWith twoInactive).
Proof.
  intros H. destruct (H 0) as [_ Hne].
  apply Hne; [discriminate|reflexivity].
Qed.

Lemma runs_invariant this user n : forall w,
  wellFormed user w -> List.length (keys w user) <= maxKeys ->
  let w' := runs KeyRotator.rotateKeys this user n w in
  wellFormed user w' /\
  List.length (keys w' user) <= maxKeys /\
  (hasActive (keys w user) = true -> hasActive (keys w' user) = true).
Proof.
  induction n as [|n IH]; intros w Hwf Hcap; simpl.
  - auto.
  - destruct (KeyRotator.rotateKeys this user w) as [r w1] eqn:E.
    destruct (run_invariant _ _ _ _ _ E Hwf Hcap) as (Hwf1 & Hcap1 & Hact1).
    destruct (IH w1 Hwf1 Hcap1) as (Hw & Hc & Ha). simpl in *. auto.
Qed.

(** C8, as the code has it.  From a state within the limit of two keys,
    no run of a sequence of runs of [rotateKeys], whatever fails in it,
    leaves more than two keys, and none leaves the user without an active
    key (so none leaves no key) when there was an active key before it, or
    at the start of the sequence. *)
Theorem runs_keep_cap_and_active this user w :
  wellFormed user w -> List.length (keys w user) <= maxKeys ->
  forall n,
    let before := runs KeyRotator.rotateKeys this user n w in
    let after := snd (KeyRotator.rotateKeys this user before) in
    List.length (keys after user) <= maxKeys /\
    (hasActive (keys before user) = true ->
     hasActive (keys after user) = true /\ keys after user <> []) /\
    (hasActive (keys w user) = true -> hasActive (keys after user) = true).
Proof.
  intros Hwf Hcap n before after.
  destruct (runs_invariant this user n w Hwf Hcap) as (Hwfb & Hcapb & Hactb).
  fold before in Hwfb, Hcapb, Hactb. unfold after.
  destruct (KeyRotator.rotateKeys this user before) as [r w1] eqn:E.
  destruct (run_invariant _ _ _ _ _ E Hwfb Hcapb) as (_ & Hcap1 & Hact1).
  simpl. split; [exact Hcap1|]. split.
  - intros Hb. apply Hact1 in Hb. split; [exact Hb|].
    intros Hempty. rewrite Hempty in Hb. discriminate.
  - intros Hw. apply Hact1. now apply Hactb.
Qed.

Lemma runs_keep_cap_and_active_witness :
  List.length
    (keys (snd (KeyRotator.rotateKeys
                  (mkKeyRotator (failingFrom 3) keyHandler) testUser
                  (runs KeyRotator.rotateKeys
                     (mkKeyRotator (failingFrom 3) keyHandler) testUser 2
                     (worldWith [createKey 0 Inactive; createKey 1 Active]))))
       testUser) <= maxKeys /\
  hasActive
    (keys (snd (KeyRotator.rotateKeys
                  (mkKeyRotator (failingFrom 3) keyHandler) testUser
                  (runs KeyRotator.rotateKeys
                     (mkKeyRotator (failingFrom 3) keyHandler) testUser 2
                     (worldWith [createKey 0 Inactive; createKey 1 Active]))))
       testUser) = true.
Proof.
  destruct (runs_keep_cap_and_active
              (mkKeyRotator (failingFrom 3) keyHandler) testUser
              (worldWith [createKey 0 Inactive; createKey 1 Active])
              (wellFormed_worldWith_two Inactive Active)) with (n := 2)
    as (Hc & _ & Ha).
  - simpl. unfold maxKeys. lia.
  - split; [exact Hc|]. apply Ha. reflexivity.
Defined.

(* ================================================================= *)
(** ** Which keys a run deletes, and when *)

Lemma split_after_three {A} (a b c x : A) pre post rest :
  pre ++ x :: post = a :: b :: c :: rest ->
  x <> a -> x <> b -> x <> c ->
  In a pre /\ In b pre /\ In c pre.
Proof.
  destruct pre as [|p1 [|p2 [|p3 pre]]]; simpl; intros H Ha Hb Hc;
    inversion H; subst; try congruence.
  repeat split; simpl; auto.
Qed.

Lemma active_not_in_cleanup user w k oks ok :
  wellFormed user w -> In k (keys w user) -> Status k = ACTIVE ->
  ~ In (EvDelete user (AccessKeyId k) ok)
       (deletions user (filter isInactive (keys w user)) oks).
Proof.
  intros Hwf Hin Hact Hd. apply in_deletions_id in Hd.
  destruct Hd as (k' & Hk' & Hid).
  apply (active_not_inactive user w k Hwf Hin Hact).
  rewrite <- Hid. unfold ids. now apply in_map.
Qed.

Lemma failed_short_batch user (l : list AccessKeyMetadata) oks :
  List.length oks = List.length l -> List.length l < maxKeys ->
  allOk oks = false ->
  deletedIds l oks = [] /\
  forall id, ~ In (EvDelete user id true) (deletions user l oks).
Proof.
  unfold maxKeys.
  destruct l as [|a [|b l]]; destruct oks as [|x [|y oks]];
    simpl; intros Hl Hlt Hno; try discriminate; try lia.
  destruct x; [discriminate|]. split; [reflexivity|].
  unfold deletions. simpl. intros id [H|[]]. discriminate.
Qed.

(** C9.  A listed active key is deleted only after the key created in
    this run has been accepted by the handler: every request to delete it
    comes after the creation and the acceptance, and it succeeds only in a
    run that resolves, so that the key is still there after every run that
    rejects.  And a run that rejects ends with the clean-up, which requests
    the deletion of the listed inactive keys only; the deletions before it
    are the removal of the created key, or follow the acceptance. *)
Theorem active_deleted_after_accept this user w r w' k :
  wellFormed user w ->
  KeyRotator.rotateKeys this user w = (r, w') ->
  In k (keys w user) -> Status k = ACTIVE ->
  (forall pre ok post,
     trace w w' = pre ++ EvDelete user (AccessKeyId k) ok :: post ->
     In (EvCreate user (Some (issued w))) pre /\
     In (EvHandle (issued w) true) pre) /\
  (In (EvDelete user (AccessKeyId k) true) (trace w w') -> r = Resolved tt) /\
  (forall e, r = Rejected e ->
     In k (keys w' user) /\
     (trace w w' = [EvList user false] \/
      exists main oks,
        List.length oks = List.length (filter isInactive (keys w user)) /\
        trace w w' =
          main ++ deletions user (filter isInactive (keys w user)) oks /\
        forall id ok, In (EvDelete user id ok) main ->
          id = issued w \/ In (EvHandle (issued w) true) main)).
Proof.
  intros Hwf H Hin Hact. apply path_trace in H.
  destruct H as (p & Hv & Htr & Hk & Hr & _). rewrite Htr, Hk.
  split; [|split].
  - intros pre ok post Hsplit.
    assert (Hev : In (EvDelete user (AccessKeyId k) ok) (pathTrace user w p)).
    { rewrite Hsplit. apply in_elt. }
    destruct p; simpl in Hsplit, Hev.
    + destruct Hev as [Hev|[]]. discriminate.
    + destruct Hev as [Hev|[Hev|Hev]]; try discriminate.
      now apply active_not_in_cleanup in Hev.
    + destruct Hev as [Hev|[Hev|[Hev|[Hev|Hev]]]]; try discriminate.
      * inversion Hev as [Hid]. symmetry in Hid.
        now apply (fresh_id user w k Hwf Hin) in Hid.
      * now apply active_not_in_cleanup in Hev.
    + symmetry in Hsplit.
      apply split_after_three in Hsplit; try discriminate. tauto.
    + symmetry in Hsplit.
      apply split_after_three in Hsplit; try discriminate. tauto.
    + destruct Hev as [Hev|[Hev|[Hev|Hev]]]; try discriminate.
      now apply active_not_in_cleanup in Hev.
  - intros Hev. subst r. destruct p; simpl in Hev |- *; try reflexivity;
      exfalso.
    + destruct Hev as [Hev|[]]. discriminate.
    + destruct Hev as [Hev|[Hev|Hev]]; try discriminate.
      now apply active_not_in_cleanup in Hev.
    + destruct Hev as [Hev|[Hev|[Hev|[Hev|Hev]]]]; try discriminate.
      * inversion Hev as [[Hid Hok]]. symmetry in Hid.
        now apply (fresh_id user w k Hwf Hin) in Hid.
      * now apply active_not_in_cleanup in Hev.
    + destruct Hv as (Hl & _ & Hno & Hlt & _).
      destruct (failed_short_batch user _ _ Hl Hlt Hno) as [_ Hnone].
      destruct Hev as [Hev|[Hev|[Hev|Hev]]]; try discriminate.
      apply in_app_or in Hev. destruct Hev as [Hev|Hev].
      * now apply Hnone in Hev.
      * now apply active_not_in_cleanup in Hev.
    + destruct Hev as [Hev|[Hev|[Hev|Hev]]]; try discriminate.
      now apply active_not_in_cleanup in Hev.
  - intros e He. subst r.
    assert (Hold : In k (keys w user ++ [mkMeta user (issued w) Active])).
    { apply in_or_app. now left. }
    destruct p; simpl in He |- *.
    + split; [exact Hin|now left].
    + destruct Hv as (Hl & _). split; [now apply active_survives_cleanup|].
      right. exists [EvList user true; EvCreate user None], oks.
      repeat split; auto. intros id ok [Hev|[Hev|[]]]; discriminate.
    + destruct Hv as (Hl & _). split.
      * apply active_survives_cleanup; auto.
        apply in_without. split; [exact Hold|].
        destruct ok; simpl; [|tauto]. intros [Hid|[]].
        now apply (fresh_id user w k Hwf Hin).
      * right.
        exists [EvList user true; EvCreate user (Some (issued w));
                EvHandle (issued w) false; EvDelete user (issued w) ok], oks.
        repeat split; auto.
        intros id ok' [Hev|[Hev|[Hev|[Hev|[]]]]]; try discriminate.
        inversion Hev; subst. now left.
    + destruct Hv as (Hl & Hl' & Hno & Hlt & _). split.
      * destruct (failed_short_batch user _ _ Hl Hlt Hno) as [-> _].
        rewrite without_nil. now apply active_survives_cleanup.
      * right.
        exists (EvList user true :: EvCreate user (Some (issued w))
                  :: EvHandle (issued w) true
                  :: deletions user (keys w user) oks), oks'.
        repeat split; auto.
        intros id ok _. right. simpl. auto.
    + discriminate.
    + destruct Hv as (Hl & _). split.
      * apply active_survives_cleanup; auto.
      * right.
        exists [EvList user true; EvCreate user (Some (issued w));
                EvHandle (issued w) false], oks.
        repeat split; auto.
        intros id ok [Hev|[Hev|[Hev|[]]]]; discriminate.
Qed.

Lemma active_deleted_after_accept_witness :
  In (EvHandle 1 true)
     [EvList testUser true; EvCreate testUser (Some 1); EvHandle 1 true].
Proof.
  destruct (active_deleted_after_accept (mkKeyRotator mockIAM keyHandler)
              testUser (worldWith [createKey 0 Active]) _ _
              (createKey 0 Active)
              (wellFormed_worldWith_one Active) eq_refl
              (or_introl eq_refl) eq_refl) as [Hfirst _].
  exact (proj2 (Hfirst [EvList testUser true; EvCreate testUser (Some 1);
                        EvHandle 1 true] true [] eq_refl)).
Defined.

(* ================================================================= *)
(** ** After the handler has accepted the new key *)

Lemma handler_accepted_path user w p id :
  In (EvHandle id true) (pathTrace user w p) ->
  id = issued w /\
  ((exists oks oks', p = CleanupFailed oks oks') \/
   (exists oks, p = Succeeded oks)).
Proof.
  destruct p; simpl; intros H.
  - destruct H as [H|[]]; discriminate.
  - destruct H as [H|[H|H]]; try discriminate.
    apply in_deletions in H. destruct H as (k & ok & _ & H). discriminate.
  - destruct H as [H|[H|[H|[H|H]]]]; try discriminate.
    apply in_deletions in H. destruct H as (k & ok' & _ & H). discriminate.
  - destruct H as [H|[H|[H|H]]]; try discriminate.
    + inversion H; subst. eauto.
    + apply in_app_or in H.
      destruct H as [H|H]; apply in_deletions in H;
        destruct H as (k & ok & _ & H); discriminate.
  - destruct H as [H|[H|[H|H]]]; try discriminate.
    + inversion H; subst. eauto.
    + apply in_deletions in H. destruct H as (k & ok & _ & H). discriminate.
  - destruct H as [H|[H|[H|H]]]; try discriminate.
    apply in_deletions in H. destruct H as (k & ok & _ & H). discriminate.
Qed.

Lemma fresh_not_deleted user w (l : list AccessKeyMetadata) oks ok :
  wellFormed user w ->
  (forall k, In k l -> In k (keys w user)) ->
  ~ In (EvDelete user (issued w) ok) (deletions user l oks).
Proof.
  intros Hwf Hsub Hd. apply in_deletions_id in Hd.
  destruct Hd as (k & Hk & Hid).
  apply (fresh_id user w k Hwf); auto.
Qed.

(** C10.  Once the handler has accepted the created key, [rotateKeys]
    never requests its deletion, and the key is there, active, at the end
    of the run, also when a deletion of the old keys fails and the run
    rejects.  With one active key at the start and a service that fails
    the deletion, the run rejects and leaves two active keys. *)
Theorem accepted_key_kept this user w r w' id :
  wellFormed user w ->
  KeyRotator.rotateKeys this user w = (r, w') ->
  In (EvHandle id true) (trace w w') ->
  (id = issued w /\
   (forall ok, ~ In (EvDelete user id ok) (trace w w')) /\
   In (mkMeta user id ACTIVE) (keys w' user) /\
   ((exists id', In (EvDelete user id' false) (trace w w')) ->
    exists e, r = Rejected e)) /\
  (let (r0, w0) :=
     KeyRotator.rotateKeys (mkKeyRotator (failingFrom 2) keyHandler) testUser
       (worldWith [createKey 0 Active]) in
   r0 = Rejected (ServiceFailure 2) /\
   keys w0 testUser = [createKey 0 Active; createKey 1 Active]).
Proof.
  intros Hwf H Hin. split; [|vm_compute; auto].
  apply path_trace in H. destruct H as (p & Hv & Htr & Hk & Hr & _).
  rewrite Htr in *. apply handler_accepted_path in Hin.
  assert (Hsub : forall k, In k (filter isInactive (keys w user)) ->
                           In k (keys w user)).
  { intros k Hk'. apply filter_In in Hk'. tauto. }
  assert (Hnew : In (mkMeta user (issued w) Active)
                    (keys w user ++ [mkMeta user (issued w) Active])).
  { apply in_or_app. right. now left. }
  destruct Hin as [-> [(oks & oks' & ->)|(oks & ->)]]; rewrite Hk; simpl.
  - repeat split.
    + intros ok [Hd|[Hd|[Hd|Hd]]]; try discriminate.
      apply in_app_or in Hd. destruct Hd as [Hd|Hd];
        apply fresh_not_deleted in Hd; auto.
    + apply new_key_survives; auto. apply new_key_survives; auto.
    + intros _. subst r. simpl. eauto.
  - repeat split.
    + intros ok [Hd|[Hd|[Hd|Hd]]]; try discriminate.
      apply fresh_not_deleted in Hd; auto.
    + apply new_key_survives; auto.
    + intros [id' [Hd|[Hd|[Hd|Hd]]]]; try discriminate.
      apply in_deletions_false in Hd. destruct Hv as (_ & Hok & _).
      congruence.
Qed.

Lemma accepted_key_kept_witness :
  In (mkMeta testUser 1 ACTIVE)
     (keys (snd (KeyRotator.rotateKeys
                   (mkKeyRotator (failingFrom 2) keyHandler) testUser
                   (worldWith [createKey 0 Active]))) testUser).
Proof.
  destruct (accepted_key_kept (mkKeyRotator (failingFrom 2) keyHandler)
              testUser (worldWith [createKey 0 Active]) _ _ 1
              (wellFormed_worldWith_one Active) eq_refl)
    as [(_ & _ & Hkept & _) _].
  - vm_compute. auto.
  - exact Hkept.
Defined.

(* ================================================================= *)
(** ** Revision 1.1.1: the self-healing retries the creation *)

Lemma deleteKey_111_eq this user k w :
  KeyRotator_1_1_1.deleteKey this user k w =
  deleteAccessKey (iam this) user (AccessKeyId k) w.
Proof.
  unfold KeyRotator_1_1_1.deleteKey, then_, resolve.
  now destruct (deleteAccessKey _ _ _ w) as [[[]|e] w1].
Qed.

Lemma createKey_111_eq this user w :
  KeyRotator_1_1_1.createKey this user w = createAccessKey (iam this) user w.
Proof.
  unfold KeyRotator_1_1_1.createKey, then_, resolve.
  now destruct (createAccessKey _ _ w) as [[k|e] w1].
Qed.

Lemma deleteKeys_111_inv this user l filter w r w' :
  KeyRotator_1_1_1.deleteKeys this user l filter w = (r, w') ->
  exists oks,
    List.length oks = List.length (subset filter l) /\
    journal w' = journal w ++ deletions user (subset filter l) oks /\
    (allOk oks = true <-> exists vs, r = Resolved vs).
Proof.
  unfold KeyRotator_1_1_1.deleteKeys, Promise_all.
  fold (subset filter l).
  rewrite (forEach_ext _ _ _ (deleteKey_111_eq this user)).
  destruct (forEach _ _ w) as [ss w1] eqn:E. intros H; inversion H; subst.
  apply batch_spec in E. destruct E as (Hl & Hj & _).
  exists (map okOf ss). repeat split; auto; apply all_settled_allOk.
Qed.

Lemma createAccessKey_journal i user w r w' :
  createAccessKey i user w = (r, w') ->
  exists c, journal w' = journal w ++ [EvCreate user c] /\
            (c = None <-> exists e, r = Rejected e).
Proof.
  intros H. apply createAccessKey_spec in H. destruct r as [key|e].
  - destruct H as (_ & _ & _ & ->). simpl. eexists. split; [reflexivity|].
    split; [discriminate|]. intros [e He]. discriminate.
  - destruct H as (-> & _). simpl. exists None. split; [reflexivity|].
    split; eauto.
Qed.

(** The three ways through [handleNewKey] of revision 1.1.1, which are
    those of [src/keyRotation/keyRotator.ts]. *)
Lemma handleNewKey_111_inv this user key w r w' :
  KeyRotator_1_1_1.handleNewKey this user key w = (r, w') ->
  (newKeyHandler this key = None /\ r = Resolved tt /\
   w' = record (EvHandle (keyAccessKeyId key) true) w) \/
  (exists f s,
     newKeyHandler this key = Some f /\ deletesKey f = true /\
     deleteAccessKey (iam this) user (keyAccessKeyId key)
       (record (EvHandle (keyAccessKeyId key) false) w) = (s, w') /\
     r = Rejected (firstError [s] (handleError f))) \/
  (exists f,
     newKeyHandler this key = Some f /\ deletesKey f = false /\
     w' = record (EvHandle (keyAccessKeyId key) false) w /\
     r = Rejected (handleError f)).
Proof.
  unfold KeyRotator_1_1_1.handleNewKey, invoke. intros H.
  destruct (newKeyHandler this key) as [f|] eqn:Eh.
  - destruct (escapes f) eqn:Ef.
    + (* the failure escapes *)
      right. right. exists f. unfold callHandler in H. rewrite Eh in H.
      inversion H; subst.
      destruct f as [err|err|]; simpl in *; try discriminate; auto.
    + destruct f as [err|err|]; try discriminate.
      apply catch_inv in H. unfold then_, callHandler in H. rewrite Eh in H.
      destruct H as [(a & H & _)|(e & w1 & H & HD)]; [discriminate|].
      inversion H; subst e w1. clear H. simpl failureError in HD.
      apply logging_inv in HD.
      destruct HD as [(Hs & HD)|(Hs & -> & ->)].
      * right. left. exists (Rejects err). simpl. rewrite Hs.
        apply then_inv in HD. rewrite deleteKey_111_eq in HD.
        simpl AccessKeyId in HD.
        destruct HD as [(a & w2 & HK & HR)|(e & HK & ->)].
        -- apply reject_inv in HR. destruct HR as [-> ->].
           exists (Resolved a). auto.
        -- exists (Rejected e). auto.
      * right. right. exists (Rejects err). simpl. rewrite Hs. auto.
  - left. apply catch_inv in H. unfold then_, callHandler, resolve in H.
    rewrite Eh in H.
    destruct H as [(a & H & ->)|(e & w1 & H & _)]; [|discriminate].
    inversion H; subst. auto.
Qed.

(** The [.catch] of [createNewKey] is given an error of the service, which
    its log line serialises. *)
Lemma createNewKey_111_inv this user listed w r w' :
  KeyRotator_1_1_1.createNewKey this user listed w = (r, w') ->
  (exists key,
     createAccessKey (iam this) user w = (Resolved key, w') /\
     r = Resolved key) \/
  (exists e w1,
     createAccessKey (iam this) user w = (Rejected e, w1) /\
     (KeyRotator_1_1_1.deleteKeys this user listed
        (Some (fun key => isInactive key))
        .then (fun _ => KeyRotator_1_1_1.createKey this user)) w1 = (r, w')).
Proof.
  unfold KeyRotator_1_1_1.createNewKey. intros H. apply catch_inv in H.
  destruct H as [(key & H & ->)|(e & w1 & H & HS)];
    rewrite createKey_111_eq in H.
  - left. eauto.
  - right. exists e, w1. split; [exact H|].
    apply logging_inv in HS. destruct HS as [(_ & HS)|(Hs & _)]; [exact HS|].
    apply createAccessKey_spec in H. destruct H as (_ & -> & _).
    rewrite serialisable_createError in Hs. discriminate.
Qed.

(** What follows the creation in revision 1.1.1 requests no creation. *)
Lemma after_creation_111 this user listed key w r w' :
  (KeyRotator_1_1_1.handleNewKey this user key
     .then (fun _ => KeyRotator_1_1_1.deleteKeys this user listed None)
     .then (fun _ => resolve tt)) w = (r, w') ->
  exists tl, journal w' = journal w ++ tl /\ filter isCreate tl = [].
Proof.
  intros H.
  assert (Hh : forall r1 w1,
    KeyRotator_1_1_1.handleNewKey this user key w = (r1, w1) ->
    exists tl, journal w1 = journal w ++ tl /\ filter isCreate tl = []).
  { intros r1 w1 H1. apply handleNewKey_111_inv in H1.
    destruct H1 as [(_ & _ & ->)|[(f & s & _ & _ & Hd & _)|(f & _ & _ & -> & _)]].
    - simpl. eexists. split; [reflexivity|reflexivity].
    - apply deleteAccessKey_spec in Hd.
      destruct Hd as (Hj & _). rewrite Hj. simpl. rewrite <- app_assoc.
      eexists. split; [reflexivity|reflexivity].
    - simpl. eexists. split; [reflexivity|reflexivity]. }
  apply then_inv in H. destruct H as [(a & w1 & H & H1)|(e & H & _)].
  - apply resolve_inv in H1. destruct H1 as [_ ->].
    apply then_inv in H. destruct H as [(a1 & w2 & H & H1)|(e & H & _)];
      [|now apply Hh in H].
    apply Hh in H. destruct H as (tl & Hj & Hc).
    apply deleteKeys_111_inv in H1. destruct H1 as (oks & _ & Hj1 & _).
    exists (tl ++ deletions user (subset None listed) oks).
    rewrite Hj1, Hj, <- app_assoc. split; [reflexivity|].
    now rewrite filter_app, Hc, deletions_no_create.
  - apply then_inv in H. destruct H as [(a1 & w2 & H & H1)|(e1 & H & _)];
      [|now apply Hh in H].
    apply Hh in H. destruct H as (tl & Hj & Hc).
    apply deleteKeys_111_inv in H1. destruct H1 as (oks & _ & Hj1 & _).
    exists (tl ++ deletions user (subset None listed) oks).
    rewrite Hj1, Hj, <- app_assoc. split; [reflexivity|].
    now rewrite filter_app, Hc, deletions_no_create.
Qed.

Lemma then_assoc {A B C} (p : Promise A) (f : A -> Promise B)
    (g : B -> Promise C) w :
  (p .then f .then g) w = (p .then (fun a => f a .then g)) w.
Proof. unfold then_. now destruct (p w) as [[a|e] w1]. Qed.

Lemma getExistingKeys_111_eq this user w :
  KeyRotator_1_1_1.getExistingKeys this user w
  = listAccessKeys (iam this) user w.
Proof.
  unfold KeyRotator_1_1_1.getExistingKeys, then_, resolve.
  now destruct (listAccessKeys _ _ w) as [[l|e] w1].
Qed.

(** In revision 1.1.1 the specification's step 2 holds as it is written:
    after a refused creation and the deletion of the listed inactive keys, the
    creation is requested exactly once more. *)
Theorem retry_in_1_1_1 this user w :
  retriesCreationOnce KeyRotator_1_1_1.rotateKeys this user w.
Proof.
  intros r w' rest H Ht.
  unfold KeyRotator_1_1_1.rotateKeys in H. apply catch_inv in H.
  assert (H' : exists r0,
    (KeyRotator_1_1_1.getExistingKeys this user
       .then (fun keys => KeyRotator_1_1_1.performKeyRotation this user keys)) w
      = (r0, w')).
  { destruct H as [(a & H & ->)|(e & w1 & H & H1)]; [eauto|].
    apply surface_inv in H1. destruct H1; subst. eauto. }
  clear H r. destruct H' as (r & H').
  apply then_inv in H'. rewrite getExistingKeys_111_eq in H'.
  destruct H' as [(listed & w1 & HL & H)|(e & HL & _)].
  2:{ apply listAccessKeys_spec in HL. destruct HL as (-> & _).
      unfold trace in Ht. simpl in Ht.
      rewrite skipn_app, skipn_all, Nat.sub_diag in Ht. discriminate. }
  apply list_resolved in HL. destruct HL as (-> & -> & _).
  unfold KeyRotator_1_1_1.performKeyRotation in H.
  rewrite then_assoc, then_assoc in H.
  set (w1 := request (EvList user true) w) in *.
  assert (Hj1 : journal w1 = journal w ++ [EvList user true]) by reflexivity.
  assert (Hfin : forall X,
    journal w' = journal w1 ++ EvCreate user None :: X -> rest = X).
  { intros X HX. rewrite Hj1, <- app_assoc in HX.
    apply trace_app in HX. rewrite HX in Ht. now inversion Ht. }
  assert (Hnot : forall id X,
    journal w' = journal w1 ++ EvCreate user (Some id) :: X -> False).
  { intros id X HX. rewrite Hj1, <- app_assoc in HX.
    apply trace_app in HX. rewrite HX in Ht. now inversion Ht. }
  apply then_inv in H.
  destruct H as [(key & w2 & HC & HT)|(e & HC & _)];
    apply createNewKey_111_inv in HC.
  - (* a key was created, at the first or at the second request *)
    rewrite <- then_assoc in HT.
    apply after_creation_111 in HT. destruct HT as (tl & Hjt & Hct).
    destruct HC as [(a & HC & Ha)|(e & w3 & HC & HR)];
      apply createAccessKey_journal in HC; destruct HC as (c & Hjc & Hc).
    + exfalso. destruct c as [id|].
      * apply (Hnot id tl). rewrite Hjt, Hjc, <- app_assoc. reflexivity.
      * destruct (proj1 Hc eq_refl) as [e He]. discriminate.
    + assert (c = None) as -> by (apply Hc; eauto).
      apply then_inv in HR. destruct HR as [(a & w4 & HD & HK)|(e1 & HD & He1)];
        [|discriminate].
      apply deleteKeys_111_inv in HD. destruct HD as (oks & Hl & Hjd & Hok).
      rewrite createKey_111_eq in HK. apply createAccessKey_journal in HK.
      destruct HK as (c & Hjk & _).
      exists oks, (EvCreate user c :: tl). split; [exact Hl|]. split.
      * apply Hfin. rewrite Hjt, Hjk, Hjd, Hjc, <- !app_assoc. reflexivity.
      * intros _. eauto.
  - (* no key was created *)
    destruct HC as [(a & _ & Ha)|(e0 & w3 & HC & HR)]; [discriminate|].
    apply createAccessKey_journal in HC. destruct HC as (c & Hjc & Hc).
    assert (c = None) as -> by (apply Hc; eauto).
    apply then_inv in HR. destruct HR as [(a & w4 & HD & HK)|(e1 & HD & He1)].
    + apply deleteKeys_111_inv in HD. destruct HD as (oks & Hl & Hjd & Hok).
      rewrite createKey_111_eq in HK. apply createAccessKey_journal in HK.
      destruct HK as (c & Hjk & _).
      exists oks, [EvCreate user c]. split; [exact Hl|]. split.
      * apply Hfin. rewrite Hjk, Hjd, Hjc, <- !app_assoc. reflexivity.
      * intros _. exists c, []. auto.
    + apply deleteKeys_111_inv in HD. destruct HD as (oks & Hl & Hjd & Hok).
      exists oks, []. split; [exact Hl|]. split.
      * apply Hfin. rewrite Hjd, Hjc, <- !app_assoc, app_nil_r. reflexivity.
      * intros Hall. apply Hok in Hall. destruct Hall as [vs Hvs].
        discriminate.
Qed.

(** In revision 1.1.1 the run of the test ['1 active and 1 inactive key']
    resolves instead: the creation succeeds at the second request, and the
    listed active key is deleted with the other old key. *)
Example at_limit_in_1_1_1 :
  let (r, w') :=
    KeyRotator_1_1_1.rotateKeys (mkKeyRotator mockIAM keyHandler) testUser
      (worldWith [createKey 0 Inactive; createKey 1 Active]) in
  r = Resolved tt /\ keys w' testUser = [createKey 2 Active].
Proof. vm_compute. auto. Qed.


(* ================================================================= *)
(** ** Further properties of [src/keyRotation/keyRotator.ts] *)

(** *** [rotateKeys] and [getExistingKeys]: when the listing fails *)

(** X2.  When the listing fails, [rotateKeys] rejects with the error of the
    listing; the listing is its only request, and no key of any user is
    touched. *)
Theorem rotateKeys_list_failure this user w :
  faults (iam this) (clock w) = true ->
  exists w',
    KeyRotator.rotateKeys this user w
      = (Rejected (ServiceFailure (clock w)), w') /\
    trace w w' = [EvList user false] /\
    (forall u, keys w' u = keys w u) /\
    issued w' = issued w.
Proof.
  intros Hf. exists (request (EvList user false) w). split.
  - unfold KeyRotator.rotateKeys, KeyRotator.getExistingKeys,
      then_, catch_, reject, listAccessKeys.
    rewrite Hf. reflexivity.
  - split; [now apply trace_app|]. split; reflexivity.
Qed.

Lemma rotateKeys_list_failure_witness :
  exists w',
    KeyRotator.rotateKeys (mkKeyRotator (failingFrom 0) keyHandler) testUser
      (worldWith oneInactive) = (Rejected (ServiceFailure 0), w') /\
    keys w' testUser = oneInactive.
Proof.
  destruct (rotateKeys_list_failure (mkKeyRotator (failingFrom 0) keyHandler)
              testUser (worldWith oneInactive) eq_refl)
    as (w' & Hr & _ & Hk & _).
  exists w'. split; [exact Hr|]. rewrite Hk. reflexivity.
Defined.

(** *** Every request is made for the user of the run *)

Lemma deletions_user user l oks ev :
  In ev (deletions user l oks) -> eventUser ev = Some user.
Proof.
  intros H. apply in_deletions in H. destruct H as (k & ok & _ & ->).
  reflexivity.
Qed.

(** X3.  A run of [rotateKeys] for one user makes its requests for that user
    only, and leaves the keys of every other user as they were. *)
Theorem rotateKeys_other_users this user w r w' :
  KeyRotator.rotateKeys this user w = (r, w') ->
  (forall u, u <> user -> keys w' u = keys w u) /\
  (forall ev u, In ev (trace w w') -> eventUser ev = Some u -> u = user).
Proof.
  intros H. apply rotateKeys_path in H.
  destruct H as (p & _ & Hj & _ & Ho & _). split; [exact Ho|].
  rewrite (trace_app _ _ _ Hj). intros ev u Hin Hu.
  assert (Hev : eventUser ev = Some user \/ eventUser ev = None).
  { destruct p; simpl in Hin;
      repeat (destruct Hin as [<-|Hin]; [simpl; auto|]);
      try contradiction;
      try (apply in_app_or in Hin; destruct Hin as [Hin|Hin]);
      left; eapply deletions_user; eassumption. }
  destruct Hev as [Hev|Hev]; congruence.
Qed.

Lemma rotateKeys_other_users_witness :
  keys (snd (KeyRotator.rotateKeys (mkKeyRotator mockIAM keyHandler)
               "Other"%string (worldWith oneInactive))) testUser
  = oneInactive.
Proof.
  destruct (rotateKeys_other_users (mkKeyRotator mockIAM keyHandler)
              "Other"%string (worldWith oneInactive) _ _ eq_refl)
    as [Ho _].
  rewrite Ho; [reflexivity|discriminate].
Defined.

(** *** [handleNewKey] *)

(** X4.  [handleNewKey] makes no request when the handler accepts the key.
    When the handler returns a promise that rejects with a reason
    [JSON.stringify] serialises, [handleNewKey] requests the deletion of the
    key, once, and rejects: with the handler's reason when the deletion
    succeeded, and with the error of the deletion when it failed, in which
    case the key is still there.  In every other case it makes no request,
    so the key stays: when [JSON.stringify] throws on the reason, the log
    line ends the callback and [handleNewKey] rejects with the [TypeError];
    when the handler throws, the value thrown leaves [handleNewKey]; when
    the handler returns no promise, the [TypeError] of the call of [.catch]
    does. *)
Theorem handleNewKey_outcomes this user key w r w' :
  KeyRotator.handleNewKey this user key w = (r, w') ->
  match newKeyHandler this key with
  | None =>
      r = Resolved tt /\
      trace w w' = [EvHandle (keyAccessKeyId key) true] /\
      clock w' = clock w /\
      forall u, keys w' u = keys w u
  | Some f =>
      match f with
      | Rejects err =>
          if serialisable err
          then exists ok,
                 trace w w' = [EvHandle (keyAccessKeyId key) false;
                               EvDelete user (keyAccessKeyId key) ok] /\
                 r = Rejected (if ok then err
                               else deleteError (iam this) (clock w)) /\
                 keys w' user
                 = without (if ok then [keyAccessKeyId key] else [])
                     (keys w user)
          else trace w w' = [EvHandle (keyAccessKeyId key) false] /\
               r = Rejected TypeError /\
               clock w' = clock w /\ forall u, keys w' u = keys w u
      | Throws err =>
          trace w w' = [EvHandle (keyAccessKeyId key) false] /\
          r = Rejected err /\
          clock w' = clock w /\ forall u, keys w' u = keys w u
      | NoPromise =>
          trace w w' = [EvHandle (keyAccessKeyId key) false] /\
          r = Rejected TypeError /\
          clock w' = clock w /\ forall u, keys w' u = keys w u
      end
  end.
Proof.
  intros H. apply handleNewKey_inv in H.
  destruct H as [(Hh & -> & ->)
                |[(f & s & Hh & Hdel & HK & ->)|(f & Hh & Hdel & -> & ->)]];
    rewrite Hh.
  - repeat split. now apply trace_app.
  - destruct f as [err|err|]; simpl in Hdel; try discriminate.
    rewrite Hdel. simpl handleError. rewrite Hdel.
    apply deleteAccessKey_spec in HK.
    destruct HK as (Hj & _ & _ & _ & Hk & He & _).
    exists (okOf s). repeat split.
    + apply trace_app. rewrite Hj. simpl. now rewrite <- app_assoc.
    + destruct s as [a|e]; simpl; [reflexivity|].
      unfold firstError. simpl. f_equal. now apply He.
    + exact Hk.
  - destruct f as [err|err|]; simpl in Hdel |- *; try rewrite Hdel;
      repeat split; now apply trace_app.
Qed.

Lemma handleNewKey_outcomes_witness :
  exists ok : bool,
    fst (KeyRotator.handleNewKey
           (mkKeyRotator (failingFrom 0) rejectingHandler) testUser
           (mkKey testUser 0 Active EmptyString) (worldWith oneInactive))
    = Rejected (if ok then HandlerFailure "Could not handle new key"%string
                else deleteError (failingFrom 0) 0).
Proof.
  pose proof (handleNewKey_outcomes
                (mkKeyRotator (failingFrom 0) rejectingHandler) testUser
                (mkKey testUser 0 Active EmptyString) (worldWith oneInactive)
                _ _ eq_refl) as H.
  simpl in H. destruct H as (ok & _ & Hr & _).
  exists ok. exact Hr.
Defined.

(** *** [deleteKeys]: nothing to delete, and batches one after the other *)

(** X5.  When no key of the list matches the filter (or the list is empty),
    [deleteKeys] resolves without a request: the service is left exactly as it
    was, also when it would have failed every request. *)
Theorem deleteKeys_nothing this user K filter w :
  match filter with Some P => List.filter P K | None => K end = [] ->
  KeyRotator.deleteKeys this user K filter w = (Resolved tt, w).
Proof.
  intros H. rewrite deleteKeys_eq. unfold subset. rewrite H. reflexivity.
Qed.

Lemma deleteKeys_nothing_witness :
  KeyRotator.deleteKeys (mkKeyRotator (failingFrom 0) keyHandler) testUser
    [createKey 0 Active; createKey 1 Active] (Some isInactive)
    (worldWith [createKey 0 Active; createKey 1 Active])
  = (Resolved tt, worldWith [createKey 0 Active; createKey 1 Active]).
Proof.
  apply (deleteKeys_nothing (mkKeyRotator (failingFrom 0) keyHandler)).
  reflexivity.
Defined.

Lemma forEach_app {A B} (f : A -> Promise B) l1 l2 : forall w,
  forEach (l1 ++ l2) f w =
  let (ss1, w1) := forEach l1 f w in
  let (ss2, w2) := forEach l2 f w1 in
  (ss1 ++ ss2, w2).
Proof.
  induction l1 as [|a l1 IH]; intros w; simpl.
  - now destruct (forEach l2 f w).
  - destruct (f a w) as [s w1]. rewrite IH.
    destruct (forEach l1 f w1) as [ss1 w2].
    now destruct (forEach l2 f w2).
Qed.

Lemma all_settled_app {A} (ss1 ss2 : list (Settled A)) :
  all_settled (ss1 ++ ss2) =
  match all_settled ss1, all_settled ss2 with
  | Rejected e, _ => Rejected e
  | Resolved _, Rejected e => Rejected e
  | Resolved v1, Resolved v2 => Resolved (v1 ++ v2)
  end.
Proof.
  induction ss1 as [|[a|e] ss1 IH]; simpl.
  - now destruct (all_settled ss2).
  - rewrite IH. destruct (all_settled ss1); [|reflexivity].
    now destruct (all_settled ss2).
  - reflexivity.
Qed.

(** X6.  [deleteKeys] over two lists one after the other makes the requests
    of [deleteKeys] over the first and then, whatever became of it, of
    [deleteKeys] over the second, and leaves what they leave.  It resolves
    exactly when both resolve, and an error it rejects with is an error one
    of the two rejects with; which one, when both reject, is not said. *)
Theorem deleteKeys_app this user l1 l2 filter w :
  let (r1, w1) := KeyRotator.deleteKeys this user l1 filter w in
  let (r2, w2) := KeyRotator.deleteKeys this user l2 filter w1 in
  exists r,
    KeyRotator.deleteKeys this user (l1 ++ l2) filter w = (r, w2) /\
    (r = Resolved tt <-> r1 = Resolved tt /\ r2 = Resolved tt) /\
    (forall e, r = Rejected e -> r1 = Rejected e \/ r2 = Rejected e).
Proof.
  rewrite !deleteKeys_eq.
  assert (Hs : subset filter (l1 ++ l2) = subset filter l1 ++ subset filter l2).
  { destruct filter as [P|]; simpl; [apply filter_app|reflexivity]. }
  rewrite Hs, forEach_app.
  destruct (forEach (subset filter l1) _ w) as [ss1 w1].
  rewrite deleteKeys_eq.
  destruct (forEach (subset filter l2) _ w1) as [ss2 w2].
  rewrite all_settled_app.
  destruct (all_settled ss1) as [v1|e1], (all_settled ss2) as [v2|e2];
    eexists; (split; [reflexivity|]); split;
    try (split; [intros H|intros [H1 H2]]; try discriminate; auto; fail);
    intros e H; inversion H; auto.
Qed.

(** *** The order of the steps of a run *)

Lemma deletions_no_handle user l oks :
  filter isHandle (deletions user l oks) = [].
Proof.
  unfold deletions. induction (combine l oks) as [|x c IH]; simpl; auto.
Qed.

Lemma in_deletions_not_handle user l oks id ok :
  ~ In (EvHandle id ok) (deletions user l oks).
Proof.
  intros H. apply in_deletions in H. destruct H as (k & b & _ & H).
  discriminate.
Qed.

(** X7.  In one run the creation is requested at most once and the handler is
    called at most once: right after the listing and the creation of the very
    key it is given, before any deletion, and it accepts or rejects as
    [newKeyHandler] decides for that key. *)
Theorem handler_called_once this user w r w' :
  KeyRotator.rotateKeys this user w = (r, w') ->
  List.length (filter isCreate (trace w w')) <= 1 /\
  List.length (filter isHandle (trace w w')) <= 1 /\
  forall id ok, In (EvHandle id ok) (trace w w') ->
    id = issued w /\
    (ok = true <->
     newKeyHandler this (mkKey user id Active EmptyString) = None) /\
    exists rest,
      trace w w' = EvList user true :: EvCreate user (Some id)
                     :: EvHandle id ok :: rest /\
      filter isDelete rest = rest.
Proof.
  intros H. apply path_trace in H.
  destruct H as (p & Hv & Htr & _). rewrite Htr.
  assert (Hdel : forall l oks,
            filter isDelete (deletions user l oks) = deletions user l oks).
  { intros l oks. unfold deletions.
    induction (combine l oks) as [|x c IH]; simpl; [reflexivity|].
    now rewrite IH. }
  destruct p; simpl.
  - split; [auto|]. split; [auto|].
    intros id ok [Hev|[]]. discriminate.
  - rewrite deletions_no_create, deletions_no_handle. simpl.
    split; [auto|]. split; [auto|].
    intros id ok [Hev|[Hev|Hev]]; try discriminate.
    now apply in_deletions_not_handle in Hev.
  - rewrite deletions_no_create, deletions_no_handle. simpl.
    destruct Hv as (_ & _ & Hh). split; [auto|]. split; [auto|].
    intros id ok' [Hev|[Hev|[Hev|[Hev|Hev]]]]; try discriminate.
    + inversion Hev; subst. split; [reflexivity|]. split.
      * split; [discriminate|]. intros Hn.
        destruct Hh as (f & Hf & _). congruence.
      * eexists. split; [reflexivity|]. simpl. now rewrite Hdel.
    + now apply in_deletions_not_handle in Hev.
  - rewrite !filter_app, !deletions_no_create, !deletions_no_handle. simpl.
    destruct Hv as (_ & _ & _ & _ & Hh). split; [auto|]. split; [auto|].
    intros id ok [Hev|[Hev|[Hev|Hev]]]; try discriminate.
    + inversion Hev; subst. split; [reflexivity|]. split; [tauto|].
      eexists. split; [reflexivity|]. now rewrite filter_app, !Hdel.
    + apply in_app_or in Hev.
      destruct Hev as [Hev|Hev]; now apply in_deletions_not_handle in Hev.
  - rewrite deletions_no_create, deletions_no_handle. simpl.
    destruct Hv as (_ & _ & _ & Hh). split; [auto|]. split; [auto|].
    intros id ok [Hev|[Hev|[Hev|Hev]]]; try discriminate.
    + inversion Hev; subst. split; [reflexivity|]. split; [tauto|].
      eexists. split; [reflexivity|]. exact (Hdel _ _).
    + now apply in_deletions_not_handle in Hev.
  - rewrite deletions_no_create, deletions_no_handle. simpl.
    destruct Hv as (_ & _ & Hh). split; [auto|]. split; [auto|].
    intros id ok [Hev|[Hev|[Hev|Hev]]]; try discriminate.
    + inversion Hev; subst. split; [reflexivity|]. split.
      * split; [discriminate|]. intros Hn.
        destruct Hh as (f & Hf & _). congruence.
      * eexists. split; [reflexivity|]. exact (Hdel _ _).
    + now apply in_deletions_not_handle in Hev.
Qed.

Lemma handler_called_once_witness :
  List.length
    (filter isHandle
       (trace (worldWith oneInactive)
          (snd (KeyRotator.rotateKeys (mkKeyRotator mockIAM rejectingHandler)
                  testUser (worldWith oneInactive))))) <= 1.
Proof.
  exact (proj1 (proj2 (handler_called_once
                         (mkKeyRotator mockIAM rejectingHandler) testUser
                         (worldWith oneInactive) _ _ eq_refl))).
Defined.

(** *** What a rejected run leaves behind *)

(** X8.  A run that rejects adds no key but, possibly, the one it created; and
    that key is left behind exactly when the handler had accepted it, or the
    request to delete it failed, or the handler had failed and no deletion
    of the key was requested.  The last is the case exactly when the
    handler threw, returned no promise, or rejected with a reason on which
    [JSON.stringify] throws. *)
Theorem rejected_run_leftover this user w e w' :
  wellFormed user w ->
  KeyRotator.rotateKeys this user w = (Rejected e, w') ->
  (forall k, In k (keys w' user) ->
     In k (keys w user) \/ k = mkMeta user (issued w) Active) /\
  (In (mkMeta user (issued w) Active) (keys w' user) <->
   In (EvHandle (issued w) true) (trace w w') \/
   In (EvDelete user (issued w) false) (trace w w') \/
   (In (EvHandle (issued w) false) (trace w w') /\
    forall ok, ~ In (EvDelete user (issued w) ok) (trace w w'))) /\
  (In (EvHandle (issued w) false) (trace w w') ->
   ((forall ok, ~ In (EvDelete user (issued w) ok) (trace w w')) <->
    exists f,
      newKeyHandler this (mkKey user (issued w) Active EmptyString) = Some f /\
      match f with
      | Rejects err => serialisable err = false
      | Throws _ | NoPromise => True
      end)).
Proof.
  intros Hwf H. apply path_trace in H.
  destruct H as (p & Hv & Htr & Hk & Hr & _). rewrite Htr, Hk.
  assert (Hsub : forall k, In k (filter isInactive (keys w user)) ->
                           In k (keys w user)).
  { intros k Hk'. apply filter_In in Hk'. tauto. }
  assert (Hnew : In (mkMeta user (issued w) Active)
                    (keys w user ++ [mkMeta user (issued w) Active])).
  { apply in_or_app. right. now left. }
  assert (Hfresh : ~ In (mkMeta user (issued w) Active) (keys w user)).
  { intros Hin. now apply (fresh_id user w _ Hwf Hin). }
  assert (Hesc : forall f,
    deletesKey f = false <->
    match f with
    | Rejects err => serialisable err = false
    | Throws _ | NoPromise => True
    end).
  { intros [err|err|]; simpl; tauto. }
  split; [|split].
  - intros k Hin. apply pathKeys_incl in Hin. tauto.
  - destruct p; simpl in *; try discriminate.
    + split; [tauto|].
      intros [[Hev|[]]|[[Hev|[]]|[[Hev|[]] _]]]; discriminate.
    + split.
      * intros Hin. apply in_without in Hin. tauto.
      * intros [[Hev|[Hev|Hev]]|[[Hev|[Hev|Hev]]|[[Hev|[Hev|Hev]] _]]];
          try discriminate.
        -- now apply in_deletions_not_handle in Hev.
        -- now apply fresh_not_deleted in Hev.
        -- now apply in_deletions_not_handle in Hev.
    + split.
      * intros Hin. apply in_without in Hin. destruct Hin as [Hin _].
        apply in_without in Hin. destruct Hin as [_ Hn].
        destruct ok; [elim Hn; now left|]. right. left. auto 6.
      * intros [[Hev|[Hev|[Hev|[Hev|Hev]]]]
               |[[Hev|[Hev|[Hev|[Hev|Hev]]]]|[_ Hnone]]];
          try discriminate.
        -- now apply in_deletions_not_handle in Hev.
        -- inversion Hev; subst. apply new_key_survives; auto.
           now rewrite without_nil.
        -- now apply fresh_not_deleted in Hev.
        -- exfalso. apply (Hnone ok). auto 6.
    + split; [intros _; left; auto|]. intros _.
      apply new_key_survives; auto. apply new_key_survives; auto.
    + split.
      * intros _. right. right. split; [auto|].
        intros ok [Hev|[Hev|[Hev|Hev]]]; try discriminate.
        now apply fresh_not_deleted in Hev.
      * intros _. apply new_key_survives; auto.
  - intros Hfail. apply handler_rejected_path in Hfail.
    destruct Hfail as (_ & [(ok & oks & ->)|(oks & ->)]); simpl in *.
    + destruct Hv as (_ & _ & f & Hf & Hdel). split.
      * intros Hnone. exfalso. apply (Hnone ok). auto 6.
      * intros (f' & Hf' & Hesc'). apply Hesc in Hesc'.
        rewrite Hf in Hf'. inversion Hf'; subst. congruence.
    + destruct Hv as (_ & _ & f & Hf & Hdel). split.
      * intros _. exists f. split; [exact Hf|]. now apply Hesc.
      * intros _ ok [Hev|[Hev|[Hev|Hev]]]; try discriminate.
        now apply fresh_not_deleted in Hev.
Qed.

Lemma rejected_run_leftover_witness :
  In (mkMeta testUser 1 Active)
     (keys (snd (KeyRotator.rotateKeys
                   (mkKeyRotator (failingFrom 2) rejectingHandler) testUser
                   (worldWith oneInactive))) testUser).
Proof.
  apply (proj1 (proj2 (rejected_run_leftover
                         (mkKeyRotator (failingFrom 2) rejectingHandler)
                         testUser (worldWith oneInactive) (ServiceFailure 3) _
                         (wellFormed_worldWith_one Inactive) eq_refl))).
  right. left. vm_compute. auto.
Defined.

(** *** Runs against a service that answers *)

Lemma allOk_all_true (l : list AccessKeyMetadata) : forall oks,
  List.length oks = List.length l -> allOk oks = true ->
  oks = map (fun _ => true) l.
Proof.
  induction l as [|k l IH]; intros [|ok oks] Hl Hok; try discriminate.
  - reflexivity.
  - simpl in *. apply andb_true_iff in Hok. destruct Hok as [-> Hok].
    f_equal. apply IH; [lia|exact Hok].
Qed.

Lemma short_batch_ok i user (l : list AccessKeyMetadata) w ss w' :
  noFaults i -> List.length l < maxKeys ->
  (forall k, In k l -> In k (keys w user)) ->
  forEach l (fun k => deleteAccessKey i user (AccessKeyId k)) w = (ss, w') ->
  allOk (map okOf ss) = true.
Proof.
  unfold maxKeys. intros Hnf Hlt Hin H.
  destruct l as [|k [|k' l]]; simpl in *; try lia.
  - inversion H; subst. reflexivity.
  - destruct (deleteAccessKey i user (AccessKeyId k) w) as [s w1] eqn:E.
    pose proof (delete_present_ok i user k w s w1 Hnf
                  (Hin k (or_introl eq_refl)) E) as Hok.
    inversion H; subst. simpl. rewrite Hok. reflexivity.
Qed.

Lemma below_limit_resolves this user w :
  wellFormed user w ->
  List.length (keys w user) < maxKeys ->
  noFaults (iam this) ->
  (forall key, newKeyHandler this key = None) ->
  exists w',
    KeyRotator.rotateKeys this user w = (Resolved tt, w') /\
    keys w' user = [mkMeta user (issued w) ACTIVE].
Proof.
  intros Hwf Hlt Hnf Hh.
  destruct (KeyRotator.rotateKeys this user w) as [r w'] eqn:E.
  assert (Hr : r = Resolved tt).
  { pose proof (rotateKeys_Run _ _ _ _ _ E) as HR.
    destruct HR as
      [ e w1 HL
      | listed w1 e w2 ss w3 HL HC HD
      | listed w1 key w2 f s w3 ss w4 HL HC HH Hdel HK HD
      | listed w1 key w2 f ss w3 HL HC HH Hdel HD
      | listed w1 key w2 ss e w3 ss' w4 HL HC HH HD HA HD'
      | listed w1 key w2 ss vs w3 HL HC HH HD HA ]; try reflexivity; exfalso.
    - apply listAccessKeys_spec in HL. destruct HL as (_ & _ & Hf).
      rewrite Hnf in Hf. discriminate.
    - apply list_resolved in HL. destruct HL as (-> & -> & _).
      apply create_rejected in HC. destruct HC as (_ & _ & [Hf|Hlim]).
      + rewrite Hnf in Hf. discriminate.
      + simpl in Hlim. lia.
    - rewrite Hh in HH. discriminate.
    - rewrite Hh in HH. discriminate.
    - apply list_resolved in HL. destruct HL as (-> & -> & _).
      apply create_resolved in HC. destruct HC as (_ & _ & _ & _ & _ & Hk & _).
      apply allOk_settled in HA.
      assert (Hpres : forall k, In k (keys w user) ->
                In k (keys (record (EvHandle (keyAccessKeyId key) true) w2)
                        user)).
      { intros k Hin. simpl. rewrite Hk. apply in_or_app. now left. }
      rewrite (short_batch_ok _ _ _ _ _ _ Hnf Hlt Hpres HD) in HA.
      discriminate. }
  subst r. exists w'. split; [reflexivity|].
  apply path_trace in E. destruct E as (p & Hv & _ & Hk & Hr & _).
  symmetry in Hr. apply succeeded_only in Hr. destruct Hr as [oks ->].
  destruct Hv as (Hl & Hok & _). rewrite Hk. now apply success_keys.
Qed.

(** X9.  Below the limit of two keys, with a service that answers and a
    handler that accepts, [rotateKeys] resolves: it lists, creates, hands the
    key to the handler and then deletes the listed keys, every step
    succeeding, and leaves exactly the created key, active. *)
Theorem rotateKeys_below_limit this user w :
  wellFormed user w ->
  List.length (keys w user) < maxKeys ->
  noFaults (iam this) ->
  (forall key, newKeyHandler this key = None) ->
  exists w',
    KeyRotator.rotateKeys this user w = (Resolved tt, w') /\
    keys w' user = [mkMeta user (issued w) ACTIVE] /\
    trace w w' =
      EvList user true :: EvCreate user (Some (issued w))
        :: EvHandle (issued w) true
        :: deletions user (keys w user) (map (fun _ => true) (keys w user)).
Proof.
  intros Hwf Hlt Hnf Hh.
  destruct (below_limit_resolves this user w Hwf Hlt Hnf Hh) as (w' & E & Hk).
  exists w'. split; [exact E|]. split; [exact Hk|].
  apply path_trace in E. destruct E as (p & Hv & Htr & _ & Hr & _).
  symmetry in Hr. apply succeeded_only in Hr. destruct Hr as [oks ->].
  destruct Hv as (Hl & Hok & _).
  rewrite Htr. simpl. now rewrite (allOk_all_true _ _ Hl Hok).
Qed.

Lemma rotateKeys_below_limit_witness :
  exists w',
    KeyRotator.rotateKeys (mkKeyRotator mockIAM keyHandler) testUser
      (worldWith oneInactive) = (Resolved tt, w') /\
    keys w' testUser = [mkMeta testUser 1 ACTIVE].
Proof.
  destruct (rotateKeys_below_limit (mkKeyRotator mockIAM keyHandler) testUser
              (worldWith oneInactive) (wellFormed_worldWith_one Inactive))
    as (w' & Hr & Hk & _).
  - simpl. unfold maxKeys. lia.
  - intros n. reflexivity.
  - intros key. reflexivity.
  - exists w'. split; [exact Hr|exact Hk].
Defined.

(** X10.  At the limit with no inactive key among the listed ones,
    [rotateKeys] always rejects, whatever the service and the handler do: it
    requests nothing after the refused creation, never calls the handler, and
    leaves the keys of every user as they were. *)
Theorem rotateKeys_stuck_at_limit this user w :
  maxKeys <= List.length (keys w user) ->
  filter isInactive (keys w user) = [] ->
  exists e w',
    KeyRotator.rotateKeys this user w = (Rejected e, w') /\
    (trace w w' = [EvList user false] \/
     trace w w' = [EvList user true; EvCreate user None]) /\
    (forall u, keys w' u = keys w u) /\
    issued w' = issued w.
Proof.
  intros Hcap Hnone.
  destruct (KeyRotator.rotateKeys this user w) as [r w'] eqn:E.
  apply rotateKeys_path in E.
  destruct E as (p & Hv & Hj & Hk & Ho & Hr & Hi).
  assert (Hall : keys w' user = keys w user -> forall u, keys w' u = keys w u).
  { intros Hsame u. destruct (string_dec u user) as [->|Hu]; auto. }
  destruct p; simpl in *.
  - eexists. exists w'. subst r. split; [reflexivity|].
    split; [left; now apply trace_app|]. split; [now apply Hall|lia].
  - destruct Hv as (Hl & _). rewrite Hnone in *.
    destruct oks; [|discriminate]. unfold deletedIds in Hk. simpl in Hk.
    rewrite without_nil in Hk.
    eexists. exists w'. subst r. split; [reflexivity|].
    split; [right; now apply trace_app|]. split; [now apply Hall|lia].
  - destruct Hv as (_ & Hlt & _). lia.
  - destruct Hv as (_ & _ & _ & Hlt & _). lia.
  - destruct Hv as (_ & _ & Hlt & _). lia.
  - destruct Hv as (_ & Hlt & _). lia.
Qed.

Lemma rotateKeys_stuck_at_limit_witness :
  exists e w',
    KeyRotator.rotateKeys (mkKeyRotator mockIAM keyHandler) testUser
      (worldWith [createKey 0 Active; createKey 1 Active]) = (Rejected e, w') /\
    keys w' testUser = [createKey 0 Active; createKey 1 Active].
Proof.
  destruct (rotateKeys_stuck_at_limit (mkKeyRotator mockIAM keyHandler)
              testUser (worldWith [createKey 0 Active; createKey 1 Active]))
    as (e & w' & Hr & _ & Hk & _).
  - simpl. unfold maxKeys. lia.
  - reflexivity.
  - exists e, w'. split; [exact Hr|]. rewrite Hk. reflexivity.
Defined.

(** *** Healing on the next run *)

Lemma batch_ok_present i user (l : list AccessKeyMetadata) : forall w ss w',
  noFaults i -> NoDup (ids l) ->
  (forall k, In k l -> In k (keys w user)) ->
  forEach l (fun k => deleteAccessKey i user (AccessKeyId k)) w = (ss, w') ->
  allOk (map okOf ss) = true.
Proof.
  induction l as [|k l IH]; intros w ss w' Hnf Hnd Hin H; simpl in H.
  - inversion H; subst. reflexivity.
  - destruct (deleteAccessKey i user (AccessKeyId k) w) as [s w1] eqn:E1.
    destruct (forEach l _ w1) as [ss' w2] eqn:E2.
    pose proof (delete_present_ok i user k w s w1 Hnf
                  (Hin k (or_introl eq_refl)) E1) as Hok.
    inversion H as [[Hss Hw]]. clear H Hss Hw. simpl. rewrite Hok. simpl.
    inversion Hnd as [|? ? Hnot Hnd']; subst.
    apply (IH w1 ss' w2 Hnf Hnd'); [|exact E2].
    intros k' Hk'. apply deleteAccessKey_spec in E1.
    destruct E1 as (_ & _ & _ & _ & Hk & _). rewrite Hk, Hok.
    apply in_without. split; [apply Hin; now right|].
    intros [Hd|[]]. apply Hnot. rewrite Hd. now apply in_map.
Qed.

Lemma NoDup_ids_filter (f : AccessKeyMetadata -> bool) ks :
  NoDup (ids ks) -> NoDup (ids (filter f ks)).
Proof.
  unfold ids. induction ks as [|k ks IH]; simpl; intros Hnd; [constructor|].
  inversion Hnd as [|? ? Hnot Hnd']; subst.
  destruct (f k); simpl; [|now apply IH].
  constructor; [|now apply IH].
  intros Hin. apply Hnot. apply in_map_iff in Hin.
  destruct Hin as (k' & Hid & Hk'). apply filter_In in Hk'.
  rewrite <- Hid. apply in_map. tauto.
Qed.

Lemma without_inactive ks :
  NoDup (ids ks) ->
  without (ids (filter isInactive ks)) ks
  = filter (fun k => negb (isInactive k)) ks.
Proof.
  intros Hnd. unfold without. apply filter_ext_in. intros k Hin. f_equal.
  destruct (isInactive k) eqn:Hi.
  - apply existsb_exists. exists (AccessKeyId k). split; [|apply Nat.eqb_refl].
    unfold ids. apply in_map. apply filter_In. auto.
  - destruct (existsb _ _) eqn:Ex; [|reflexivity].
    apply existsb_exists in Ex. destruct Ex as (x & Hx & Hxe).
    apply Nat.eqb_eq in Hxe. subst x. unfold ids in Hx.
    apply in_map_iff in Hx. destruct Hx as (k' & Hid & Hk').
    apply filter_In in Hk'. destruct Hk' as [Hk' Hi'].
    assert (k' = k) by (eapply same_id_same_key; eassumption).
    subst. congruence.
Qed.

Lemma run_wellFormed this user w r w' :
  KeyRotator.rotateKeys this user w = (r, w') ->
  wellFormed user w -> wellFormed user w'.
Proof.
  intros H Hwf. apply path_trace in H.
  destruct H as (p & Hv & _ & Hk & _ & Hi).
  unfold wellFormed. rewrite Hk. split.
  - now apply pathKeys_NoDup.
  - apply Forall_forall. intros k Hin.
    apply pathKeys_incl in Hin. rewrite Hi.
    destruct Hin as [Hin|[Hc ->]].
    + destruct Hwf as [_ Hlt]. rewrite Forall_forall in Hlt.
      specialize (Hlt k Hin). lia.
    + simpl. lia.
Qed.

(** X11.  The self-healing shows at the next run: at the limit, with fewer
    than two keys that are not inactive, a service that answers and a handler
    that accepts, a first run rejects and leaves the keys that are not
    inactive, and a second run then resolves and leaves exactly the key it
    creates. *)
Theorem rotateKeys_heals_on_next_run this user w :
  wellFormed user w ->
  noFaults (iam this) ->
  (forall key, newKeyHandler this key = None) ->
  maxKeys <= List.length (keys w user) ->
  List.length (filter (fun k => negb (isInactive k)) (keys w user)) < maxKeys ->
  exists w1 w2,
    KeyRotator.rotateKeys this user w
      = (Rejected (LimitExceeded (clock w + 1)), w1) /\
    keys w1 user = filter (fun k => negb (isInactive k)) (keys w user) /\
    KeyRotator.rotateKeys this user w1 = (Resolved tt, w2) /\
    keys w2 user = [mkMeta user (issued w) ACTIVE].
Proof.
  intros Hwf Hnf Hh Hcap Hfew.
  destruct (KeyRotator.rotateKeys this user w) as [r w1] eqn:E.
  pose proof (run_wellFormed _ _ _ _ _ E Hwf) as Hwf1.
  assert (Hfirst : r = Rejected (LimitExceeded (clock w + 1)) /\
                   keys w1 user
                   = filter (fun k => negb (isInactive k)) (keys w user) /\
                   issued w1 = issued w).
  { pose proof (rotateKeys_Run _ _ _ _ _ E) as HR.
    destruct HR as
      [ e w0 HL
      | listed w0 e w2 ss w3 HL HC HD
      | listed w0 key w2 f s w3 ss w4 HL HC HH Hdel HK HD
      | listed w0 key w2 f ss w3 HL HC HH Hdel HD
      | listed w0 key w2 ss e w3 ss' w4 HL HC HH HD HA HD'
      | listed w0 key w2 ss vs w3 HL HC HH HD HA ].
    - apply listAccessKeys_spec in HL. destruct HL as (_ & _ & Hf).
      rewrite Hnf in Hf. discriminate.
    - apply list_resolved in HL. destruct HL as (-> & -> & _).
      apply create_rejected in HC. destruct HC as (-> & -> & _).
      assert (Hok : allOk (map okOf ss) = true).
      { eapply batch_ok_present; [exact Hnf| | |exact HD].
        - apply NoDup_ids_filter. exact (proj1 Hwf).
        - intros k Hk. apply filter_In in Hk. simpl. tauto. }
      apply batch_spec in HD.
      destruct HD as (Hl & _ & Hi & _ & _ & Hk & Hfe).
      rewrite (deletedIds_allOk _ _ Hl Hok) in Hk. simpl in Hk, Hi.
      rewrite Hfe. apply firstFalse_allOk in Hok. rewrite Hok.
      unfold createError. simpl. rewrite Hnf.
      rewrite Nat.add_1_r. repeat split; auto.
      rewrite Hk. apply without_inactive. exact (proj1 Hwf).
    - apply list_resolved in HL. destruct HL as (-> & -> & _).
      apply create_resolved in HC. destruct HC as (_ & Hlt & _).
      simpl in Hlt. lia.
    - apply list_resolved in HL. destruct HL as (-> & -> & _).
      apply create_resolved in HC. destruct HC as (_ & Hlt & _).
      simpl in Hlt. lia.
    - apply list_resolved in HL. destruct HL as (-> & -> & _).
      apply create_resolved in HC. destruct HC as (_ & Hlt & _).
      simpl in Hlt. lia.
    - apply list_resolved in HL. destruct HL as (-> & -> & _).
      apply create_resolved in HC. destruct HC as (_ & Hlt & _).
      simpl in Hlt. lia. }
  destruct Hfirst as (-> & Hk1 & Hi1).
  destruct (below_limit_resolves this user w1 Hwf1) as (w2 & E2 & Hk2); auto.
  { now rewrite Hk1. }
  exists w1, w2. rewrite Hi1 in Hk2. auto.
Qed.

Lemma rotateKeys_heals_on_next_run_witness :
  exists w1 w2,
    KeyRotator.rotateKeys (mkKeyRotator mockIAM keyHandler) testUser
      (worldWith [createKey 0 Inactive; createKey 1 Active])
      = (Rejected (LimitExceeded 1), w1) /\
    KeyRotator.rotateKeys (mkKeyRotator mockIAM keyHandler) testUser w1
      = (Resolved tt, w2) /\
    keys w2 testUser = [createKey 2 Active].
Proof.
  destruct (rotateKeys_heals_on_next_run (mkKeyRotator mockIAM keyHandler)
              testUser (worldWith [createKey 0 Inactive; createKey 1 Active])
              (wellFormed_worldWith_two Inactive Active))
    as (w1 & w2 & H1 & _ & H2 & Hk).
  - intros n. reflexivity.
  - intros key. reflexivity.
  - simpl. unfold maxKeys. lia.
  - simpl. unfold maxKeys. lia.
  - exists w1, w2. auto.
Defined.

(* ================================================================= *)
(** ** The answers of the service *)

Lemma existsb_hasId id ks :
  existsb (hasId id) ks = existsb (fun x => x =? id) (ids ks).
Proof.
  unfold ids, hasId. induction ks as [|k ks IH]; simpl; [reflexivity|].
  now rewrite IH.
Qed.

Lemma delete_outcome i user id w r w' :
  deleteAccessKey i user id w = (r, w') ->
  okOf r = deleteOutcome i (clock w) (ids (keys w user)) id.
Proof.
  unfold deleteAccessKey, deleteOutcome. rewrite <- existsb_hasId.
  destruct (faults i (clock w)); [intros H; inversion H; reflexivity|].
  destruct (existsb (hasId id) (keys w user));
    [intros H; inversion H; reflexivity|].
  destruct (strictDelete i); intros H; inversion H; reflexivity.
Qed.

Lemma ids_without_one id ks :
  ids (without [id] ks) = filter (fun x => negb (x =? id)) (ids ks).
Proof.
  rewrite <- without_single. unfold ids, hasId.
  induction ks as [|k ks IH]; simpl; [reflexivity|].
  destruct (AccessKeyId k =? id); simpl; now rewrite IH.
Qed.

Lemma batch_outcomes i user l : forall w ss w',
  forEach l (fun k => deleteAccessKey i user (AccessKeyId k)) w = (ss, w') ->
  map okOf ss = batchOutcomes i (clock w) (ids (keys w user)) l.
Proof.
  induction l as [|k l IH]; intros w ss w' H; simpl in H.
  - inversion H; subst. reflexivity.
  - destruct (deleteAccessKey i user (AccessKeyId k) w) as [s w1] eqn:E1.
    destruct (forEach l _ w1) as [ss' w2] eqn:E2.
    inversion H as [[Hss Hw]]. clear H Hss Hw. simpl.
    pose proof (delete_outcome _ _ _ _ _ _ E1) as Hok.
    apply deleteAccessKey_spec in E1.
    destruct E1 as (_ & _ & Hc & _ & Hk & _).
    rewrite (IH _ _ _ E2), Hc, Hk, <- Hok. f_equal. f_equal.
    destruct (okOf s); [apply ids_without_one|now rewrite without_nil].
Qed.


(* ================================================================= *)
(** ** The runs of revision 1.1.1 *)

Lemma deleteKeys_111_eq this user l filter w :
  KeyRotator_1_1_1.deleteKeys this user l filter w =
  let (ss, w') :=
    forEach (subset filter l)
      (fun k => deleteAccessKey (iam this) user (AccessKeyId k)) w in
  (all_settled ss, w').
Proof.
  unfold KeyRotator_1_1_1.deleteKeys, Promise_all. fold (subset filter l).
  now rewrite (forEach_ext _ _ _ (deleteKey_111_eq this user)).
Qed.

(** What follows the creation of the key in revision 1.1.1. *)
Lemma after_creation_111_spec this user listed key w r w' :
  (KeyRotator_1_1_1.handleNewKey this user key
     .then (fun _ => KeyRotator_1_1_1.deleteKeys this user listed None)
     .then (fun _ => resolve tt)) w = (r, w') ->
  (newKeyHandler this key = None /\
   exists oks,
     oks = batchOutcomes (iam this) (clock w) (ids (keys w user)) listed /\
     List.length oks = List.length listed /\
     journal w' = journal w ++ EvHandle (keyAccessKeyId key) true
                              :: deletions user listed oks /\
     keys w' user = without (deletedIds listed oks) (keys w user) /\
     (forall u, u <> user -> keys w' u = keys w u) /\
     issued w' = issued w /\
     r = match firstFalse oks with
         | Some j => Rejected (deleteError (iam this) (clock w + j))
         | None => Resolved tt
         end) \/
  (exists f ok,
     newKeyHandler this key = Some f /\ deletesKey f = true /\
     ok = deleteOutcome (iam this) (clock w) (ids (keys w user))
            (keyAccessKeyId key) /\
     journal w' = journal w ++ [EvHandle (keyAccessKeyId key) false;
                                EvDelete user (keyAccessKeyId key) ok] /\
     keys w' user
       = without (if ok then [keyAccessKeyId key] else []) (keys w user) /\
     (forall u, u <> user -> keys w' u = keys w u) /\
     issued w' = issued w /\
     r = Rejected (if ok then handleError f
                   else deleteError (iam this) (clock w))) \/
  (exists f,
     newKeyHandler this key = Some f /\ deletesKey f = false /\
     journal w' = journal w ++ [EvHandle (keyAccessKeyId key) false] /\
     (forall u, keys w' u = keys w u) /\
     issued w' = issued w /\
     r = Rejected (handleError f)).
Proof.
  intros H. rewrite then_assoc in H. apply then_inv in H.
  destruct H as [(a & w1 & HH & HD)|(e & HH & ->)];
    apply handleNewKey_111_inv in HH;
    destruct HH as [(Hh & Hr & Hw)
                   |[(f & s & Hh & Hdel & HK & Hr)|(f & Hh & Hdel & Hw & Hr)]];
    try discriminate.
  - left. split; [exact Hh|]. subst w1.
    apply then_inv in HD. rewrite deleteKeys_111_eq in HD. simpl subset in HD.
    destruct (forEach listed _ _) as [ss w2] eqn:EF.
    assert (Hw : w2 = w' /\
                 r = match all_settled ss with
                     | Resolved _ => Resolved tt
                     | Rejected e => Rejected e
                     end).
    { destruct HD as [(a1 & w3 & HD & HR)|(e & HD & ->)].
      - apply resolve_inv in HR. destruct HR as [-> ->].
        inversion HD as [[Ha Hw2]]. rewrite Ha. auto.
      - inversion HD as [[Ha Hw2]]. rewrite Ha. auto. }
    destruct Hw as [-> ->].
    pose proof (batch_outcomes _ _ _ _ _ _ EF) as Hout.
    apply batch_spec in EF. destruct EF as (Hl & Hj & Hi & _ & Ho & Hk & Hfe).
    exists (map okOf ss). simpl in *. repeat split; auto.
    + rewrite Hj, <- app_assoc. reflexivity.
    + destruct (all_settled ss) as [vs|e] eqn:EA.
      * apply allOk_resolved in EA. apply firstFalse_allOk in EA.
        now rewrite EA.
      * specialize (Hfe e). unfold firstError in Hfe. rewrite EA in Hfe.
        pose proof (allOk_settled _ _ EA) as Hno.
        destruct (firstFalse (map okOf ss)) eqn:EF.
        -- now rewrite Hfe.
        -- apply firstFalse_allOk in EF. congruence.
  - right. left. inversion Hr; subst. clear Hr.
    pose proof (delete_outcome _ _ _ _ _ _ HK) as Hout.
    apply deleteAccessKey_spec in HK.
    destruct HK as (Hj & Hi & _ & Ho & Hk & He & _).
    exists f, (okOf s). simpl in *. repeat split; auto.
    + rewrite Hj, <- app_assoc. reflexivity.
    + destruct s as [a|e0]; simpl; [reflexivity|].
      unfold firstError. simpl. f_equal. now apply He.
  - right. right. inversion Hr; subst. exists f. simpl.
    repeat split; auto.
Qed.

(** The creation of the key in revision 1.1.1, with its self-healing. *)
Lemma createNewKey_111_spec this user listed w r w' :
  KeyRotator_1_1_1.createNewKey this user listed w = (r, w') ->
  let inactive := filter isInactive listed in
  let new := mkMeta user (issued w) Active in
  (r = Resolved (mkKey user (issued w) Active EmptyString) /\
   List.length (keys w user) < maxKeys /\
   journal w' = journal w ++ [EvCreate user (Some (issued w))] /\
   keys w' user = keys w user ++ [new] /\
   (forall u, u <> user -> keys w' u = keys w u) /\
   issued w' = S (issued w) /\ clock w' = clock w + 1) \/
  (exists oks,
     oks = batchOutcomes (iam this) (clock w + 1) (ids (keys w user))
             inactive /\
     List.length oks = List.length inactive /\
     (faults (iam this) (clock w) = true \/
      maxKeys <= List.length (keys w user)) /\
     (forall u, u <> user -> keys w' u = keys w u) /\
     ((allOk oks = false /\
       journal w' = journal w ++ EvCreate user None
                                :: deletions user inactive oks /\
       keys w' user = without (deletedIds inactive oks) (keys w user) /\
       issued w' = issued w /\
       r = Rejected match firstFalse oks with
                    | Some j => deleteError (iam this) (clock w + 1 + j)
                    | None => createError (iam this) (clock w)
                    end) \/
      (allOk oks = true /\
       (faults (iam this) (clock w + 1 + List.length inactive) = true \/
        maxKeys
        <= List.length (without (deletedIds inactive oks) (keys w user))) /\
       journal w' = journal w ++ EvCreate user None
                                :: deletions user inactive oks
                                   ++ [EvCreate user None] /\
       keys w' user = without (deletedIds inactive oks) (keys w user) /\
       issued w' = issued w /\
       r = Rejected (createError (iam this)
                       (clock w + 1 + List.length inactive))) \/
      (allOk oks = true /\
       List.length (without (deletedIds inactive oks) (keys w user))
         < maxKeys /\
       journal w' = journal w ++ EvCreate user None
                                :: deletions user inactive oks
                                   ++ [EvCreate user (Some (issued w))] /\
       keys w' user
         = without (deletedIds inactive oks) (keys w user) ++ [new] /\
       issued w' = S (issued w) /\
       clock w' = clock w + 2 + List.length inactive /\
       r = Resolved (mkKey user (issued w) Active EmptyString)))).
Proof.
  intros H inactive new. apply createNewKey_111_inv in H.
  destruct H as [(key & H & ->)|(e & w1 & H & HS)].
  - left. apply create_resolved in H.
    destruct H as (-> & Hlt & Hj & Hi & Hc & Hk & Ho).
    repeat split; auto. lia.
  - right. apply create_rejected in H. destruct H as (-> & -> & Hwhy).
    apply then_inv in HS. rewrite deleteKeys_111_eq in HS. simpl subset in HS.
    change (filter (fun key => isInactive key) listed) with inactive in HS.
    destruct (forEach inactive
                (fun k => deleteAccessKey (iam this) user (AccessKeyId k))
                (request (EvCreate user None) w)) as [ss w2] eqn:EF.
    pose proof (batch_outcomes _ _ _ _ _ _ EF) as Hout. simpl in Hout.
    rewrite <- Nat.add_1_r in Hout.
    pose proof (batch_spec _ _ _ _ _ _ EF) as (Hl & Hj & Hi & Hc & Ho & Hk & Hfe).
    simpl in Hj, Hi, Hc, Ho, Hk.
    exists (map okOf ss). split; [exact Hout|].
    split; [exact Hl|]. split; [exact Hwhy|].
    destruct HS as [(vs & w3 & HD & HK)|(e' & HD & ->)];
      inversion HD as [[HA Hw]]; subst w2.
    + (* the deletion completed: the creation is requested again *)
      pose proof (allOk_resolved _ _ HA) as Hok.
      rewrite createKey_111_eq in HK. destruct r as [key|e2].
      * apply create_resolved in HK.
        destruct HK as (-> & Hlt & Hj2 & Hi2 & Hc2 & Hk2 & Ho2).
        split; [intros u Hu; rewrite Ho2, Ho; auto|].
        right. right. rewrite Hi in *. rewrite Hk in *.
        repeat split; auto; try lia.
        rewrite Hj2, Hj, <- !app_assoc. reflexivity.
      * apply create_rejected in HK. destruct HK as (-> & -> & Hwhy2).
        split; [exact Ho|]. right. left. simpl.
        assert (Hcl : clock w3 = clock w + 1 + List.length inactive) by lia.
        rewrite Hcl, Hk in Hwhy2.
        repeat split; auto.
        { rewrite Hj, <- !app_assoc. reflexivity. }
        { rewrite Hc. apply f_equal.
          apply (f_equal (createError (iam this))). lia. }
    + (* a deletion failed *)
      split; [exact Ho|]. left.
      pose proof (allOk_settled _ _ HA) as Hno.
      repeat split; auto.
      * rewrite Hj, <- !app_assoc. reflexivity.
      * f_equal. specialize (Hfe e'). unfold firstError in Hfe.
        rewrite HA in Hfe.
        destruct (firstFalse (map okOf ss)) as [j|] eqn:EFF.
        -- rewrite Hfe. simpl.
           apply (f_equal (deleteError (iam this))). lia.
        -- apply firstFalse_allOk in EFF. congruence.
Qed.

(** Every run of revision 1.1.1 takes one of these paths, and the path
    tells its journal, the keys it leaves and its result. *)
Theorem rotateKeys_111_path this user w r w' :
  KeyRotator_1_1_1.rotateKeys this user w = (r, w') ->
  exists p,
    path111Valid this user w p /\
    journal w' = journal w ++ path111Trace user w p /\
    keys w' user = path111Keys user w p /\
    (forall u, u <> user -> keys w' u = keys w u) /\
    r = path111Result this user w p /\
    issued w' = issued w + created111 p.
Proof.
  intros H.
  unfold KeyRotator_1_1_1.rotateKeys in H. apply catch_inv in H.
  assert (H' : exists r0,
    (KeyRotator_1_1_1.getExistingKeys this user
       .then (fun keys => KeyRotator_1_1_1.performKeyRotation this user keys)) w
      = (r0, w') /\
    r = surfaced r0).
  { destruct H as [(a & H & ->)|(e & w1 & H & H1)]; [eauto|].
    apply surface_inv in H1. destruct H1; subst. eauto. }
  clear H. destruct H' as (r0 & H' & ->). rename r0 into r.
  assert (Hsd : forall n, surface (deleteError (iam this) n)
                          = deleteError (iam this) n).
  { intros n. apply surface_serialisable, serialisable_deleteError. }
  assert (Hsc : forall n, surface (createError (iam this) n)
                          = createError (iam this) n).
  { intros n. apply surface_serialisable, serialisable_createError. }
  apply then_inv in H'. rewrite getExistingKeys_111_eq in H'.
  destruct H' as [(listed & w1 & HL & H)|(e & HL & ->)].
  2:{ exists ListFailed111. apply listAccessKeys_spec in HL.
      destruct HL as (-> & -> & Hf). simpl. rewrite Nat.add_0_r.
      repeat split; auto. }
  apply list_resolved in HL. destruct HL as (-> & -> & _).
  unfold KeyRotator_1_1_1.performKeyRotation in H.
  rewrite then_assoc, then_assoc in H.
  set (w1 := request (EvList user true) w) in *.
  assert (Hj1 : journal w1 = journal w ++ [EvList user true]) by reflexivity.
  assert (Hk1 : forall u, keys w1 u = keys w u) by reflexivity.
  assert (Hi1 : issued w1 = issued w) by reflexivity.
  assert (Hc1 : clock w1 = S (clock w)) by reflexivity.
  assert (Hc2' : S (clock w) + 1 = clock w + 2) by lia.
  assert (Hc3' : forall n, S (clock w) + 1 + n = clock w + 2 + n)
    by (intros; lia).
  apply then_inv in H.
  destruct H as [(key & w2 & HC & HT)|(e & HC & ->)];
    apply createNewKey_111_spec in HC; cbv zeta in HC;
    rewrite ?Hk1, ?Hi1, ?Hc1, ?Hj1, ?Hc3', ?Hc2' in HC.
  - (* a key was created *)
    rewrite <- then_assoc in HT. apply after_creation_111_spec in HT.
    assert (Hstart : exists s,
      startValid this user w s /\
      key = mkKey user (issued w) Active EmptyString /\
      journal w2 = journal w ++ EvList user true :: startTrace user w s /\
      keys w2 user = startKeys user w s /\
      (forall u, u <> user -> keys w2 u = keys w u) /\
      issued w2 = S (issued w) /\
      clock w2 = startClock user w s).
    { destruct HC as [(Hr & Hlt & Hj & Hk & Ho & Hi & Hc)
                     |(oks & Hout & Hl & Hwhy & Ho
                       & [(_ & _ & _ & _ & Hr)
                         |[(_ & _ & _ & _ & _ & Hr)
                          |(Hok & Hlt & Hj & Hk & Hi & Hc & Hr)]])];
        try discriminate.
      - exists FirstTry. inversion Hr; subst key. simpl.
        repeat split; auto; try lia.
        rewrite Hj, <- app_assoc. reflexivity.
      - exists (SecondTry oks). inversion Hr; subst key. simpl.
        rewrite Nat.add_1_r.
        repeat split; auto; try lia.
        rewrite Hj, <- app_assoc. reflexivity. }
    destruct Hstart as (s & Hsv & -> & Hj2 & Hk2 & Ho2 & Hi2 & Hc2).
    simpl keyAccessKeyId in HT. rewrite Hk2, Hc2 in HT.
    destruct HT as [(Hh & oks & Hout & Hl & Hj & Hk & Ho & Hi & Hr)
                   |[(f & ok & Hh & Hdel & Hout & Hj & Hk & Ho & Hi & Hr)
                    |(f & Hh & Hdel & Hj & Hk & Hi & Hr)]].
    + destruct (firstFalse oks) as [j|] eqn:EF.
      * exists (OldKeysFailed111 s oks). simpl.
        assert (Hno : allOk oks = false).
        { destruct (allOk oks) eqn:EA; [|reflexivity].
          apply firstFalse_allOk in EA. congruence. }
        rewrite EF, Hr, Hk, Hj, Hj2, <- app_assoc. simpl. rewrite Hsd.
        repeat split; auto; try lia.
        intros u Hu. rewrite Ho, Ho2; auto.
      * exists (Succeeded111 s oks). simpl.
        apply firstFalse_allOk in EF.
        rewrite Hr, Hk, Hj, Hj2, <- app_assoc.
        repeat split; auto; try lia.
        intros u Hu. rewrite Ho, Ho2; auto.
    + exists (HandlerFailed111 s ok). simpl.
      unfold handlerError.
      rewrite Hh, Hr, Hk, Hj, Hj2, <- app_assoc. simpl.
      repeat split; eauto; try lia.
      * intros u Hu. rewrite Ho, Ho2; auto.
      * destruct ok; [reflexivity|]. now rewrite Hsd.
    + exists (HandlerEscaped111 s). simpl.
      unfold handlerError.
      rewrite Hh, Hr, Hk, Hk2, Hj, Hj2, <- app_assoc. simpl.
      repeat split; eauto; try lia.
      intros u Hu. rewrite Hk, Ho2; auto.
  - (* no key was created *)
    destruct HC as [(Hr & _)
                   |(oks & Hout & Hl & Hwhy & Ho
                     & [(Hno & Hj & Hk & Hi & Hr)
                       |[(Hok & Hwhy2 & Hj & Hk & Hi & Hr)
                        |(_ & _ & _ & _ & _ & _ & Hr)]])];
      try discriminate.
    + exists (HealFailed111 oks). simpl. inversion Hr as [He].
      rewrite Hk, Hj, <- app_assoc.
      repeat split; auto; try lia.
      all: destruct (firstFalse oks); rewrite ?Hsd, ?Hsc; apply f_equal;
        [apply (f_equal (deleteError (iam this)))
        |apply (f_equal (createError (iam this)))]; lia.
    + exists (RetryRefused111 oks). simpl. inversion Hr as [He].
      rewrite Hk, Hj, <- app_assoc.
      repeat split; auto; try lia.
      all: rewrite ?Hsc; apply f_equal;
        apply (f_equal (createError (iam this))); lia.
Qed.

(* ----------------------------------------------------------------- *)
(** *** The answers to a batch *)

Lemma existsb_eqb_in id present :
  existsb (fun x => x =? id) present = true <-> In id present.
Proof.
  rewrite existsb_exists. split.
  - intros (x & Hx & He). apply Nat.eqb_eq in He. now subst.
  - intros H. exists id. split; [exact H|apply Nat.eqb_refl].
Qed.

Lemma batchOutcomes_lenient i l : forall n present,
  noFaults i -> strictDelete i = false ->
  allOk (batchOutcomes i n present l) = true.
Proof.
  unfold allOk. induction l as [|k l IH]; intros n present Hnf Hs; simpl.
  - reflexivity.
  - rewrite IH by assumption. unfold deleteOutcome.
    rewrite Hnf, Hs. simpl. now rewrite orb_true_r.
Qed.

Lemma batchOutcomes_present i l : forall n present k,
  noFaults i -> NoDup (ids l) ->
  In k l -> In (AccessKeyId k) present ->
  In (AccessKeyId k) (deletedIds l (batchOutcomes i n present l)).
Proof.
  induction l as [|a l IH]; intros n present k Hnf Hnd Hin Hp; [contradiction|].
  cbn [batchOutcomes]. rewrite deletedIds_cons. apply in_or_app.
  inversion Hnd as [|? ? Hnot Hnd']; subst.
  destruct Hin as [->|Hin].
  - left. unfold deleteOutcome. rewrite Hnf.
    apply existsb_eqb_in in Hp. rewrite Hp. simpl. now left.
  - right. apply IH; auto.
    destruct (deleteOutcome i n present (AccessKeyId a)); [|exact Hp].
    apply filter_In. split; [exact Hp|].
    apply negb_true_iff, Nat.eqb_neq. intros Heq. apply Hnot.
    rewrite <- Heq. unfold ids. now apply in_map.
Qed.

Lemma batchOutcomes_absent i l : forall n present k,
  strictDelete i = true ->
  In k l -> ~ In (AccessKeyId k) present ->
  allOk (batchOutcomes i n present l) = false.
Proof.
  unfold allOk.
  induction l as [|a l IH]; intros n present k Hs Hin Hp; [contradiction|].
  cbn [batchOutcomes forallb].
  destruct (deleteOutcome i n present (AccessKeyId a)) eqn:Eo;
    [|reflexivity].
  simpl. destruct Hin as [->|Hin].
  - exfalso. unfold deleteOutcome in Eo. rewrite Hs in Eo.
    apply andb_true_iff in Eo. destruct Eo as [_ Eo].
    rewrite orb_false_r in Eo. apply existsb_eqb_in in Eo. contradiction.
  - apply (IH _ _ k); auto. intros Hf. apply filter_In in Hf. tauto.
Qed.

(* ----------------------------------------------------------------- *)
(** *** The keys after the creation *)

Lemma startKeys_incl user w s k :
  In k (startKeys user w s) ->
  In k (keys w user) \/ k = mkMeta user (issued w) Active.
Proof.
  destruct s; simpl; intros H; apply in_app_or in H;
    destruct H as [H|[<-|[]]]; auto.
  apply in_without in H. tauto.
Qed.

Lemma startKeys_new user w s :
  In (mkMeta user (issued w) Active) (startKeys user w s).
Proof. destruct s; simpl; apply in_or_app; right; now left. Qed.

Lemma startKeys_NoDup user w s :
  wellFormed user w -> NoDup (ids (startKeys user w s)).
Proof.
  intros Hwf. destruct s; simpl; [now apply NoDup_ids_fresh|].
  unfold ids. rewrite map_app. apply NoDup_app.
  - apply NoDup_ids_without. exact (proj1 Hwf).
  - constructor; [simpl; tauto|constructor].
  - intros x Hx [<-|[]]. apply in_map_iff in Hx.
    destruct Hx as (k & Hid & Hk). apply in_without in Hk.
    now apply (fresh_id user w k Hwf (proj1 Hk)).
Qed.

Lemma succeeded_111_only this user w p :
  path111Result this user w p = Resolved tt ->
  exists s oks, p = Succeeded111 s oks.
Proof. destruct p; simpl; intros H; try discriminate. eauto. Qed.

Lemma success_111_keys user w s oks :
  wellFormed user w ->
  List.length oks = List.length (keys w user) -> allOk oks = true ->
  path111Keys user w (Succeeded111 s oks) = [mkMeta user (issued w) Active].
Proof.
  intros Hwf Hl Hok. simpl. rewrite (deletedIds_allOk _ _ Hl Hok).
  pose proof (fresh_not_listed user w Hwf) as Hfresh.
  assert (Hnew : without (ids (keys w user)) [mkMeta user (issued w) Active]
                 = [mkMeta user (issued w) Active]).
  { apply without_none. intros k [<-|[]]. exact Hfresh. }
  destruct s; cbn [startKeys]; rewrite without_app, Hnew.
  - rewrite without_all; [reflexivity|].
    intros k Hk. unfold ids. now apply in_map.
  - rewrite without_all; [reflexivity|].
    intros k Hk. apply in_without in Hk. unfold ids. apply in_map. tauto.
Qed.

(* ================================================================= *)
(** ** Properties of revision 1.1.1 *)

(** X1.  In revision 1.1.1 a refused first creation is followed by the
    requests to delete the listed inactive keys, one each, with the outcomes
    the service gives them.  When one of them fails the run ends there: it
    requests nothing more, no creation in particular, and rejects with the
    error of one of them that failed.  When all of them succeed the
    creation is requested once more, and exactly once: no creation is
    requested after it. *)
Theorem retry_once_in_1_1_1 this user w r w' rest :
  KeyRotator_1_1_1.rotateKeys this user w = (r, w') ->
  trace w w' = EvList user true :: EvCreate user None :: rest ->
  let inactive := filter isInactive (keys w user) in
  let oks :=
    batchOutcomes (iam this) (clock w + 2) (ids (keys w user)) inactive in
  List.length oks = List.length inactive /\
  (allOk oks = false ->
   rest = deletions user inactive oks /\
   exists j,
     nth_error oks j = Some false /\
     r = Rejected (deleteError (iam this) (clock w + 2 + j))) /\
  (allOk oks = true ->
   exists c rest'',
     rest = deletions user inactive oks ++ EvCreate user c :: rest'' /\
     filter isCreate rest'' = []).
Proof.
  intros H Ht inactive oks. apply rotateKeys_111_path in H.
  destruct H as (p & Hv & Hj & _ & _ & Hr & _).
  rewrite (trace_app _ _ _ Hj) in Ht. clear Hj.
  assert (Hsecond : forall s tl,
    startValid this user w s ->
    EvList user true :: startTrace user w s ++ tl
    = EvList user true :: EvCreate user None :: rest ->
    filter isCreate tl = [] ->
    List.length oks = List.length inactive /\ allOk oks = true /\
    exists c rest'',
      rest = deletions user inactive oks ++ EvCreate user c :: rest'' /\
      filter isCreate rest'' = []).
  { intros [|oks1] tl Hs Heq Htl; simpl in Hs, Heq; [discriminate|].
    destruct Hs as (Ho & Hl & Hall & _). fold inactive in Ho, Hl. fold oks in Ho.
    subst oks1. split; [exact Hl|]. split; [exact Hall|].
    exists (Some (issued w)), tl. split; [|exact Htl].
    inversion Heq as [Hrest]. fold inactive. now rewrite <- app_assoc. }
  assert (Hdone : List.length oks = List.length inactive -> allOk oks = true ->
    (exists c rest'',
       rest = deletions user inactive oks ++ EvCreate user c :: rest'' /\
       filter isCreate rest'' = []) ->
    List.length oks = List.length inactive /\
    (allOk oks = false ->
     rest = deletions user inactive oks /\
     exists j,
       nth_error oks j = Some false /\
       r = Rejected (deleteError (iam this) (clock w + 2 + j))) /\
    (allOk oks = true ->
     exists c rest'',
       rest = deletions user inactive oks ++ EvCreate user c :: rest'' /\
       filter isCreate rest'' = [])).
  { intros Hl Hall Hex. split; [exact Hl|]. split; [congruence|auto]. }
  destruct p as [|oks1|oks1|s ok|s oks2|s oks2|s]; simpl in Hv, Ht, Hr.
  - discriminate.
  - (* a deletion failed *)
    destruct Hv as (Ho & Hl & Hall). fold inactive in Ho, Hl. fold oks in Ho.
    subst oks1. injection Ht as Hrest. symmetry in Hrest.
    fold inactive in Hrest.
    split; [exact Hl|]. split; [|congruence].
    intros _. split; [exact Hrest|].
    destruct (firstFalse oks) as [j|] eqn:EF.
    + exists j. apply firstFalse_nth in EF. tauto.
    + apply firstFalse_allOk in EF. congruence.
  - (* the second creation was refused *)
    destruct Hv as (Ho & Hl & Hall & _). fold inactive in Ho, Hl. fold oks in Ho.
    subst oks1. injection Ht as Hrest. symmetry in Hrest.
    fold inactive in Hrest.
    apply Hdone; auto. exists None, []. auto.
  - destruct Hv as (Hs & _).
    destruct (Hsecond s _ Hs Ht eq_refl) as (Hl & Hall & Hex). auto.
  - destruct Hv as (Hs & _).
    destruct (Hsecond s _ Hs Ht (deletions_no_create _ _ _))
      as (Hl & Hall & Hex). auto.
  - destruct Hv as (Hs & _).
    destruct (Hsecond s _ Hs Ht (deletions_no_create _ _ _))
      as (Hl & Hall & Hex). auto.
  - destruct Hv as (Hs & _).
    destruct (Hsecond s _ Hs Ht eq_refl) as (Hl & Hall & Hex). auto.
Qed.

Lemma retry_once_in_1_1_1_witness :
  exists c rest'',
    skipn 2
      (trace (worldWith [createKey 0 Inactive; createKey 1 Active])
         (snd (KeyRotator_1_1_1.rotateKeys (mkKeyRotator mockIAM keyHandler)
                 testUser
                 (worldWith [createKey 0 Inactive; createKey 1 Active]))))
    = deletions testUser [createKey 0 Inactive] [true]
        ++ EvCreate testUser c :: rest'' /\
    filter isCreate rest'' = [].
Proof.
  exact (proj2 (proj2 (retry_once_in_1_1_1
                         (mkKeyRotator mockIAM keyHandler) testUser
                         (worldWith [createKey 0 Inactive; createKey 1 Active])
                         _ _ _ eq_refl eq_refl)) eq_refl).
Defined.

(** X12.  In revision 1.1.1 too, a run that resolves leaves exactly the key it
    created, active, and none of the listed keys, whether the key was created
    at the first request or after the self-healing. *)
Theorem rotateKeys_111_success this user w w' :
  wellFormed user w ->
  KeyRotator_1_1_1.rotateKeys this user w = (Resolved tt, w') ->
  keys w' user = [mkMeta user (issued w) ACTIVE] /\
  (forall k, In k (keys w user) -> ~ In k (keys w' user)) /\
  List.length (filter isHandle (trace w w')) = 1.
Proof.
  intros Hwf H. apply rotateKeys_111_path in H.
  destruct H as (p & Hv & Hj & Hk & _ & Hr & _).
  symmetry in Hr. apply succeeded_111_only in Hr.
  destruct Hr as (s & oks & ->). destruct Hv as (_ & _ & Hl & Hok & _).
  rewrite Hk, (success_111_keys _ _ _ _ Hwf Hl Hok). split; [reflexivity|].
  split.
  - intros k Hin [<-|[]]. now apply (fresh_id user w _ Hwf Hin).
  - rewrite (trace_app _ _ _ Hj). simpl.
    rewrite filter_app. simpl. rewrite deletions_no_handle.
    destruct s; simpl; [reflexivity|].
    now rewrite filter_app, deletions_no_handle.
Qed.

Lemma rotateKeys_111_success_witness :
  keys (snd (KeyRotator_1_1_1.rotateKeys (mkKeyRotator mockIAM keyHandler)
               testUser (worldWith twoInactive))) testUser
  = [mkMeta testUser 2 ACTIVE].
Proof.
  exact (proj1 (rotateKeys_111_success (mkKeyRotator mockIAM keyHandler)
                  testUser (worldWith twoInactive) _
                  (wellFormed_worldWith_two Inactive Inactive) eq_refl)).
Defined.

(** *** The handler fails on the key in revision 1.1.1 *)

Lemma without_fresh_new user w :
  wellFormed user w ->
  without [issued w] (keys w user ++ [mkMeta user (issued w) Active])
  = keys w user.
Proof.
  intros Hwf. rewrite without_app, without_none.
  - rewrite without_all; [apply app_nil_r|].
    intros k [<-|[]]. now left.
  - intros k Hk [Hid|[]]. now apply (fresh_id user w k Hwf Hk).
Qed.

(** X13.  In revision 1.1.1, when the first creation succeeded and the call
    of the handler fails, the listed keys are all left as they were,
    inactive ones included.  When the handler returned a promise that
    rejects with a reason [JSON.stringify] serialises, the run requests the
    deletion of the created key and nothing else; the deletion succeeds
    unless the request fails; the run rejects with the handler's reason when
    it succeeded, and with the error of the deletion, the created key
    staying, when it failed.  When the handler threw, returned no promise,
    or rejected with a reason on which [JSON.stringify] throws, the run
    requests nothing more: the created key stays, and the run rejects with
    the value thrown, when [JSON.stringify] serialises it, and with a
    [TypeError] otherwise. *)
Theorem rollback_in_1_1_1 this user w r w' id rest :
  wellFormed user w ->
  KeyRotator_1_1_1.rotateKeys this user w = (r, w') ->
  trace w w' = EvList user true :: EvCreate user (Some id)
                 :: EvHandle id false :: rest ->
  exists f,
    newKeyHandler this (mkKey user id Active EmptyString) = Some f /\
    match f with
    | Rejects err =>
        if serialisable err
        then let ok := negb (faults (iam this) (clock w + 2)) in
             rest = [EvDelete user id ok] /\
             r = Rejected (if ok then err
                           else deleteError (iam this) (clock w + 2)) /\
             keys w' user = (if ok then keys w user
                             else keys w user ++ [mkMeta user id Active])
        else rest = [] /\ r = Rejected TypeError /\
             keys w' user = keys w user ++ [mkMeta user id Active]
    | Throws err =>
        rest = [] /\
        r = Rejected (if serialisable err then err else TypeError) /\
        keys w' user = keys w user ++ [mkMeta user id Active]
    | NoPromise =>
        rest = [] /\ r = Rejected TypeError /\
        keys w' user = keys w user ++ [mkMeta user id Active]
    end.
Proof.
  intros Hwf H Ht. apply rotateKeys_111_path in H.
  destruct H as (p & Hv & Hj & Hk & _ & Hr & _).
  rewrite (trace_app _ _ _ Hj) in Ht.
  assert (Hp : id = issued w /\
               ((exists ok, p = HandlerFailed111 FirstTry ok /\
                            rest = [EvDelete user id ok]) \/
                (p = HandlerEscaped111 FirstTry /\ rest = []))).
  { destruct p as [|oks|oks|[|oks1] ok|[|oks1] oks|[|oks1] oks|[|oks1]];
      simpl in Ht; inversion Ht; subst; eauto. }
  destruct Hp as (-> & [(ok & -> & ->)|(-> & ->)]).
  - (* the failure reached the callback, which deletes the key *)
    destruct Hv as (_ & Hok & f & Hh & Hdel). simpl in Hok, Hk, Hr.
    assert (Hok' : ok = negb (faults (iam this) (clock w + 2))).
    { rewrite Hok. unfold deleteOutcome.
      replace (existsb _ _) with true; [now rewrite andb_true_r|].
      symmetry. apply existsb_eqb_in. unfold ids. rewrite map_app.
      apply in_or_app. right. now left. }
    exists f. split; [exact Hh|].
    destruct f as [err|err|]; simpl in Hdel; try discriminate.
    rewrite Hdel. cbv zeta. rewrite <- Hok'.
    split; [reflexivity|]. split.
    + rewrite Hr. unfold handlerError. rewrite Hh. simpl. rewrite Hdel.
      now rewrite surface_serialisable.
    + rewrite Hk. destruct ok; [now apply without_fresh_new|apply without_nil].
  - (* the failure left the key *)
    destruct Hv as (_ & f & Hh & Hdel). simpl in Hk, Hr.
    exists f. split; [exact Hh|].
    assert (Hres : r = Rejected (surface (handleError f))).
    { rewrite Hr. unfold handlerError. now rewrite Hh. }
    destruct f as [err|err|]; simpl in Hdel, Hres; try rewrite Hdel in *;
      auto.
Qed.

Lemma rollback_in_1_1_1_witness :
  keys (snd (KeyRotator_1_1_1.rotateKeys
               (mkKeyRotator mockIAM rejectingHandler) testUser
               (worldWith oneInactive))) testUser
  = oneInactive.
Proof.
  destruct (rollback_in_1_1_1 (mkKeyRotator mockIAM rejectingHandler)
              testUser (worldWith oneInactive) _ _ 1
              [EvDelete testUser 1 true]
              (wellFormed_worldWith_one Inactive) eq_refl eq_refl)
    as (f & Hf & Hrest).
  inversion Hf; subst f. exact (proj2 (proj2 Hrest)).
Defined.

(** *** Revision 1.1.1 at the limit *)

Lemma at_limit_111_second_try this user w r w' :
  wellFormed user w ->
  noFaults (iam this) ->
  (forall key, newKeyHandler this key = None) ->
  maxKeys <= List.length (keys w user) ->
  List.length (filter (fun k => negb (isInactive k)) (keys w user)) < maxKeys ->
  KeyRotator_1_1_1.rotateKeys this user w = (r, w') ->
  exists p oks1 oks,
    (p = OldKeysFailed111 (SecondTry oks1) oks \/
     p = Succeeded111 (SecondTry oks1) oks) /\
    path111Valid this user w p /\
    deletedIds (filter isInactive (keys w user)) oks1
      = ids (filter isInactive (keys w user)) /\
    journal w' = journal w ++ path111Trace user w p /\
    keys w' user = path111Keys user w p /\
    r = path111Result this user w p.
Proof.
  intros Hwf Hnf Hh Hcap Hfew H. apply rotateKeys_111_path in H.
  destruct H as (p & Hv & Hj & Hk & _ & Hr & _).
  assert (Hheal :
    allOk (batchOutcomes (iam this) (clock w + 2) (ids (keys w user))
             (filter isInactive (keys w user))) = true).
  { apply firstFalse_allOk.
    destruct (firstFalse _) as [j|] eqn:EF; [|reflexivity]. exfalso.
    apply firstFalse_nth in EF. destruct EF as [EF _].
    apply nth_error_In in EF. revert EF.
    generalize (clock w + 2).
    assert (Hsub : forall k, In k (filter isInactive (keys w user)) ->
                             In (AccessKeyId k) (ids (keys w user))).
    { intros k Hk'. apply filter_In in Hk'. unfold ids. apply in_map. tauto. }
    assert (Hnd : NoDup (ids (filter isInactive (keys w user)))).
    { apply NoDup_ids_filter. exact (proj1 Hwf). }
    revert Hsub Hnd. generalize (ids (keys w user)).
    induction (filter isInactive (keys w user)) as [|a l IH];
      intros present Hsub Hnd n Hin; [contradiction|].
    cbn [batchOutcomes] in Hin. inversion Hnd as [|? ? Hnot Hnd']; subst.
    assert (Ha : deleteOutcome (iam this) n present (AccessKeyId a) = true).
    { unfold deleteOutcome. rewrite Hnf. simpl.
      replace (existsb _ _) with true; [reflexivity|].
      symmetry. apply existsb_eqb_in. apply Hsub. now left. }
    rewrite Ha in Hin. destruct Hin as [Hin|Hin]; [discriminate|].
    apply (IH _) in Hin; auto.
    intros k Hk'. apply filter_In. split; [apply Hsub; now right|].
    apply negb_true_iff, Nat.eqb_neq. intros Heq. apply Hnot.
    rewrite <- Heq. unfold ids. now apply in_map. }
  destruct p as [|oks|oks|s ok|s oks|s oks|s]; simpl in Hv.
  - rewrite Hnf in Hv. discriminate.
  - destruct Hv as (-> & _ & Hno). congruence.
  - destruct Hv as (-> & Hl & Hok & [Hf|Hlim]).
    + rewrite Hnf in Hf. discriminate.
    + rewrite (deletedIds_allOk _ _ Hl Hok) in Hlim.
      rewrite (without_inactive _ (proj1 Hwf)) in Hlim. lia.
  - destruct Hv as (_ & _ & f & Hf & _). rewrite Hh in Hf. discriminate.
  - destruct s as [|oks1]; simpl in Hv.
    + destruct Hv as (Hlt & _). lia.
    + exists (OldKeysFailed111 (SecondTry oks1) oks), oks1, oks.
      pose proof Hv as ((Ho1 & Hl1 & Hok1 & _) & _).
      split; [now left|]. split; [exact Hv|].
      split; [now apply deletedIds_allOk|]. auto.
  - destruct s as [|oks1]; simpl in Hv.
    + destruct Hv as (Hlt & _). lia.
    + exists (Succeeded111 (SecondTry oks1) oks), oks1, oks.
      pose proof Hv as ((Ho1 & Hl1 & Hok1 & _) & _).
      split; [now right|]. split; [exact Hv|].
      split; [now apply deletedIds_allOk|]. auto.
  - destruct Hv as (_ & f & Hf & _). rewrite Hh in Hf. discriminate.
Qed.

Lemma new_not_deleted_111 user w oks ks :
  wellFormed user w ->
  In (mkMeta user (issued w) Active) ks ->
  In (mkMeta user (issued w) Active)
     (without (deletedIds (keys w user) oks) ks).
Proof. intros Hwf Hks. apply new_key_survives; auto. Qed.

(** X14.  At the limit, with fewer than two keys that are not inactive, a
    service that answers and does not mind the deletion of a key that is gone,
    and a handler that accepts, a run of revision 1.1.1 resolves in one go:
    the creation is refused, the inactive keys are deleted, the creation is
    requested again, and every listed key, active ones included, is deleted;
    exactly the created key is left. *)
Theorem rotateKeys_111_at_limit this user w :
  wellFormed user w ->
  noFaults (iam this) ->
  strictDelete (iam this) = false ->
  (forall key, newKeyHandler this key = None) ->
  maxKeys <= List.length (keys w user) ->
  List.length (filter (fun k => negb (isInactive k)) (keys w user)) < maxKeys ->
  exists w',
    KeyRotator_1_1_1.rotateKeys this user w = (Resolved tt, w') /\
    keys w' user = [mkMeta user (issued w) ACTIVE] /\
    List.length (filter isCreate (trace w w')) = 2.
Proof.
  intros Hwf Hnf Hs Hh Hcap Hfew.
  destruct (KeyRotator_1_1_1.rotateKeys this user w) as [r w'] eqn:E.
  destruct (at_limit_111_second_try _ _ _ _ _ Hwf Hnf Hh Hcap Hfew E)
    as (p & oks1 & oks & [-> | ->] & Hv & _ & Hj & Hk & Hr).
  - exfalso. destruct Hv as (_ & -> & _ & Hno & _).
    rewrite batchOutcomes_lenient in Hno by assumption. discriminate.
  - exists w'. subst r. split; [reflexivity|].
    destruct Hv as (_ & _ & Hl & Hok & _). split.
    + rewrite Hk. now apply success_111_keys.
    + rewrite (trace_app _ _ _ Hj). simpl.
      rewrite !filter_app, !deletions_no_create. simpl.
      now rewrite deletions_no_create.
Qed.

Lemma rotateKeys_111_at_limit_witness :
  exists w',
    KeyRotator_1_1_1.rotateKeys (mkKeyRotator mockIAM keyHandler) testUser
      (worldWith [createKey 0 Inactive; createKey 1 Active])
    = (Resolved tt, w') /\
    keys w' testUser = [createKey 2 Active].
Proof.
  destruct (rotateKeys_111_at_limit (mkKeyRotator mockIAM keyHandler) testUser
              (worldWith [createKey 0 Inactive; createKey 1 Active])
              (wellFormed_worldWith_two Inactive Active))
    as (w' & Hr & Hk & _).
  - intros n. reflexivity.
  - reflexivity.
  - intros key. reflexivity.
  - simpl. unfold maxKeys. lia.
  - simpl. unfold maxKeys. lia.
  - exists w'. split; [exact Hr|exact Hk].
Defined.

Lemma some_inactive (ks : list AccessKeyMetadata) :
  List.length (filter (fun k => negb (isInactive k)) ks) < List.length ks ->
  exists k, In k ks /\ isInactive k = true.
Proof.
  induction ks as [|a ks IH]; simpl; [lia|].
  destruct (isInactive a) eqn:Ha; simpl; intros Hlt.
  - exists a. auto.
  - destruct IH as (k & Hk & Hi); [lia|]. exists k. auto.
Qed.

(** X15.  The same run against a service that refuses to delete a key that is
    gone: the listed inactive keys, deleted by the self-healing, are asked to
    be deleted again with the old keys, so the run rejects with that refusal,
    although it has done all its work: exactly the created key is left. *)
Theorem rotateKeys_111_at_limit_strict this user w :
  wellFormed user w ->
  noFaults (iam this) ->
  strictDelete (iam this) = true ->
  (forall key, newKeyHandler this key = None) ->
  maxKeys <= List.length (keys w user) ->
  List.length (filter (fun k => negb (isInactive k)) (keys w user)) < maxKeys ->
  exists n w',
    KeyRotator_1_1_1.rotateKeys this user w = (Rejected (NoSuchEntity n), w') /\
    keys w' user = [mkMeta user (issued w) ACTIVE] /\
    In (EvHandle (issued w) true) (trace w w').
Proof.
  intros Hwf Hnf Hs Hh Hcap Hfew.
  destruct (KeyRotator_1_1_1.rotateKeys this user w) as [r w'] eqn:E.
  destruct (at_limit_111_second_try _ _ _ _ _ Hwf Hnf Hh Hcap Hfew E)
    as (p & oks1 & oks & Hp & Hv & Hd1 & Hj & Hk & Hr).
  destruct (some_inactive (keys w user)) as (ki & Hki & Hi); [lia|].
  assert (Hstart : startKeys user w (SecondTry oks1)
                   = filter (fun k => negb (isInactive k)) (keys w user)
                     ++ [mkMeta user (issued w) Active]).
  { simpl. rewrite Hd1, without_inactive; [reflexivity|exact (proj1 Hwf)]. }
  assert (Hgone : ~ In (AccessKeyId ki)
                       (ids (startKeys user w (SecondTry oks1)))).
  { rewrite Hstart. unfold ids. rewrite map_app. intros Hin.
    apply in_app_or in Hin. destruct Hin as [Hin|[Hin|[]]].
    - apply in_map_iff in Hin. destruct Hin as (k & Hid & Hk').
      apply filter_In in Hk'. destruct Hk' as [Hk' Hn].
      assert (k = ki) by (eapply same_id_same_key;
                          [exact (proj1 Hwf)| | |]; eassumption).
      subst k. rewrite Hi in Hn. discriminate.
    - simpl in Hin. symmetry in Hin.
      now apply (fresh_id user w ki Hwf Hki). }
  assert (Hno : forall oks',
    oks' = batchOutcomes (iam this) (startClock user w (SecondTry oks1))
             (ids (startKeys user w (SecondTry oks1))) (keys w user) ->
    allOk oks' = false).
  { intros oks' ->. eapply batchOutcomes_absent; eassumption. }
  destruct Hp as [-> | ->].
  2:{ exfalso. destruct Hv as (_ & Ho & _ & Hok & _).
      rewrite (Hno _ Ho) in Hok. discriminate. }
  destruct Hv as (_ & Ho & Hl & _ & _).
  destruct (firstFalse oks) as [j|] eqn:EF.
  2:{ apply firstFalse_allOk in EF. rewrite (Hno _ Ho) in EF. discriminate. }
  exists (startClock user w (SecondTry oks1) + j), w'. split; [|split].
  - subst r. cbn [path111Result]. rewrite EF. unfold deleteError.
    now rewrite Hnf.
  - rewrite Hk. cbn [path111Keys]. rewrite Hstart, without_app.
    rewrite without_all.
    + rewrite app_nil_l. apply without_none. intros k [<-|[]] Hd.
      apply deletedIds_incl in Hd. now apply (fresh_not_listed user w).
    + intros k Hk'. pose proof Hk' as Hk''. apply filter_In in Hk''.
      rewrite Ho. apply batchOutcomes_present; auto.
      * exact (proj1 Hwf).
      * tauto.
      * rewrite Hstart. unfold ids. rewrite map_app. apply in_or_app. left.
        now apply in_map.
  - rewrite (trace_app _ _ _ Hj). simpl. right. right.
    apply in_or_app. right. now left.
Qed.

Lemma rotateKeys_111_at_limit_strict_witness :
  exists n w',
    KeyRotator_1_1_1.rotateKeys
      (mkKeyRotator (mkIAM (fun _ => false) true) keyHandler) testUser
      (worldWith [createKey 0 Inactive; createKey 1 Active])
    = (Rejected (NoSuchEntity n), w') /\
    keys w' testUser = [createKey 2 Active].
Proof.
  destruct (rotateKeys_111_at_limit_strict
              (mkKeyRotator (mkIAM (fun _ => false) true) keyHandler) testUser
              (worldWith [createKey 0 Inactive; createKey 1 Active])
              (wellFormed_worldWith_two Inactive Active))
    as (n & w' & Hr & Hk & _).
  - intros n. reflexivity.
  - reflexivity.
  - intros key. reflexivity.
  - simpl. unfold maxKeys. lia.
  - simpl. unfold maxKeys. lia.
  - exists n, w'. split; [exact Hr|exact Hk].
Defined.

(** *** Sequences of runs of revision 1.1.1 *)

Lemma path111Keys_incl user w p k :
  In k (path111Keys user w p) ->
  In k (keys w user) \/ (created111 p = 1 /\ k = mkMeta user (issued w) Active).
Proof.
  destruct p; simpl; intros H;
    repeat (apply in_without in H; destruct H as [H _]); auto;
    apply startKeys_incl in H; destruct H as [H| ->]; auto.
Qed.

Lemma path111Keys_NoDup user w p :
  wellFormed user w -> NoDup (ids (path111Keys user w p)).
Proof.
  intros Hwf. destruct p; simpl;
    try apply NoDup_ids_without; try now apply startKeys_NoDup.
  all: exact (proj1 Hwf).
Qed.

Lemma startKeys_length this user w s :
  startValid this user w s ->
  List.length (startKeys user w s) <= maxKeys.
Proof.
  destruct s; simpl; rewrite length_app; simpl.
  - lia.
  - intros (_ & _ & _ & _ & Hlt). lia.
Qed.

Lemma path111Keys_length this user w p :
  path111Valid this user w p -> List.length (keys w user) <= maxKeys ->
  List.length (path111Keys user w p) <= maxKeys.
Proof.
  intros Hv Hcap. destruct p; simpl in *.
  - exact Hcap.
  - etransitivity; [apply length_without|exact Hcap].
  - etransitivity; [apply length_without|exact Hcap].
  - etransitivity; [apply length_without|].
    eapply startKeys_length. exact (proj1 Hv).
  - etransitivity; [apply length_without|].
    eapply startKeys_length. exact (proj1 Hv).
  - etransitivity; [apply length_without|].
    eapply startKeys_length. exact (proj1 Hv).
  - eapply startKeys_length. exact (proj1 Hv).
Qed.

Lemma path111Keys_active user w p :
  wellFormed user w -> hasActive (keys w user) = true ->
  hasActive (path111Keys user w p) = true.
Proof.
  intros Hwf Hact. apply hasActive_in.
  apply hasActive_in in Hact. destruct Hact as (k & Hin & Hk).
  assert (Hstart : forall s, In k (startKeys user w s)).
  { intros [|oks]; simpl; apply in_or_app; left; [exact Hin|].
    now apply active_survives_cleanup. }
  destruct p; simpl.
  - eauto.
  - exists k. split; [|exact Hk]. now apply active_survives_cleanup.
  - exists k. split; [|exact Hk]. now apply active_survives_cleanup.
  - exists k. split; [|exact Hk]. apply in_without. split; [apply Hstart|].
    destruct ok; simpl; [|tauto]. intros [Hid|[]].
    now apply (fresh_id user w k Hwf Hin).
  - exists (mkMeta user (issued w) Active). split; [|reflexivity].
    apply new_key_survives; auto. apply startKeys_new.
  - exists (mkMeta user (issued w) Active). split; [|reflexivity].
    apply new_key_survives; auto. apply startKeys_new.
  - exists (mkMeta user (issued w) Active). split; [|reflexivity].
    apply startKeys_new.
Qed.

Lemma run_invariant_111 this user w r w' :
  KeyRotator_1_1_1.rotateKeys this user w = (r, w') ->
  wellFormed user w -> List.length (keys w user) <= maxKeys ->
  wellFormed user w' /\
  List.length (keys w' user) <= maxKeys /\
  (hasActive (keys w user) = true -> hasActive (keys w' user) = true).
Proof.
  intros H Hwf Hcap. apply rotateKeys_111_path in H.
  destruct H as (p & Hv & _ & Hk & _ & _ & Hi).
  unfold wellFormed. rewrite Hk. repeat split.
  - now apply path111Keys_NoDup.
  - apply Forall_forall. intros k Hin.
    apply path111Keys_incl in Hin. rewrite Hi.
    destruct Hin as [Hin|[Hc ->]].
    + destruct Hwf as [_ Hlt]. rewrite Forall_forall in Hlt.
      specialize (Hlt k Hin). lia.
    + simpl. lia.
  - eapply path111Keys_length; eassumption.
  - now apply path111Keys_active.
Qed.

Lemma runs_invariant_111 this user n : forall w,
  wellFormed user w -> List.length (keys w user) <= maxKeys ->
  let w' := runs KeyRotator_1_1_1.rotateKeys this user n w in
  wellFormed user w' /\
  List.length (keys w' user) <= maxKeys /\
  (hasActive (keys w user) = true -> hasActive (keys w' user) = true).
Proof.
  induction n as [|n IH]; intros w Hwf Hcap; simpl.
  - auto.
  - destruct (KeyRotator_1_1_1.rotateKeys this user w) as [r w1] eqn:E.
    destruct (run_invariant_111 _ _ _ _ _ E Hwf Hcap) as (Hwf1 & Hcap1 & Hact1).
    destruct (IH w1 Hwf1 Hcap1) as (Hw & Hc & Ha). simpl in *. auto.
Qed.

(** X16.  In revision 1.1.1 as well, from a state within the limit of two
    keys, no run of a sequence of runs, whatever fails in it, leaves more than
    two keys, and none leaves the user without an active key when there was
    one before it, or at the start of the sequence. *)
Theorem runs_111_keep_cap_and_active this user w :
  wellFormed user w -> List.length (keys w user) <= maxKeys ->
  forall n,
    let before := runs KeyRotator_1_1_1.rotateKeys this user n w in
    let after := snd (KeyRotator_1_1_1.rotateKeys this user before) in
    List.length (keys after user) <= maxKeys /\
    (hasActive (keys before user) = true ->
     hasActive (keys after user) = true) /\
    (hasActive (keys w user) = true -> hasActive (keys after user) = true).
Proof.
  intros Hwf Hcap n before after.
  destruct (runs_invariant_111 this user n w Hwf Hcap) as (Hwfb & Hcapb & Hactb).
  fold before in Hwfb, Hcapb, Hactb. unfold after.
  destruct (KeyRotator_1_1_1.rotateKeys this user before) as [r w1] eqn:E.
  destruct (run_invariant_111 _ _ _ _ _ E Hwfb Hcapb) as (_ & Hcap1 & Hact1).
  simpl. split; [exact Hcap1|]. split; [exact Hact1|].
  intros Hw. apply Hact1. now apply Hactb.
Qed.

Lemma runs_111_keep_cap_and_active_witness :
  hasActive
    (keys (snd (KeyRotator_1_1_1.rotateKeys
                  (mkKeyRotator (failingFrom 3) rejectingHandler) testUser
                  (runs KeyRotator_1_1_1.rotateKeys
                     (mkKeyRotator (failingFrom 3) rejectingHandler) testUser 2
                     (worldWith [createKey 0 Inactive; createKey 1 Active]))))
       testUser) = true.
Proof.
  destruct (runs_111_keep_cap_and_active
              (mkKeyRotator (failingFrom 3) rejectingHandler) testUser
              (worldWith [createKey 0 Inactive; createKey 1 Active])
              (wellFormed_worldWith_two Inactive Active)) with (n := 2)
    as (_ & _ & Ha).
  - simpl. unfold maxKeys. lia.
  - apply Ha. reflexivity.
Defined.

(** *** The order of the steps in revision 1.1.1 *)

Lemma split_after {A} (x h : A) (front : list A) : forall pre post back,
  pre ++ x :: post = front ++ h :: back ->
  ~ In x front -> x <> h -> In h pre.
Proof.
  induction front as [|a front IH]; intros pre post back H Hx Hne.
  - destruct pre as [|p pre]; simpl in H; inversion H; subst.
    + contradiction.
    + now left.
  - destruct pre as [|p pre]; simpl in H; inversion H; subst.
    + elim Hx. now left.
    + right. apply (IH pre post back); auto. intros Hin. apply Hx. now right.
Qed.

Lemma not_in_startTrace user w s k ok :
  wellFormed user w -> In k (keys w user) -> Status k = ACTIVE ->
  ~ In (EvDelete user (AccessKeyId k) ok) (startTrace user w s).
Proof.
  intros Hwf Hin Hact. destruct s; simpl.
  - intros [H|[]]. discriminate.
  - intros [H|H]; [discriminate|]. apply in_app_or in H.
    destruct H as [H|[H|[]]]; [|discriminate].
    now apply active_not_in_cleanup in H.
Qed.

(** X17.  In a run of revision 1.1.1 the creation is requested at most twice
    and the handler is called at most once; and a listed active key is asked
    to be deleted only after the handler has accepted the created key. *)
Theorem steps_in_1_1_1 this user w r w' :
  wellFormed user w ->
  KeyRotator_1_1_1.rotateKeys this user w = (r, w') ->
  List.length (filter isCreate (trace w w')) <= 2 /\
  List.length (filter isHandle (trace w w')) <= 1 /\
  forall k pre ok post,
    In k (keys w user) -> Status k = ACTIVE ->
    trace w w' = pre ++ EvDelete user (AccessKeyId k) ok :: post ->
    In (EvHandle (issued w) true) pre.
Proof.
  intros Hwf H. apply rotateKeys_111_path in H.
  destruct H as (p & _ & Hj & _). rewrite (trace_app _ _ _ Hj).
  assert (Hc : forall s, List.length (filter isCreate (startTrace user w s)) <= 2).
  { intros [|oks]; simpl; [lia|].
    rewrite filter_app, deletions_no_create. simpl. lia. }
  assert (Hh : forall s, filter isHandle (startTrace user w s) = []).
  { intros [|oks]; simpl; [reflexivity|].
    now rewrite filter_app, deletions_no_handle. }
  split; [|split].
  - destruct p; simpl; rewrite ?filter_app, ?deletions_no_create; simpl;
      rewrite ?deletions_no_create, ?app_nil_r; simpl; try lia;
      destruct s; simpl; rewrite ?filter_app, ?deletions_no_create; simpl; lia.
  - destruct p; simpl; rewrite ?filter_app, ?deletions_no_handle, ?Hh; simpl;
      rewrite ?deletions_no_handle; simpl; lia.
  - intros k pre ok post Hin Hact Hsplit.
    assert (Hev : In (EvDelete user (AccessKeyId k) ok) (path111Trace user w p)).
    { rewrite Hsplit. apply in_elt. }
    pose proof (not_in_startTrace user w) as Hns.
    destruct p; simpl in Hsplit, Hev.
    + destruct Hev as [Hev|[]]. discriminate.
    + destruct Hev as [Hev|[Hev|Hev]]; try discriminate.
      now apply active_not_in_cleanup in Hev.
    + destruct Hev as [Hev|[Hev|Hev]]; try discriminate.
      apply in_app_or in Hev. destruct Hev as [Hev|[Hev|[]]]; [|discriminate].
      now apply active_not_in_cleanup in Hev.
    + destruct Hev as [Hev|Hev]; [discriminate|].
      apply in_app_or in Hev. destruct Hev as [Hev|[Hev|[Hev|[]]]].
      * now apply Hns in Hev.
      * discriminate.
      * inversion Hev as [Hid]. symmetry in Hid.
        now apply (fresh_id user w k Hwf Hin) in Hid.
    + symmetry in Hsplit.
      apply (split_after _ _ (EvList user true :: startTrace user w s)) in Hsplit;
        [exact Hsplit| |discriminate].
      intros [Hev'|Hev']; [discriminate|]. now apply Hns in Hev'.
    + symmetry in Hsplit.
      apply (split_after _ _ (EvList user true :: startTrace user w s)) in Hsplit;
        [exact Hsplit| |discriminate].
      intros [Hev'|Hev']; [discriminate|]. now apply Hns in Hev'.
    + destruct Hev as [Hev|Hev]; [discriminate|].
      apply in_app_or in Hev. destruct Hev as [Hev|[Hev|[]]].
      * now apply Hns in Hev.
      * discriminate.
Qed.

Lemma steps_in_1_1_1_witness :
  List.length
    (filter isCreate
       (trace (worldWith twoInactive)
          (snd (KeyRotator_1_1_1.rotateKeys (mkKeyRotator mockIAM keyHandler)
                  testUser (worldWith twoInactive))))) <= 2.
Proof.
  exact (proj1 (steps_in_1_1_1 (mkKeyRotator mockIAM keyHandler) testUser
                  (worldWith twoInactive) _ _
                  (wellFormed_worldWith_two Inactive Inactive) eq_refl)).
Defined.


(* ================================================================= *)
(** ** The runs of revision 1.1.0 *)

(** The functions revision 1.1.0 left as they were. *)
Lemma getExistingKeys_110_eq this user :
  KeyRotator_1_1_0.getExistingKeys this user
  = KeyRotator.getExistingKeys this user.
Proof. reflexivity. Qed.

Lemma createNewKey_110_eq this user :
  KeyRotator_1_1_0.createNewKey this user = KeyRotator.createNewKey this user.
Proof. reflexivity. Qed.

Lemma handleNewKey_110_eq this user key :
  KeyRotator_1_1_0.handleNewKey this user key
  = KeyRotator.handleNewKey this user key.
Proof. reflexivity. Qed.

Lemma deleteKeys_110_eq this user l filter :
  KeyRotator_1_1_0.deleteKeys this user l filter
  = KeyRotator.deleteKeys this user l filter.
Proof. reflexivity. Qed.

(** A batch of deletions of [deleteKeys], with the answers of the
    service. *)
Lemma deleteKeys_batch this user l filter w r w' :
  KeyRotator.deleteKeys this user l filter w = (r, w') ->
  exists oks,
    oks = batchOutcomes (iam this) (clock w) (ids (keys w user))
            (subset filter l) /\
    List.length oks = List.length (subset filter l) /\
    journal w' = journal w ++ deletions user (subset filter l) oks /\
    keys w' user = without (deletedIds (subset filter l) oks) (keys w user) /\
    (forall u, u <> user -> keys w' u = keys w u) /\
    issued w' = issued w /\
    clock w' = clock w + List.length (subset filter l) /\
    r = match firstFalse oks with
        | Some j => Rejected (deleteError (iam this) (clock w + j))
        | None => Resolved tt
        end.
Proof.
  intros H. apply deleteKeys_inv in H. destruct H as (ss & EF & ->).
  pose proof (batch_outcomes _ _ _ _ _ _ EF) as Hout.
  apply batch_spec in EF. destruct EF as (Hl & Hj & Hi & Hc & Ho & Hk & Hfe).
  exists (map okOf ss). repeat split; auto.
  destruct (all_settled ss) as [vs|e] eqn:EA.
  - apply allOk_resolved in EA. apply firstFalse_allOk in EA. now rewrite EA.
  - specialize (Hfe e). unfold firstError in Hfe. rewrite EA in Hfe.
    pose proof (allOk_settled _ _ EA) as Hno.
    destruct (firstFalse (map okOf ss)) eqn:EFF.
    + now rewrite Hfe.
    + apply firstFalse_allOk in EFF. congruence.
Qed.

(** Every run of [performCoreKeyRotation] goes one of the five ways. *)
Lemma core_110_spec this user listed w r w' :
  KeyRotator_1_1_0.performCoreKeyRotation this user listed w = (r, w') ->
  exists c,
    coreValid this user listed (keys w user) (issued w) (clock w) c /\
    journal w' = journal w ++ coreTrace user listed (issued w) c /\
    keys w' user = coreKeys user listed (keys w user) (issued w) c /\
    (forall u, u <> user -> keys w' u = keys w u) /\
    issued w' = issued w + coreCreated c /\
    clock w' = clock w + coreRequests listed c /\
    r = coreResult this user (issued w) (clock w) c.
Proof.
  unfold KeyRotator_1_1_0.performCoreKeyRotation. intros H.
  rewrite then_assoc in H. apply then_inv in H.
  rewrite createNewKey_110_eq, createNewKey_eq in H.
  destruct H as [(key & w2 & HC & HT)|(e & HC & ->)].
  2:{ exists CoreCreateFailed. apply create_rejected in HC.
      destruct HC as (-> & -> & Hwhy). simpl.
      repeat split; auto; lia. }
  apply create_resolved in HC.
  destruct HC as (-> & Hlt & Hj & Hi & Hc & Hk & Ho).
  apply then_inv in HT.
  destruct HT as [(a & w3 & HH & HD)|(e & HH & ->)];
    rewrite handleNewKey_110_eq in HH; apply handleNewKey_inv in HH;
    destruct HH as [(Hh & Hr & Hw)
                   |[(f & s & Hh & Hdel & HK & Hr)|(f & Hh & Hdel & Hw & Hr)]];
    try discriminate.
  - (* the handler accepted the key *)
    subst w3. rewrite deleteKeys_110_eq in HD. apply deleteKeys_batch in HD.
    simpl in HD.
    destruct HD as (oks & Hout & Hl & Hjd & Hkd & Hod & Hid & Hcd & ->).
    rewrite Hc, Hk in Hout. rewrite <- Nat.add_1_r in Hout.
    assert (Hres : forall n, S n = n + 1) by (intros; lia).
    destruct (allOk oks) eqn:EA.
    + exists (CoreSucceeded oks). simpl. repeat split; auto; try lia.
      * rewrite Hjd, Hj, <- !app_assoc. reflexivity.
      * now rewrite Hkd, Hk.
      * intros u Hu. rewrite Hod, Ho; auto.
      * apply firstFalse_allOk in EA. now rewrite EA.
    + exists (CoreOldKeysFailed oks). simpl. repeat split; auto; try lia.
      * rewrite Hjd, Hj, <- !app_assoc. reflexivity.
      * now rewrite Hkd, Hk.
      * intros u Hu. rewrite Hod, Ho; auto.
      * destruct (firstFalse oks) as [j|] eqn:EF.
        -- now rewrite Hc, Hres.
        -- apply firstFalse_allOk in EF. congruence.
  - (* the handler rejected it *)
    inversion Hr; subst e. clear Hr.
    pose proof (delete_outcome _ _ _ _ _ _ HK) as Hout.
    apply deleteAccessKey_spec in HK.
    destruct HK as (Hjd & Hid & Hcd & Hod & Hkd & He & _).
    simpl in Hout, Hjd, Hid, Hcd, Hod, Hkd, He.
    exists (CoreHandlerFailed (okOf s)). simpl.
    rewrite Hc, Hk in Hout. rewrite <- Nat.add_1_r in Hout.
    repeat split; auto; try lia.
    + exists f. auto.
    + rewrite Hjd, Hj, <- !app_assoc. reflexivity.
    + now rewrite Hkd, Hk.
    + intros u Hu. rewrite Hod, Ho; auto.
    + unfold handlerErrorFor. rewrite Hh.
      destruct s as [a|e0]; simpl; [reflexivity|].
      unfold firstError. simpl. f_equal.
      rewrite (He e0 eq_refl), Hc. apply f_equal. lia.
  - (* the failure of the handler escaped *)
    inversion Hr; subst e. clear Hr. subst w'.
    exists CoreHandlerEscaped. simpl. unfold handlerErrorFor. rewrite Hh.
    repeat split; auto; try lia.
    + exists f. auto.
    + rewrite Hj, <- !app_assoc. reflexivity.
Qed.

Lemma core_resolved_iff this user id n c :
  coreResolved c = true <-> coreResult this user id n c = Resolved tt.
Proof. destruct c; simpl; split; congruence. Qed.

(** Every run of revision 1.1.0 takes one of these paths, and the path
    tells its journal, the keys it leaves and its result. *)
Theorem rotateKeys_110_path this user w r w' :
  KeyRotator_1_1_0.rotateKeys this user w = (r, w') ->
  exists p,
    path110Valid this user w p /\
    journal w' = journal w ++ path110Trace user w p /\
    keys w' user = path110Keys user w p /\
    (forall u, u <> user -> keys w' u = keys w u) /\
    r = path110Result this user w p /\
    issued w' = issued w + created110 p.
Proof.
  intros H.
  unfold KeyRotator_1_1_0.rotateKeys in H. apply catch_inv in H.
  assert (H' : exists r0,
    (KeyRotator_1_1_0.getExistingKeys this user
       .then (fun keys => KeyRotator_1_1_0.performKeyRotation this user keys)) w
      = (r0, w') /\
    r = surfaced r0).
  { destruct H as [(a & H & ->)|(e & w1 & H & H1)]; [eauto|].
    apply surface_inv in H1. destruct H1; subst. eauto. }
  clear H. destruct H' as (r0 & H' & ->). rename r0 into r.
  apply then_inv in H'.
  rewrite getExistingKeys_110_eq, getExistingKeys_eq in H'.
  destruct H' as [(listed & w1 & HL & H)|(e & HL & ->)].
  2:{ exists ListFailed110. apply listAccessKeys_spec in HL.
      destruct HL as (-> & -> & Hf). simpl. rewrite Nat.add_0_r.
      repeat split; auto. }
  apply list_resolved in HL. destruct HL as (-> & -> & _).
  set (w1 := request (EvList user true) w) in *.
  assert (Hj1 : journal w1 = journal w ++ [EvList user true]) by reflexivity.
  assert (Hk1 : forall u, keys w1 u = keys w u) by reflexivity.
  assert (Hi1 : issued w1 = issued w) by reflexivity.
  assert (Hc1 : clock w1 = clock w + 1) by (simpl; lia).
  unfold KeyRotator_1_1_0.performKeyRotation in H. apply catch_inv in H.
  destruct H as [(a & HC & ->)|(e & w2 & HC & HS)];
    apply core_110_spec in HC;
    destruct HC as (c & Hv & Hj & Hk & Ho & Hi & Hc & Hr);
    rewrite ?Hk1, ?Hi1, ?Hc1, ?Hj1 in *.
  - (* the core resolved at once *)
    exists (Once110 c). simpl. unfold afterCore, coreHeals. rewrite <- Hr.
    repeat split; auto.
    rewrite Hj, <- app_assoc. reflexivity.
  - (* the core rejected *)
    apply logging_inv in HS. destruct HS as [(Hs & HS)|(Hs & -> & ->)].
    2:{ (* with an error that cannot be logged *)
        exists (Once110 c). simpl. unfold afterCore, coreHeals. rewrite <- Hr.
        simpl. unfold surface. rewrite Hs.
        repeat split; auto.
        rewrite Hj, <- app_assoc. reflexivity. }
    (* the self-healing *)
    assert (Hheals : coreHeals this user (issued w) (clock w + 1) c = true).
    { unfold coreHeals. now rewrite <- Hr. }
    unfold KeyRotator_1_1_0.selfHeal in HS. apply then_inv in HS.
    rewrite deleteKeys_110_eq in HS.
    destruct HS as [(a & w3 & HD & HC2)|(e' & HD & ->)];
      apply deleteKeys_batch in HD; simpl subset in HD;
      change (filter (fun key => isInactive key) (keys w user))
        with (filter isInactive (keys w user)) in HD;
      destruct HD as (oks & Hout & Hl & Hjd & Hkd & Hod & Hid & Hcd & Hrd);
      rewrite Hk, Hc in Hout.
    + (* the inactive keys were deleted: the core once more *)
      assert (Hall : allOk oks = true).
      { apply firstFalse_allOk. destruct (firstFalse oks); [discriminate|auto]. }
      apply core_110_spec in HC2.
      destruct HC2 as (c2 & Hv2 & Hj2 & Hk2 & Ho2 & Hi2 & Hc2 & Hr2).
      rewrite Hkd, Hk, Hid, Hi, Hcd, Hc in *.
      exists (Twice110 c oks c2). simpl.
      unfold healValid, afterHeal, afterCore, healClock.
      repeat split; auto.
      * rewrite Hj2, Hjd, Hj, <- !app_assoc. reflexivity.
      * intros u Hu. rewrite Ho2, Hod, Ho; auto.
      * now rewrite Hr2.
      * lia.
    + (* a deletion failed *)
      exists (HealFailed110 c oks). simpl.
      unfold healValid, afterHeal, afterCore, healClock.
      destruct (firstFalse oks) as [j|] eqn:EF; [|discriminate].
      assert (Hall : allOk oks = false).
      { destruct (allOk oks) eqn:EA; [|reflexivity].
        apply firstFalse_allOk in EA. congruence. }
      rewrite Hkd, Hk, Hid, Hi.
      repeat split; auto.
      * rewrite Hjd, Hj, <- !app_assoc. reflexivity.
      * intros u Hu. rewrite Hod, Ho; auto.
      * rewrite Hc in Hrd. inversion Hrd; subst e'.
        now rewrite surface_serialisable by apply serialisable_deleteError.
Qed.

(** *** A run that resolves is the same run in the three revisions *)

Lemma then_resolved {A B} (p : Promise A) (f : A -> Promise B) w a w1 :
  p w = (Resolved a, w1) -> (p .then f) w = f a w1.
Proof. unfold then_. now intros ->. Qed.

Lemma catch_resolved {A} (p : Promise A) (h : Error -> Promise A) w a w1 :
  p w = (Resolved a, w1) -> (p .catch h) w = (Resolved a, w1).
Proof. unfold catch_. now intros ->. Qed.

(** The chain of a run of [src/keyRotation/keyRotator.ts] that resolves. *)
Lemma resolved_run_inv this user w w' :
  KeyRotator.rotateKeys this user w = (Resolved tt, w') ->
  exists key w2 ss vs,
    createAccessKey (iam this) user (request (EvList user true) w)
      = (Resolved key, w2) /\
    faults (iam this) (clock w) = false /\
    newKeyHandler this key = None /\
    forEach (keys w user)
      (fun k => deleteAccessKey (iam this) user (AccessKeyId k))
      (record (EvHandle (keyAccessKeyId key) true) w2) = (ss, w') /\
    all_settled ss = Resolved vs.
Proof.
  intros H. apply rotateKeys_Run in H.
  inversion H as [| | | | |listed w1 key w2 ss vs w3 HL HC Hh HF HA]; subst.
  apply list_resolved in HL. destruct HL as (-> & -> & Hf).
  exists key, w2, ss, vs. auto.
Qed.

(** X18.  A run of [src/keyRotation/keyRotator.ts] that resolves is, request
    for request, a run of revision 1.1.0 and of revision 1.1.1 as well: the
    later revisions changed what happens after a failure only. *)
Theorem resolved_run_in_every_revision this user w w' :
  KeyRotator.rotateKeys this user w = (Resolved tt, w') ->
  KeyRotator_1_1_0.rotateKeys this user w = (Resolved tt, w') /\
  KeyRotator_1_1_1.rotateKeys this user w = (Resolved tt, w').
Proof.
  intros H. apply resolved_run_inv in H.
  destruct H as (key & w2 & ss & vs & HC & Hf & Hh & HF & HA).
  assert (HL : listAccessKeys (iam this) user w
               = (Resolved (keys w user), request (EvList user true) w)).
  { unfold listAccessKeys. now rewrite Hf. }
  split.
  - unfold KeyRotator_1_1_0.rotateKeys. apply catch_resolved.
    rewrite (then_resolved _ _ _ _ _
               (eq_trans (getExistingKeys_eq this user w) HL)).
    unfold KeyRotator_1_1_0.performKeyRotation. apply catch_resolved.
    unfold KeyRotator_1_1_0.performCoreKeyRotation.
    rewrite then_assoc.
    rewrite (then_resolved _ _ _ _ _
               (eq_trans (createNewKey_eq this user _) HC)).
    assert (HH : KeyRotator_1_1_0.handleNewKey this user key w2
                 = (Resolved tt, record (EvHandle (keyAccessKeyId key) true) w2)).
    { unfold KeyRotator_1_1_0.handleNewKey, invoke. rewrite Hh.
      unfold catch_, callHandler. now rewrite Hh. }
    rewrite (then_resolved _ _ _ _ _ HH).
    rewrite deleteKeys_110_eq, deleteKeys_eq. simpl subset.
    now rewrite HF, HA.
  - unfold KeyRotator_1_1_1.rotateKeys. apply catch_resolved.
    rewrite (then_resolved _ _ _ _ _
               (eq_trans (getExistingKeys_111_eq this user w) HL)).
    unfold KeyRotator_1_1_1.performKeyRotation.
    rewrite then_assoc, then_assoc.
    assert (HN : KeyRotator_1_1_1.createNewKey this user (keys w user)
                   (request (EvList user true) w) = (Resolved key, w2)).
    { unfold KeyRotator_1_1_1.createNewKey. apply catch_resolved.
      now rewrite createKey_111_eq. }
    rewrite (then_resolved _ _ _ _ _ HN).
    assert (HH : KeyRotator_1_1_1.handleNewKey this user key w2
                 = (Resolved tt, record (EvHandle (keyAccessKeyId key) true) w2)).
    { unfold KeyRotator_1_1_1.handleNewKey, invoke. rewrite Hh.
      unfold catch_, then_, callHandler, resolve. now rewrite Hh. }
    rewrite (then_resolved _ _ _ _ _ HH).
    assert (HD : KeyRotator_1_1_1.deleteKeys this user (keys w user) None
                   (record (EvHandle (keyAccessKeyId key) true) w2)
                 = (Resolved vs, w')).
    { rewrite deleteKeys_111_eq. simpl subset. now rewrite HF, HA. }
    now rewrite (then_resolved _ _ _ _ _ HD).
Qed.

Lemma resolved_run_in_every_revision_witness :
  KeyRotator_1_1_0.rotateKeys (mkKeyRotator mockIAM keyHandler) testUser
    (worldWith oneInactive)
  = (Resolved tt,
     snd (KeyRotator.rotateKeys (mkKeyRotator mockIAM keyHandler) testUser
            (worldWith oneInactive))).
Proof.
  exact (proj1 (resolved_run_in_every_revision
                  (mkKeyRotator mockIAM keyHandler) testUser
                  (worldWith oneInactive) _ eq_refl)).
Defined.

(** *** The keys a run of revision 1.1.0 leaves *)

Lemma below_not_in (ks : list AccessKeyMetadata) id :
  Forall (fun k => AccessKeyId k < id) ks -> ~ In id (ids ks).
Proof.
  intros Hlt Hin. unfold ids in Hin. apply in_map_iff in Hin.
  destruct Hin as (k & Hid & Hk). rewrite Forall_forall in Hlt.
  specialize (Hlt k Hk). lia.
Qed.

Lemma NoDup_ids_snoc user (ks : list AccessKeyMetadata) id st :
  NoDup (ids ks) -> ~ In id (ids ks) ->
  NoDup (ids (ks ++ [mkMeta user id st])).
Proof.
  intros Hnd Hnot. unfold ids. rewrite map_app. simpl.
  apply NoDup_app.
  - exact Hnd.
  - constructor; [simpl; tauto|constructor].
  - intros x Hx [<-|[]]. now apply Hnot.
Qed.

Lemma Forall_without (P : AccessKeyMetadata -> Prop) D ks :
  Forall P ks -> Forall P (without D ks).
Proof.
  rewrite !Forall_forall. intros H k Hin. apply in_without in Hin.
  apply H. tauto.
Qed.

Lemma coreKeys_incl user listed present id c k :
  In k (coreKeys user listed present id c) ->
  In k present \/ (coreCreated c = 1 /\ k = mkMeta user id Active).
Proof.
  destruct c; simpl; intros H; auto;
    try (apply in_without in H; destruct H as [H _]);
    apply in_app_or in H; destruct H as [H|[<-|[]]]; auto.
Qed.

Lemma coreKeys_wf user listed present id c :
  NoDup (ids present) -> Forall (fun k => AccessKeyId k < id) present ->
  NoDup (ids (coreKeys user listed present id c)) /\
  Forall (fun k => AccessKeyId k < id + coreCreated c)
         (coreKeys user listed present id c).
Proof.
  intros Hnd Hlt.
  assert (Hsnoc : NoDup (ids (present ++ [mkMeta user id Active]))).
  { apply NoDup_ids_snoc; [exact Hnd|now apply below_not_in]. }
  assert (Hlt1 : Forall (fun k => AccessKeyId k < id + 1)
                        (present ++ [mkMeta user id Active])).
  { apply Forall_app. split.
    - eapply Forall_impl; [|exact Hlt]. simpl. intros; lia.
    - constructor; [simpl; lia|constructor]. }
  destruct c; simpl.
  - split; [exact Hnd|]. eapply Forall_impl; [|exact Hlt]. simpl. intros; lia.
  - split; [now apply NoDup_ids_without|now apply Forall_without].
  - split; [now apply NoDup_ids_without|now apply Forall_without].
  - split; [now apply NoDup_ids_without|now apply Forall_without].
  - split; [exact Hsnoc|exact Hlt1].
Qed.

Lemma coreKeys_length this user listed present id n c :
  coreValid this user listed present id n c ->
  List.length present <= maxKeys ->
  List.length (coreKeys user listed present id c) <= maxKeys.
Proof.
  intros Hv Hcap.
  assert (Hsnoc : List.length present < maxKeys ->
                  forall D, List.length
                              (without D (present ++ [mkMeta user id Active]))
                            <= maxKeys).
  { intros Hlt D. etransitivity; [apply length_without|].
    rewrite length_app. simpl. lia. }
  destruct c; simpl in *; [exact Hcap| | | |]; try (apply Hsnoc; tauto).
  rewrite length_app. simpl. lia.
Qed.

(** The core keeps an active key: the one it created when the handler
    accepted it, and the ones it found otherwise. *)
Lemma coreKeys_active user listed present id c :
  Forall (fun k => AccessKeyId k < id) listed ->
  Forall (fun k => AccessKeyId k < id) present ->
  hasActive present = true ->
  hasActive (coreKeys user listed present id c) = true.
Proof.
  intros Hl Hp Hact. apply hasActive_in.
  assert (Hnew : forall oks,
    In (mkMeta user id Active)
       (without (deletedIds listed oks) (present ++ [mkMeta user id Active]))).
  { intros oks. apply in_without. split.
    - apply in_or_app. right. now left.
    - intros Hin. apply deletedIds_incl in Hin.
      now apply (below_not_in listed id Hl). }
  destruct c; simpl.
  - now apply hasActive_in.
  - apply hasActive_in in Hact. destruct Hact as (k & Hin & Hk).
    exists k. split; [|exact Hk]. apply in_without. split.
    + apply in_or_app. now left.
    + rewrite Forall_forall in Hp. specialize (Hp k Hin).
      destruct ok; simpl; [|tauto]. intros [Hid|[]]. lia.
  - exists (mkMeta user id Active). split; [apply Hnew|reflexivity].
  - exists (mkMeta user id Active). split; [apply Hnew|reflexivity].
  - exists (mkMeta user id Active). split; [|reflexivity].
    apply in_or_app. right. now left.
Qed.

Section Keys110.
Variable this : KeyRotatorT.
Variable user : string.
Variable w : World.
Hypothesis Hwf : wellFormed user w.

Let listed : list AccessKeyMetadata := keys w user.
Let inactive : list AccessKeyMetadata := filter isInactive (keys w user).

Lemma afterCore_wf c :
  NoDup (ids (afterCore user w c)) /\
  Forall (fun k => AccessKeyId k < issued w + coreCreated c)
         (afterCore user w c).
Proof. apply coreKeys_wf; apply Hwf. Qed.

Lemma afterHeal_wf c oks :
  NoDup (ids (afterHeal user w c oks)) /\
  Forall (fun k => AccessKeyId k < issued w + coreCreated c)
         (afterHeal user w c oks).
Proof.
  destruct (afterCore_wf c) as [Hnd Hlt]. unfold afterHeal. split.
  - now apply NoDup_ids_without.
  - now apply Forall_without.
Qed.

Lemma listed_below n :
  Forall (fun k => AccessKeyId k < issued w + n) (keys w user).
Proof.
  eapply Forall_impl; [|exact (proj2 Hwf)]. simpl. intros; lia.
Qed.

Lemma afterHeal_active c oks :
  hasActive (keys w user) = true ->
  hasActive (afterHeal user w c oks) = true.
Proof.
  intros Hact.
  pose proof (coreKeys_active user listed listed (issued w) c
                (proj2 Hwf) (proj2 Hwf) Hact) as H1.
  apply hasActive_in in H1. destruct H1 as (k & Hin & Hk).
  apply hasActive_in. exists k. split; [|exact Hk].
  unfold afterHeal. fold (afterCore user w c) in Hin.
  destruct (coreKeys_incl _ _ _ _ _ _ Hin) as [Hold|[_ ->]].
  - now apply active_survives_cleanup.
  - apply in_without. split; [exact Hin|]. intros Hd.
    apply deletedIds_incl in Hd. unfold ids in Hd. apply in_map_iff in Hd.
    destruct Hd as (k' & Hid & Hk'). apply filter_In in Hk'.
    apply (fresh_id user w k' Hwf (proj1 Hk')). exact Hid.
Qed.

Lemma path110Keys_wf p :
  NoDup (ids (path110Keys user w p)) /\
  Forall (fun k => AccessKeyId k < issued w + created110 p)
         (path110Keys user w p).
Proof.
  destruct p as [|c|c oks|c oks c2]; simpl.
  - rewrite Nat.add_0_r. exact Hwf.
  - apply afterCore_wf.
  - apply afterHeal_wf.
  - rewrite Nat.add_assoc. apply coreKeys_wf; apply afterHeal_wf.
Qed.

Lemma path110Keys_length p :
  path110Valid this user w p -> List.length (keys w user) <= maxKeys ->
  List.length (path110Keys user w p) <= maxKeys.
Proof.
  intros Hv Hcap.
  assert (H1 : forall c,
    coreValid this user listed listed (issued w) (clock w + 1) c ->
    List.length (afterCore user w c) <= maxKeys).
  { intros c Hc. eapply coreKeys_length; eassumption. }
  assert (H2 : forall c oks,
    coreValid this user listed listed (issued w) (clock w + 1) c ->
    List.length (afterHeal user w c oks) <= maxKeys).
  { intros c oks Hc. etransitivity; [apply length_without|]. now apply H1. }
  destruct p as [|c|c oks|c oks c2]; simpl in *.
  - exact Hcap.
  - apply H1. tauto.
  - apply H2. unfold healValid in Hv. tauto.
  - destruct Hv as ((Hc & _) & _ & Hc2).
    eapply coreKeys_length; [exact Hc2|]. now apply H2.
Qed.

Lemma path110Keys_active p :
  hasActive (keys w user) = true ->
  hasActive (path110Keys user w p) = true.
Proof.
  intros Hact. destruct p as [|c|c oks|c oks c2]; simpl.
  - exact Hact.
  - apply coreKeys_active; auto; apply Hwf.
  - now apply afterHeal_active.
  - apply coreKeys_active.
    + apply listed_below.
    + apply afterHeal_wf.
    + now apply afterHeal_active.
Qed.
End Keys110.

Lemma run_invariant_110 this user w r w' :
  KeyRotator_1_1_0.rotateKeys this user w = (r, w') ->
  wellFormed user w -> List.length (keys w user) <= maxKeys ->
  wellFormed user w' /\
  List.length (keys w' user) <= maxKeys /\
  (hasActive (keys w user) = true -> hasActive (keys w' user) = true).
Proof.
  intros H Hwf Hcap. apply rotateKeys_110_path in H.
  destruct H as (p & Hv & _ & Hk & _ & _ & Hi).
  unfold wellFormed. rewrite Hk, Hi. repeat split.
  - now apply path110Keys_wf.
  - now apply path110Keys_wf.
  - eapply path110Keys_length; eassumption.
  - now apply path110Keys_active.
Qed.

Lemma runs_invariant_110 this user n : forall w,
  wellFormed user w -> List.length (keys w user) <= maxKeys ->
  let w' := runs KeyRotator_1_1_0.rotateKeys this user n w in
  wellFormed user w' /\
  List.length (keys w' user) <= maxKeys /\
  (hasActive (keys w user) = true -> hasActive (keys w' user) = true).
Proof.
  induction n as [|n IH]; intros w Hwf Hcap; simpl.
  - auto.
  - destruct (KeyRotator_1_1_0.rotateKeys this user w) as [r w1] eqn:E.
    destruct (run_invariant_110 _ _ _ _ _ E Hwf Hcap) as (Hwf1 & Hcap1 & Hact1).
    destruct (IH w1 Hwf1 Hcap1) as (Hw & Hc & Ha). simpl in *. auto.
Qed.

(** X19.  In revision 1.1.0, where a failed run is run again from the creation
    on, it is the same: from a state within the limit of two keys, no run of a
    sequence of runs, whatever fails in it, leaves more than two keys, and
    none leaves the user without an active key when there was one before it,
    or at the start of the sequence. *)
Theorem runs_110_keep_cap_and_active this user w :
  wellFormed user w -> List.length (keys w user) <= maxKeys ->
  forall n,
    let before := runs KeyRotator_1_1_0.rotateKeys this user n w in
    let after := snd (KeyRotator_1_1_0.rotateKeys this user before) in
    List.length (keys after user) <= maxKeys /\
    (hasActive (keys before user) = true ->
     hasActive (keys after user) = true) /\
    (hasActive (keys w user) = true -> hasActive (keys after user) = true).
Proof.
  intros Hwf Hcap n before after.
  destruct (runs_invariant_110 this user n w Hwf Hcap) as (Hwfb & Hcapb & Hactb).
  fold before in Hwfb, Hcapb, Hactb. unfold after.
  destruct (KeyRotator_1_1_0.rotateKeys this user before) as [r w1] eqn:E.
  destruct (run_invariant_110 _ _ _ _ _ E Hwfb Hcapb) as (_ & Hcap1 & Hact1).
  simpl. split; [exact Hcap1|]. split; [exact Hact1|].
  intros Hw. apply Hact1. now apply Hactb.
Qed.

Lemma runs_110_keep_cap_and_active_witness :
  hasActive
    (keys (snd (KeyRotator_1_1_0.rotateKeys
                  (mkKeyRotator (failingFrom 3) rejectingHandler) testUser
                  (runs KeyRotator_1_1_0.rotateKeys
                     (mkKeyRotator (failingFrom 3) rejectingHandler) testUser 2
                     (worldWith [createKey 0 Inactive; createKey 1 Active]))))
       testUser) = true.
Proof.
  destruct (runs_110_keep_cap_and_active
              (mkKeyRotator (failingFrom 3) rejectingHandler) testUser
              (worldWith [createKey 0 Inactive; createKey 1 Active])
              (wellFormed_worldWith_two Inactive Active)) with (n := 2)
    as (_ & _ & Ha).
  - simpl. unfold maxKeys. lia.
  - apply Ha. reflexivity.
Defined.

(** *** The handler in revision 1.1.0 *)

Lemma deleteOutcome_present i n present id :
  noFaults i -> In id present -> deleteOutcome i n present id = true.
Proof.
  intros Hnf Hin. unfold deleteOutcome. rewrite Hnf. simpl.
  apply existsb_eqb_in in Hin. now rewrite Hin.
Qed.

Lemma batchOutcomes_all_present i l : forall n present,
  noFaults i -> NoDup (ids l) ->
  (forall k, In k l -> In (AccessKeyId k) present) ->
  allOk (batchOutcomes i n present l) = true.
Proof.
  induction l as [|k l IH]; intros n present Hnf Hnd Hin; [reflexivity|].
  simpl in Hnd. inversion Hnd as [|x xs Hnot Hnd']; subst.
  assert (Hk : deleteOutcome i n present (AccessKeyId k) = true).
  { apply deleteOutcome_present; [exact Hnf|]. apply Hin. now left. }
  cbn [batchOutcomes]. rewrite Hk. unfold allOk. cbn [forallb].
  apply IH; auto.
  intros k' Hk'. apply filter_In. split; [apply Hin; now right|].
  apply negb_true_iff, Nat.eqb_neq. intros Heq. apply Hnot.
  rewrite <- Heq. unfold ids. now apply in_map.
Qed.

Lemma without_new user (ks : list AccessKeyMetadata) id st :
  ~ In id (ids ks) -> without [id] (ks ++ [mkMeta user id st]) = ks.
Proof.
  intros Hnot. rewrite without_app. rewrite without_none.
  - unfold without. simpl. rewrite Nat.eqb_refl. simpl. apply app_nil_r.
  - intros k Hk [Hid|[]]. apply Hnot. rewrite Hid. unfold ids.
    now apply in_map.
Qed.

(** X20.  In revision 1.1.0 a rejection by the handler is a failure of the
    core like any other.  With a service that answers, fewer than two listed
    keys and a handler that returns, for every key, a promise rejected with
    the same reason [err], a reason that the log line of [handleNewKey] can
    serialise: the run deletes the created key, deletes the listed inactive
    keys, then creates a second key, hands it to the handler as well and
    deletes it; it rejects with [err] and leaves the listed keys that are not
    inactive. *)
Theorem handler_retried_in_1_1_0 this user w err :
  wellFormed user w -> noFaults (iam this) ->
  serialisable err = true ->
  (forall key, newKeyHandler this key = Some (Rejects err)) ->
  List.length (keys w user) < maxKeys ->
  exists w',
    KeyRotator_1_1_0.rotateKeys this user w = (Rejected err, w') /\
    trace w w' =
      EvList user true :: EvCreate user (Some (issued w))
        :: EvHandle (issued w) false :: EvDelete user (issued w) true
        :: deletions user (filter isInactive (keys w user))
             (map (fun _ => true) (filter isInactive (keys w user)))
           ++ [EvCreate user (Some (issued w + 1));
               EvHandle (issued w + 1) false;
               EvDelete user (issued w + 1) true] /\
    keys w' user = filter (fun k => negb (isInactive k)) (keys w user).
Proof.
  intros Hwf Hnf Hs Hrej Hlt.
  destruct (KeyRotator_1_1_0.rotateKeys this user w) as [r w'] eqn:E.
  exists w'. apply rotateKeys_110_path in E.
  destruct E as (p & Hv & Hj & Hk & _ & -> & _).
  rewrite (trace_app _ _ _ Hj), Hk. clear Hj Hk.
  assert (Hfresh : ~ In (issued w) (ids (keys w user)))
    by now apply fresh_not_listed.
  assert (Herr : forall id, handlerErrorFor this user id = err).
  { intros id. unfold handlerErrorFor. rewrite Hrej. simpl. now rewrite Hs. }
  assert (Hcore : forall c present id n,
    coreValid this user (keys w user) present id n c ->
    List.length present < maxKeys ->
    c = CoreHandlerFailed true).
  { intros c present id n Hc Hp. destruct c; simpl in Hc.
    - destruct Hc as [Hc|Hc]; [rewrite Hnf in Hc; discriminate|lia].
    - destruct Hc as (_ & -> & _). f_equal.
      apply deleteOutcome_present; [exact Hnf|].
      unfold ids. rewrite map_app. apply in_or_app. right. now left.
    - destruct Hc as (_ & _ & _ & _ & Hc). now rewrite Hrej in Hc.
    - destruct Hc as (_ & _ & _ & _ & Hc). now rewrite Hrej in Hc.
    - destruct Hc as (_ & f & Hf & Hdel). rewrite Hrej in Hf.
      inversion Hf; subst f. simpl in Hdel. congruence. }
  assert (Hheal : forall oks,
    healValid this user w (CoreHandlerFailed true) oks ->
    allOk oks = true /\
    afterHeal user w (CoreHandlerFailed true) oks
      = filter (fun k => negb (isInactive k)) (keys w user)).
  { intros oks (_ & _ & Ho & Hl).
    unfold afterHeal, afterCore in *. simpl in *.
    rewrite (without_new _ _ _ _ Hfresh) in *.
    assert (Hall : allOk oks = true).
    { rewrite Ho. apply batchOutcomes_all_present; auto.
      - apply NoDup_ids_filter, Hwf.
      - intros k Hin. apply filter_In in Hin. unfold ids.
        apply in_map. tauto. }
    split; [exact Hall|].
    rewrite (deletedIds_allOk _ _ Hl Hall). apply without_inactive, Hwf. }
  destruct p as [|c|c oks|c oks c2]; simpl in Hv.
  - rewrite Hnf in Hv. discriminate.
  - destruct Hv as [Hc Hres]. apply Hcore in Hc; [|exact Hlt].
    subst c. unfold coreHeals in Hres. simpl in Hres.
    rewrite Herr in Hres. congruence.
  - destruct Hv as [Hh Hno]. pose proof (proj1 Hh) as Hc.
    apply Hcore in Hc; [|exact Hlt]. subst c.
    apply Hheal in Hh. destruct Hh as [Hall _]. congruence.
  - destruct Hv as (Hh & Hall & Hc2). pose proof (proj1 Hh) as Hc.
    apply Hcore in Hc; [|exact Hlt]. subst c.
    pose proof (proj2 (proj2 (proj2 Hh))) as Hl.
    destruct (Hheal oks Hh) as [_ Hkeys]. rewrite Hkeys in Hc2.
    assert (Hlt2 : List.length
                     (filter (fun k => negb (isInactive k)) (keys w user))
                   < maxKeys).
    { eapply Nat.le_lt_trans; [apply filter_length_le|exact Hlt]. }
    apply Hcore in Hc2; [|exact Hlt2]. subst c2. simpl.
    rewrite Hkeys, Herr, (surface_serialisable _ Hs).
    rewrite (allOk_all_true _ _ Hl Hall).
    split; [reflexivity|]. split; [reflexivity|].
    apply without_new. intros Hin. unfold ids in Hin.
    apply in_map_iff in Hin. destruct Hin as (k & Hid & Hin).
    apply filter_In in Hin. destruct Hin as [Hin _].
    destruct Hwf as [_ Hbelow]. rewrite Forall_forall in Hbelow.
    specialize (Hbelow k Hin). simpl in Hid. lia.
Qed.

Lemma handler_retried_in_1_1_0_witness :
  exists w',
    KeyRotator_1_1_0.rotateKeys (mkKeyRotator mockIAM rejectingHandler)
      testUser (worldWith oneInactive)
      = (Rejected (HandlerFailure "Could not handle new key"%string), w') /\
    trace (worldWith oneInactive) w' =
      [EvList testUser true; EvCreate testUser (Some 1); EvHandle 1 false;
       EvDelete testUser 1 true; EvDelete testUser 0 true;
       EvCreate testUser (Some 2); EvHandle 2 false;
       EvDelete testUser 2 true] /\
    keys w' testUser = [].
Proof.
  apply (handler_retried_in_1_1_0 (mkKeyRotator mockIAM rejectingHandler)
           testUser (worldWith oneInactive)).
  - apply wellFormed_worldWith_one.
  - intros n. reflexivity.
  - reflexivity.
  - intros key. reflexivity.
  - simpl. unfold maxKeys. lia.
Defined.

(** *** The runs of revision 1.1.0 that resolve *)

Lemma resolved_110_only this user w p :
  path110Valid this user w p ->
  path110Result this user w p = Resolved tt ->
  (exists oks, p = Once110 (CoreSucceeded oks)) \/
  (exists c oks oks2, p = Twice110 c oks (CoreSucceeded oks2)).
Proof.
  destruct p as [|c|c oks|c oks c2]; simpl; intros Hv Hr.
  - discriminate.
  - left. destruct c; try discriminate. eauto.
  - exfalso. destruct Hv as [_ Hall].
    destruct (firstFalse oks) eqn:EF; [discriminate|].
    apply firstFalse_allOk in EF. congruence.
  - right. destruct c2; try discriminate. eauto.
Qed.

Lemma succeeded_keys user w present id oks :
  wellFormed user w -> issued w <= id ->
  List.length oks = List.length (keys w user) -> allOk oks = true ->
  coreKeys user (keys w user) present id (CoreSucceeded oks)
  = without (ids (keys w user)) present ++ [mkMeta user id Active].
Proof.
  intros Hwf Hle Hl Hall. simpl.
  rewrite (deletedIds_allOk _ _ Hl Hall), without_app. f_equal.
  apply without_none. intros k [<-|[]] Hin. simpl in Hin.
  unfold ids in Hin. apply in_map_iff in Hin. destruct Hin as (k & Hid & Hk).
  destruct Hwf as [_ Hbelow]. rewrite Forall_forall in Hbelow.
  specialize (Hbelow k Hk). lia.
Qed.

(** Of what the first core and the self-healing leave, only the key the
    first core created can outlast the deletion of the listed keys. *)
Lemma first_key_left user w c oks :
  wellFormed user w ->
  without (ids (keys w user)) (afterHeal user w c oks)
  = match c with
    | CoreCreateFailed | CoreHandlerFailed true => []
    | _ => [mkMeta user (issued w) Active]
    end.
Proof.
  intros Hwf. unfold afterHeal, afterCore.
  set (D := deletedIds (filter isInactive (keys w user)) oks).
  assert (Hold : forall D', without (D' ++ D ++ ids (keys w user)) (keys w user) = []).
  { intros D'. apply without_all. intros k Hk.
    apply in_or_app. right. apply in_or_app. right.
    unfold ids. now apply in_map. }
  assert (Hfresh : ~ In (issued w) (D ++ ids (keys w user))).
  { intros Hin. apply in_app_or in Hin.
    apply (fresh_not_listed user w Hwf). destruct Hin as [Hin|Hin]; [|exact Hin].
    apply deletedIds_incl in Hin. unfold ids in *.
    apply in_map_iff in Hin. destruct Hin as (k & Hid & Hk).
    apply filter_In in Hk. rewrite <- Hid. apply in_map. tauto. }
  assert (Hnew : forall D',
    ~ In (issued w) D' ->
    without (D' ++ D ++ ids (keys w user))
      (keys w user ++ [mkMeta user (issued w) Active])
    = [mkMeta user (issued w) Active]).
  { intros D' HD'. rewrite without_app, Hold. cbn [app].
    apply without_none. intros k [<-|[]] Hin. simpl in Hin.
    apply in_app_or in Hin. tauto. }
  destruct c as [|[|]|oks1|oks1|]; simpl coreKeys; rewrite !without_without.
  - apply (Hold []).
  - rewrite without_app, Hold. cbn [app]. apply without_all.
    intros k [<-|[]]. now left.
  - apply Hnew. simpl. tauto.
  - apply Hnew. intros Hin. apply deletedIds_incl in Hin.
    now apply (fresh_not_listed user w Hwf).
  - apply Hnew. intros Hin. apply deletedIds_incl in Hin.
    now apply (fresh_not_listed user w Hwf).
  - apply (Hnew []). simpl. tauto.
Qed.

(** Case analysis on [H : In ev l], for a journal [l] given by its
    elements and its segments; and the search of an element in it. *)
Ltac in_journal H :=
  repeat match type of H with
         | In _ (_ :: _) => destruct H as [H|H]
         | In _ (_ ++ _) => apply in_app_or in H; destruct H as [H|H]
         | In _ [] => destruct H
         end.

Ltac journal_has :=
  repeat first [left; reflexivity | right | apply in_or_app].

(** [H] says that the journal holds an event that it cannot hold, the
    batches of deletions by [Hnd1] and [Hnd2]. *)
Ltac absent_from_journal H Hnd1 Hnd2 :=
  in_journal H;
  try discriminate H;
  try (inversion H; lia);
  try (now apply in_deletions_not_handle in H);
  try (now apply Hnd1 in H);
  try (now apply Hnd2 in H).

(** X21.  A run of revision 1.1.0 that resolves leaves none of the listed keys
    and the key it created last, which the handler accepted.  It can leave a
    second key: the one the first core created, when the run went through the
    core twice and the handler had accepted that key, or had failed on it and
    the request to delete it failed, or had failed on it and no deletion of
    it was requested.  After a failure of the handler on the first key, no
    deletion of it is requested exactly when the handler threw, returned no
    promise, or rejected with a reason that cannot be serialised
    ([deletesKey] is false). *)
Theorem resolved_in_1_1_0 this user w w' :
  wellFormed user w ->
  KeyRotator_1_1_0.rotateKeys this user w = (Resolved tt, w') ->
  (forall k, In k (keys w user) -> ~ In k (keys w' user)) /\
  (exists id,
     issued w' = S id /\
     In (EvHandle id true) (trace w w') /\
     (keys w' user = [mkMeta user id Active] \/
      id = issued w + 1 /\
      keys w' user = [mkMeta user (issued w) Active; mkMeta user id Active])) /\
  (In (mkMeta user (issued w) Active) (keys w' user) <->
   In (EvHandle (issued w) true) (trace w w') \/
   In (EvDelete user (issued w) false) (trace w w') \/
   (In (EvHandle (issued w) false) (trace w w') /\
    forall ok, ~ In (EvDelete user (issued w) ok) (trace w w'))) /\
  (In (EvHandle (issued w) false) (trace w w') ->
   ((forall ok, ~ In (EvDelete user (issued w) ok) (trace w w')) <->
    exists f,
      newKeyHandler this (mkKey user (issued w) Active EmptyString) = Some f /\
      deletesKey f = false)).
Proof.
  intros Hwf H. apply rotateKeys_110_path in H.
  destruct H as (p & Hv & Hj & Hk & _ & Hr & Hi).
  rewrite (trace_app _ _ _ Hj), Hk, Hi. clear Hj Hk Hi w'.
  assert (Hold : forall k id,
    In k (keys w user) -> issued w <= id -> k <> mkMeta user id Active).
  { intros k id Hin Hle ->. destruct Hwf as [_ Hbelow].
    rewrite Forall_forall in Hbelow. specialize (Hbelow _ Hin).
    simpl in Hbelow. lia. }
  assert (Hnd1 : forall oks ok,
    ~ In (EvDelete user (issued w) ok)
         (deletions user (filter isInactive (keys w user)) oks)).
  { intros oks ok. apply fresh_not_deleted; [exact Hwf|].
    intros k Hin. apply filter_In in Hin. tauto. }
  assert (Hnd2 : forall oks ok,
    ~ In (EvDelete user (issued w) ok) (deletions user (keys w user) oks)).
  { intros oks ok. apply fresh_not_deleted; auto. }
  destruct (resolved_110_only _ _ _ _ Hv (eq_sym Hr))
    as [(oks & ->)|(c & oks & oks2 & ->)]; simpl in Hv.
  - (* the core resolved at once *)
    destruct Hv as ((_ & _ & Hl & Hall & _) & _).
    cbn [path110Keys path110Trace created110 coreTrace coreCreated].
    unfold afterCore.
    rewrite (succeeded_keys _ _ _ _ _ Hwf (le_n _) Hl Hall).
    rewrite (without_all _ (keys w user))
      by (intros k Hin; unfold ids; now apply in_map).
    cbn [app]. split; [|split; [|split]].
    + intros k Hin [Heq|[]]. now apply (Hold k (issued w) Hin (le_n _)).
    + exists (issued w). split; [lia|]. split; [journal_has|now left].
    + split; [intros _; left; journal_has|intros _; now left].
    + intros Hin. exfalso. absent_from_journal Hin Hnd1 Hnd2.
  - (* the core resolved at the second go *)
    destruct Hv as (Hh & Hok & (_ & _ & Hl & Hall & _)).
    destruct Hh as (Hc & Hno & _ & _).
    cbn [path110Keys].
    rewrite (succeeded_keys _ _ _ _ _ Hwf (Nat.le_add_r _ _) Hl Hall).
    rewrite (first_key_left _ _ _ _ Hwf).
    cbn [path110Trace created110 coreTrace coreCreated].
    destruct c as [|[|]|oks1|oks1|];
      try (unfold coreHeals in Hno; cbn [coreResult] in Hno; discriminate Hno);
      cbn [coreValid] in Hc;
      cbn [coreTrace coreCreated app]; rewrite ?Nat.add_0_r.
    + (* the first creation was refused *)
      split; [|split; [|split]].
      * intros k Hin [Heq|[]]. now apply (Hold k (issued w) Hin (le_n _)).
      * exists (issued w). split; [lia|]. split; [journal_has|now left].
      * split; [intros _; left; journal_has|intros _; now left].
      * intros Hin. exfalso. absent_from_journal Hin Hnd1 Hnd2.
    + (* the handler failed on the first key, which was deleted *)
      destruct Hc as (_ & _ & f & Hf & Hdel).
      split; [|split; [|split]].
      * intros k Hin [Heq|[]].
        apply (Hold k (issued w + 1) Hin); [lia|auto].
      * exists (issued w + 1). split; [lia|]. split; [journal_has|now left].
      * split.
        -- intros [Heq|[]]. inversion Heq. lia.
        -- intros [Hin|[Hin|[_ Hin]]]; exfalso.
           ++ absent_from_journal Hin Hnd1 Hnd2.
           ++ absent_from_journal Hin Hnd1 Hnd2.
           ++ apply (Hin true). journal_has.
      * intros _. split.
        -- intros Hin. exfalso. apply (Hin true). journal_has.
        -- intros (f' & Hf' & Hdel'). rewrite Hf in Hf'.
           inversion Hf'; subst f'. congruence.
    + (* the handler failed on the first key, which could not be deleted *)
      destruct Hc as (_ & _ & f & Hf & Hdel).
      split; [|split; [|split]].
      * intros k Hin [Heq|[Heq|[]]].
        -- now apply (Hold k (issued w) Hin (le_n _)).
        -- apply (Hold k (issued w + 1) Hin); [lia|auto].
      * exists (issued w + 1). split; [lia|]. split; [journal_has|right; auto].
      * split; [intros _|intros _; now left].
        right. left. journal_has.
      * intros _. split.
        -- intros Hin. exfalso. apply (Hin false). journal_has.
        -- intros (f' & Hf' & Hdel'). rewrite Hf in Hf'.
           inversion Hf'; subst f'. congruence.
    + (* the first key was accepted and an old key could not be deleted *)
      split; [|split; [|split]].
      * intros k Hin [Heq|[Heq|[]]].
        -- now apply (Hold k (issued w) Hin (le_n _)).
        -- apply (Hold k (issued w + 1) Hin); [lia|auto].
      * exists (issued w + 1). split; [lia|]. split; [journal_has|right; auto].
      * split; [intros _|intros _; now left].
        left. journal_has.
      * intros Hin. exfalso. absent_from_journal Hin Hnd1 Hnd2.
    + (* the failure of the handler on the first key skipped the deletion *)
      destruct Hc as (_ & f & Hf & Hdel).
      assert (Hnone : forall ok,
        ~ In (EvDelete user (issued w) ok)
             (EvList user true
                :: [EvCreate user (Some (issued w)); EvHandle (issued w) false]
                   ++ deletions user (filter isInactive (keys w user)) oks
                   ++ EvCreate user (Some (issued w + 1))
                      :: EvHandle (issued w + 1) true
                      :: deletions user (keys w user) oks2)).
      { intros ok Hin. absent_from_journal Hin Hnd1 Hnd2. }
      split; [|split; [|split]].
      * intros k Hin [Heq|[Heq|[]]].
        -- now apply (Hold k (issued w) Hin (le_n _)).
        -- apply (Hold k (issued w + 1) Hin); [lia|auto].
      * exists (issued w + 1). split; [lia|]. split; [journal_has|right; auto].
      * split; [intros _|intros _; now left].
        right. right. split; [journal_has|exact Hnone].
      * intros _. split; [intros _; exists f; auto|intros _; exact Hnone].
Qed.

Lemma resolved_in_1_1_0_witness :
  In (createKey 1 Active)
     (keys (snd (KeyRotator_1_1_0.rotateKeys
                   (mkKeyRotator (mkIAM (fun n => n =? 2) false) keyHandler)
                   testUser (worldWith oneInactive))) testUser) <->
  In (EvHandle 1 true)
     (trace (worldWith oneInactive)
        (snd (KeyRotator_1_1_0.rotateKeys
                (mkKeyRotator (mkIAM (fun n => n =? 2) false) keyHandler)
                testUser (worldWith oneInactive)))) \/
  In (EvDelete testUser 1 false)
     (trace (worldWith oneInactive)
        (snd (KeyRotator_1_1_0.rotateKeys
                (mkKeyRotator (mkIAM (fun n => n =? 2) false) keyHandler)
                testUser (worldWith oneInactive)))) \/
  (In (EvHandle 1 false)
      (trace (worldWith oneInactive)
         (snd (KeyRotator_1_1_0.rotateKeys
                 (mkKeyRotator (mkIAM (fun n => n =? 2) false) keyHandler)
                 testUser (worldWith oneInactive)))) /\
   forall ok,
     ~ In (EvDelete testUser 1 ok)
          (trace (worldWith oneInactive)
             (snd (KeyRotator_1_1_0.rotateKeys
                     (mkKeyRotator (mkIAM (fun n => n =? 2) false) keyHandler)
                     testUser (worldWith oneInactive))))).
Proof.
  exact (proj1 (proj2 (proj2 (resolved_in_1_1_0
                                (mkKeyRotator (mkIAM (fun n => n =? 2) false)
                                   keyHandler)
                                testUser (worldWith oneInactive) _
                                (wellFormed_worldWith_one Inactive)
                                eq_refl)))).
Defined.

(** *** The order of the steps in revision 1.1.0 *)

Lemma accept_app user id A B :
  deletedAfterAccept user id A -> deletedAfterAccept user id B ->
  deletedAfterAccept user id (A ++ B).
Proof.
  intros HA HB pre ok post H. apply app_eq_app in H.
  destruct H as (l & [[H1 H2]|[H1 H2]]).
  - destruct l as [|x l].
    + simpl in H2. destruct (HB [] ok post (eq_sym H2)) as (id' & []).
    + inversion H2; subst. apply (HA pre ok l). reflexivity.
  - destruct (HB l ok post H2) as (id' & Hin). exists id'.
    rewrite H1. apply in_or_app. now right.
Qed.

Lemma accept_none user id A :
  (forall ok, ~ In (EvDelete user id ok) A) -> deletedAfterAccept user id A.
Proof.
  intros H pre ok post Heq. exfalso. apply (H ok). rewrite Heq. apply in_elt.
Qed.

Lemma accept_guard user id id' A :
  deletedAfterAccept user id (EvHandle id' true :: A).
Proof.
  intros [|x pre] ok post H; inversion H; subst. exists id'. now left.
Qed.

Lemma core_accept user listed id kid c :
  kid <> id -> deletedAfterAccept user kid (coreTrace user listed id c).
Proof.
  intros Hne. destruct c; simpl.
  - apply accept_none. intros ok [H|[]]. discriminate.
  - apply accept_none. intros ok' [H|[H|[H|[]]]]; try discriminate.
    inversion H. congruence.
  - apply (accept_app _ _ [EvCreate user (Some id)]).
    + apply accept_none. intros ok [H|[]]. discriminate.
    + apply accept_guard.
  - apply (accept_app _ _ [EvCreate user (Some id)]).
    + apply accept_none. intros ok [H|[]]. discriminate.
    + apply accept_guard.
  - apply accept_none. intros ok' [H|[H|[]]]; discriminate.
Qed.

Lemma core_counts user listed id c :
  List.length (filter isCreate (coreTrace user listed id c)) = 1 /\
  List.length (filter isHandle (coreTrace user listed id c)) <= 1.
Proof.
  destruct c; simpl; rewrite ?deletions_no_create, ?deletions_no_handle;
    simpl; lia.
Qed.

Lemma core_handle this user listed present id n c id' ok :
  coreValid this user listed present id n c ->
  In (EvHandle id' ok) (coreTrace user listed id c) ->
  id' = id /\
  In (EvCreate user (Some id)) (coreTrace user listed id c) /\
  (ok = true <-> newKeyHandler this (mkKey user id Active EmptyString) = None).
Proof.
  intros Hv Hin. destruct c; simpl in Hv, Hin.
  - destruct Hin as [H|[]]. discriminate.
  - destruct Hin as [H|[H|[H|[]]]]; try discriminate.
    inversion H; subst. simpl. split; [reflexivity|]. split; [now left|].
    destruct Hv as (_ & _ & f & Hf & _). rewrite Hf.
    split; discriminate.
  - destruct Hin as [H|[H|H]]; try discriminate.
    + inversion H; subst. simpl. split; [reflexivity|]. split; [now left|].
      destruct Hv as (_ & _ & _ & _ & Hh). tauto.
    + now apply in_deletions_not_handle in H.
  - destruct Hin as [H|[H|H]]; try discriminate.
    + inversion H; subst. simpl. split; [reflexivity|]. split; [now left|].
      destruct Hv as (_ & _ & _ & _ & Hh). tauto.
    + now apply in_deletions_not_handle in H.
  - destruct Hin as [H|[H|[]]]; try discriminate.
    inversion H; subst. simpl. split; [reflexivity|]. split; [now left|].
    destruct Hv as (_ & f & Hf & _). rewrite Hf.
    split; discriminate.
Qed.

(** X22.  In a run of revision 1.1.0 the creation is requested at most twice
    and the handler is called at most twice, each time with a key the run has
    created, and it accepts or rejects as [newKeyHandler] decides for that
    key; and a listed active key is asked to be deleted only after the handler
    has accepted a key. *)
Theorem steps_in_1_1_0 this user w r w' :
  wellFormed user w ->
  KeyRotator_1_1_0.rotateKeys this user w = (r, w') ->
  List.length (filter isCreate (trace w w')) <= 2 /\
  List.length (filter isHandle (trace w w')) <= 2 /\
  (forall id ok, In (EvHandle id ok) (trace w w') ->
     (id = issued w \/ id = issued w + 1) /\
     In (EvCreate user (Some id)) (trace w w') /\
     (ok = true <->
      newKeyHandler this (mkKey user id Active EmptyString) = None)) /\
  forall k pre ok post,
    In k (keys w user) -> Status k = ACTIVE ->
    trace w w' = pre ++ EvDelete user (AccessKeyId k) ok :: post ->
    exists id, In (EvHandle id true) pre.
Proof.
  intros Hwf H. apply rotateKeys_110_path in H.
  destruct H as (p & Hv & Hj & _). rewrite (trace_app _ _ _ Hj). clear Hj.
  pose proof (core_counts user (keys w user)) as Hcount.
  assert (Hlist : forall kid A,
    deletedAfterAccept user kid A ->
    deletedAfterAccept user kid (EvList user true :: A)).
  { intros kid A HA. apply (accept_app _ _ [EvList user true]); [|exact HA].
    apply accept_none. intros ok [H|[]]. discriminate. }
  split; [|split; [|split]].
  - destruct p as [|c|c oks|c oks c2]; simpl;
      rewrite ?filter_app, ?deletions_no_create, ?length_app; simpl; try lia.
    + destruct (Hcount (issued w) c). lia.
    + destruct (Hcount (issued w) c). lia.
    + destruct (Hcount (issued w) c).
      destruct (Hcount (issued w + coreCreated c) c2). lia.
  - destruct p as [|c|c oks|c oks c2]; simpl;
      rewrite ?filter_app, ?deletions_no_handle, ?length_app; simpl; try lia.
    + destruct (Hcount (issued w) c). lia.
    + destruct (Hcount (issued w) c). lia.
    + destruct (Hcount (issued w) c).
      destruct (Hcount (issued w + coreCreated c) c2). lia.
  - intros id ok Hin.
    destruct p as [|c|c oks|c oks c2]; simpl in Hv, Hin |- *.
    + destruct Hin as [H|[]]. discriminate.
    + destruct Hin as [H|Hin]; [discriminate|].
      destruct Hv as [Hc _].
      destruct (core_handle _ _ _ _ _ _ _ _ _ Hc Hin) as (-> & Hcr & Hok).
      auto.
    + destruct Hin as [H|Hin]; [discriminate|].
      apply in_app_or in Hin. destruct Hin as [Hin|Hin];
        [|now apply in_deletions_not_handle in Hin].
      destruct Hv as [(Hc & _) _].
      destruct (core_handle _ _ _ _ _ _ _ _ _ Hc Hin) as (-> & Hcr & Hok).
      split; [auto|]. split; [|exact Hok].
      right. apply in_or_app. now left.
    + destruct Hin as [H|Hin]; [discriminate|].
      destruct Hv as ((Hc & _) & _ & Hc2).
      apply in_app_or in Hin. destruct Hin as [Hin|Hin].
      * destruct (core_handle _ _ _ _ _ _ _ _ _ Hc Hin) as (-> & Hcr & Hok).
        split; [auto|]. split; [|exact Hok].
        right. apply in_or_app. now left.
      * apply in_app_or in Hin. destruct Hin as [Hin|Hin];
          [now apply in_deletions_not_handle in Hin|].
        destruct (core_handle _ _ _ _ _ _ _ _ _ Hc2 Hin) as (-> & Hcr & Hok).
        split; [|split; [|exact Hok]].
        -- destruct c; simpl; rewrite ?Nat.add_0_r; auto.
        -- right. apply in_or_app. right. apply in_or_app. now right.
  - intros k pre ok post Hin Hact.
    assert (Hne : forall n, AccessKeyId k <> issued w + n).
    { intros n. destruct Hwf as [_ Hbelow]. rewrite Forall_forall in Hbelow.
      specialize (Hbelow k Hin). lia. }
    assert (Hheal : forall oks,
      deletedAfterAccept user (AccessKeyId k)
        (deletions user (filter isInactive (keys w user)) oks)).
    { intros oks. apply accept_none. intros ok'.
      now apply active_not_in_cleanup. }
    assert (Hcore : forall n c,
      deletedAfterAccept user (AccessKeyId k)
        (coreTrace user (keys w user) (issued w + n) c)).
    { intros n c. apply core_accept, Hne. }
    pose proof (Hcore 0) as Hcore0. rewrite Nat.add_0_r in Hcore0.
    revert pre ok post.
    change (deletedAfterAccept user (AccessKeyId k) (path110Trace user w p)).
    destruct p as [|c|c oks|c oks c2]; simpl.
    + apply accept_none. intros ok [H|[]]. discriminate.
    + apply Hlist, Hcore0.
    + apply Hlist, accept_app; [apply Hcore0|apply Hheal].
    + apply Hlist, accept_app; [apply Hcore0|].
      apply accept_app; [apply Hheal|apply Hcore].
Qed.

Lemma steps_in_1_1_0_witness :
  List.length
    (filter isHandle
       (trace (worldWith oneInactive)
          (snd (KeyRotator_1_1_0.rotateKeys
                  (mkKeyRotator mockIAM rejectingHandler)
                  testUser (worldWith oneInactive))))) <= 2.
Proof.
  exact (proj1 (proj2 (steps_in_1_1_0 (mkKeyRotator mockIAM rejectingHandler)
                         testUser (worldWith oneInactive) _ _
                         (wellFormed_worldWith_one Inactive) eq_refl))).
Defined.

(** *** The self-healing of revision 1.1.0 at the limit *)

(** X23.  At the limit, with fewer than two keys that are not inactive, a
    service that answers and a handler that accepts, a run of revision 1.1.0
    goes through the core twice: the creation is refused, the listed inactive
    keys are deleted, a key is created and accepted, and the deletion of every
    listed key is requested, of the inactive ones for the second time.
    Exactly the created key is left.  The run resolves when the service does
    not mind the deletion of a key that is gone, and rejects with the refusal
    of that deletion when it does. *)
Theorem rotateKeys_110_at_limit this user w :
  wellFormed user w ->
  noFaults (iam this) ->
  (forall key, newKeyHandler this key = None) ->
  maxKeys <= List.length (keys w user) ->
  List.length (filter (fun k => negb (isInactive k)) (keys w user)) < maxKeys ->
  exists r w',
    KeyRotator_1_1_0.rotateKeys this user w = (r, w') /\
    keys w' user = [mkMeta user (issued w) ACTIVE] /\
    In (EvHandle (issued w) true) (trace w w') /\
    List.length (filter isCreate (trace w w')) = 2 /\
    (if strictDelete (iam this)
     then exists n, r = Rejected (NoSuchEntity n)
     else r = Resolved tt).
Proof.
  intros Hwf Hnf Hh Hcap Hfew.
  destruct (KeyRotator_1_1_0.rotateKeys this user w) as [r w'] eqn:E.
  exists r, w'. split; [reflexivity|].
  apply rotateKeys_110_path in E.
  destruct E as (p & Hv & Hj & Hk & _ & -> & _).
  rewrite (trace_app _ _ _ Hj), Hk. clear Hj Hk.
  set (listed := keys w user) in *.
  set (active := filter (fun k => negb (isInactive k)) listed) in *.
  assert (Hfirst : forall c,
    coreValid this user listed listed (issued w) (clock w + 1) c ->
    c = CoreCreateFailed).
  { intros c Hc. destruct c; simpl in Hc; [reflexivity| | | |];
      destruct Hc as (Hlt & _); lia. }
  assert (Hheal : forall oks,
    healValid this user w CoreCreateFailed oks ->
    allOk oks = true /\ afterHeal user w CoreCreateFailed oks = active).
  { intros oks (_ & _ & Ho & Hl).
    unfold afterHeal, afterCore in *. simpl in Ho |- *.
    assert (Hall : allOk oks = true).
    { rewrite Ho. apply batchOutcomes_all_present; auto.
      - apply NoDup_ids_filter, Hwf.
      - intros k Hin. apply filter_In in Hin. unfold ids.
        apply in_map. tauto. }
    split; [exact Hall|].
    rewrite (deletedIds_allOk _ _ Hl Hall). apply without_inactive, Hwf. }
  destruct p as [|c|c oks|c oks c2]; simpl in Hv.
  - rewrite Hnf in Hv. discriminate.
  - destruct Hv as [Hc Hres]. apply Hfirst in Hc. subst c.
    unfold coreHeals in Hres. simpl in Hres.
    rewrite serialisable_createError in Hres. discriminate.
  - destruct Hv as [Hhv Hno]. pose proof (proj1 Hhv) as Hc.
    apply Hfirst in Hc. subst c. apply Hheal in Hhv. destruct Hhv. congruence.
  - destruct Hv as (Hhv & _ & Hc2). pose proof (proj1 Hhv) as Hc.
    apply Hfirst in Hc. subst c.
    destruct (Hheal oks Hhv) as [_ Hkeys]. rewrite Hkeys in Hc2.
    cbn [path110Keys path110Trace path110Result coreTrace coreCreated app].
    rewrite Hkeys, !Nat.add_0_r in *.
    assert (Hnew : forall D,
      (forall x, In x D -> In x (ids listed)) ->
      (forall k, In k active -> In (AccessKeyId k) D) ->
      without D (active ++ [mkMeta user (issued w) Active])
      = [mkMeta user (issued w) Active]).
    { intros D Hsub Hall. rewrite without_app, (without_all _ _ Hall).
      cbn [app]. apply without_none. intros k [<-|[]] Hin.
      now apply (fresh_not_listed user w Hwf), Hsub. }
    assert (Hpresent : forall oks2,
      oks2 = batchOutcomes (iam this) (healClock user w CoreCreateFailed
                                         + List.length
                                             (filter isInactive listed) + 1)
               (ids (active ++ [mkMeta user (issued w) Active])) listed ->
      forall k, In k active -> In (AccessKeyId k) (deletedIds listed oks2)).
    { intros oks2 -> k Hin. pose proof Hin as Hin'.
      apply filter_In in Hin'. apply batchOutcomes_present; auto.
      - exact (proj1 Hwf).
      - tauto.
      - unfold ids. rewrite map_app. apply in_or_app. left.
        now apply in_map. }
    assert (Hcount : forall tl,
      filter isCreate tl = [] ->
      List.length
        (filter isCreate
           (EvList user true :: EvCreate user None
              :: deletions user (filter isInactive listed) oks
                 ++ EvCreate user (Some (issued w)) :: tl)) = 2).
    { intros tl Htl. simpl. rewrite filter_app, deletions_no_create. simpl.
      now rewrite Htl. }
    destruct c2 as [|ok|oks2|oks2|]; simpl in Hc2.
    + destruct Hc2 as [Hf|Hlim]; [rewrite Hnf in Hf; discriminate|lia].
    + destruct Hc2 as (_ & _ & f & Hf & _). rewrite Hh in Hf. discriminate.
    + (* a deletion of the second core failed *)
      destruct Hc2 as (_ & Ho & Hl & Hno & _).
      cbn [coreKeys coreTrace coreResult surfaced].
      split; [|split; [|split]].
      * apply Hnew; [apply deletedIds_incl|now apply Hpresent].
      * simpl. right. right. apply in_or_app. right. simpl. auto.
      * apply Hcount. simpl. apply deletions_no_create.
      * destruct (strictDelete (iam this)) eqn:Es.
        -- destruct (firstFalse oks2) as [j|] eqn:EF.
           ++ rewrite surface_serialisable by apply serialisable_deleteError.
              eexists. unfold deleteError. rewrite Hnf. reflexivity.
           ++ apply firstFalse_allOk in EF. congruence.
        -- rewrite Ho, batchOutcomes_lenient in Hno by assumption.
           discriminate.
    + (* the second core resolved *)
      destruct Hc2 as (_ & Ho & Hl & Hall & _).
      cbn [coreKeys coreTrace coreResult surfaced].
      split; [|split; [|split]].
      * apply Hnew; [apply deletedIds_incl|now apply Hpresent].
      * simpl. right. right. apply in_or_app. right. simpl. auto.
      * apply Hcount. simpl. apply deletions_no_create.
      * destruct (strictDelete (iam this)) eqn:Es; [|reflexivity].
        exfalso. destruct (some_inactive listed) as (ki & Hki & Hi);
          [fold active; lia|].
        assert (Hgone : ~ In (AccessKeyId ki)
                          (ids (active ++ [mkMeta user (issued w) Active]))).
        { unfold ids. rewrite map_app. intros Hin.
          apply in_app_or in Hin. destruct Hin as [Hin|[Hin|[]]].
          - apply in_map_iff in Hin. destruct Hin as (k & Hid & Hk').
            apply filter_In in Hk'. destruct Hk' as [Hk' Hn].
            assert (k = ki) by (eapply same_id_same_key;
                                [exact (proj1 Hwf)| | |]; eassumption).
            subst k. rewrite Hi in Hn. discriminate.
          - simpl in Hin. symmetry in Hin.
            now apply (fresh_id user w ki Hwf Hki). }
        rewrite Ho in Hall.
        erewrite batchOutcomes_absent in Hall; try eassumption.
        discriminate.
    + destruct Hc2 as (_ & f & Hf & _). rewrite Hh in Hf. discriminate.
Qed.

Lemma rotateKeys_110_at_limit_witness :
  exists r w',
    KeyRotator_1_1_0.rotateKeys
      (mkKeyRotator (mkIAM (fun _ => false) true) keyHandler) testUser
      (worldWith [createKey 0 Inactive; createKey 1 Active]) = (r, w') /\
    keys w' testUser = [createKey 2 Active] /\
    exists n, r = Rejected (NoSuchEntity n).
Proof.
  destruct (rotateKeys_110_at_limit
              (mkKeyRotator (mkIAM (fun _ => false) true) keyHandler) testUser
              (worldWith [createKey 0 Inactive; createKey 1 Active])
              (wellFormed_worldWith_two Inactive Active))
    as (r & w' & Hr & Hk & _ & _ & He).
  - intros n. reflexivity.
  - intros key. reflexivity.
  - simpl. unfold maxKeys. lia.
  - simpl. unfold maxKeys. lia.
  - exists r, w'. split; [exact Hr|]. split; [exact Hk|exact He].
Defined.

(** *** The retry of revision 1.1.1 on the run of the test at the limit *)

Lemma retry_in_1_1_1_witness :
  exists oks rest',
    List.length oks = 1 /\
    skipn 2
      (trace (worldWith [createKey 0 Inactive; createKey 1 Active])
         (snd (KeyRotator_1_1_1.rotateKeys (mkKeyRotator mockIAM keyHandler)
                 testUser
                 (worldWith [createKey 0 Inactive; createKey 1 Active]))))
    = deletions testUser [createKey 0 Inactive] oks ++ rest' /\
    (allOk oks = true ->
     exists c rest'',
       rest' = EvCreate testUser c :: rest'' /\ filter isCreate rest'' = []).
Proof.
  exact (retry_in_1_1_1 (mkKeyRotator mockIAM keyHandler) testUser
           (worldWith [createKey 0 Inactive; createKey 1 Active])
           _ _ _ eq_refl eq_refl).
Defined.
